(** * barcode-to-pc-app: the scan engine ([ScanProvider])

    A shallow embedding of the two drafts of [ScanProvider] kept in the
    repository:

    - [scan], [again], [getBarcode], [getQuantity], [evalCode] of the current
      provider (module [Engine]);
    - [acquireScan], [showQuantityDialog], [evalCode] of the earlier draft
      under [src/providers/scan.ts] (module [Draft]);
    - the inputs of the select alert, the countdown of the add-more alert
      (module [AddMore]) and [updateCurrentOutputProfile];
    - the handlers of the page of the archived scan sessions (module
      [ArchivedPage]).

    JavaScript objects that the code shares by reference (the output blocks of
    a profile and the arrays that hold them) live in an explicit heap, so that
    aliasing between the master profile and the working copy of a pass is
    visible.  Promises are modelled by an explicit stream of answers given by
    the collaborators (dialogs, scanner, keyboard); every [await] consumes one
    answer, lets the clock advance, fires the timers that are due and lets the
    user start a new top-level [scan()] in the meantime.

    The code of the 'function' and 'if' blocks is run by [eval], inside a
    method of the provider.  The interpreter of this code is a parameter
    ([Runtime]): it is given the global object, the provider and the heap,
    and gives them back as the code leaves them.  A [Host] stands for the
    runtimes whose expressions only compute a value from the global object;
    the statements that are made for a host are about such expressions. *)

From Stdlib Require Import ZArith Lia Bool.
From stdpp Require Import base option list strings gmap pretty.

Open Scope Z_scope.

(** ** JavaScript values and arrays *)

(** The values that the engine stores in blocks and variables.  Numbers are
    the integers the engine itself builds (timestamps, counters). *)
Inductive JsVal :=
| JUndefined
| JNull
| JBool (b : bool)
| JNum (n : Z)
| JStr (s : string)
| JArr (xs : list string).

#[global] Instance JsVal_eq_dec : EqDecision JsVal.
Proof. solve_decision. Defined.

(** ToBoolean. *)
Definition truthy (v : JsVal) : bool :=
  match v with
  | JUndefined | JNull => false
  | JBool b => b
  | JNum n => negb (n =? 0)
  | JStr s => negb (String.eqb s "")
  | JArr _ => true
  end.

(** [Array.prototype.splice(start, deleteCount)], the array after the
    removal.  A negative [start] counts from the end; [deleteCount] is clamped
    to what is left after [start]. *)
Definition splice {A} (start deleteCount : Z) (l : list A) : list A :=
  let len := Z.of_nat (length l) in
  let actualStart := if start <? 0 then Z.max (len + start) 0 else Z.min start len in
  let actualDeleteCount := Z.min (Z.max deleteCount 0) (len - actualStart) in
  take (Z.to_nat actualStart) l ++ drop (Z.to_nat (actualStart + actualDeleteCount)) l.

(** [String.prototype.replace(new RegExp(pat, 'g'), repl)] for a pattern
    without metacharacters (the variable names are plain identifiers): every
    occurrence, leftmost first, without overlap.  [skip] counts the characters
    of a match that are still to be dropped. *)
Fixpoint is_prefix (p s : string) : bool :=
  match p, s with
  | EmptyString, _ => true
  | String a p', String b s' => if Ascii.eqb a b then is_prefix p' s' else false
  | String _ _, EmptyString => false
  end.

Fixpoint replace_go (pat repl : string) (skip : nat) (s : string) : string :=
  match s with
  | EmptyString => EmptyString
  | String c s' =>
      match skip with
      | S k => replace_go pat repl k s'
      | O =>
          if is_prefix pat s
          then repl +:+ replace_go pat repl (String.length pat - 1) s'
          else String c (replace_go pat repl 0 s')
      end
  end.

Definition replace_all (pat repl s : string) : string := replace_go pat repl 0 s.

(** [Array.prototype.join(sep)] on strings. *)
Fixpoint join (sep : string) (l : list string) : string :=
  match l with
  | [] => ""
  | [x] => x
  | x :: rest => x +:+ sep +:+ join sep rest
  end.

(** ** Output blocks and the heap *)

(** [OutputBlockModel.type]. *)
Inductive BlockType :=
| Tkey | Ttext | Tvariable | Tselect_option | Tfunction | Tbarcode
| Tdelay | Trun | Thttp | Tif | Tendif.

#[global] Instance BlockType_eq_dec : EqDecision BlockType.
Proof. solve_decision. Defined.

Record OutputBlockModel := {
  type : BlockType;
  label : option string;
  value : JsVal;
}.

#[global] Instance OutputBlockModel_eq_dec : EqDecision OutputBlockModel.
Proof. solve_decision. Defined.

Definition set_value (v : JsVal) (b : OutputBlockModel) : OutputBlockModel :=
  {| type := type b; label := label b; value := v |}.

Abbreviation loc := nat.

(** A heap cell is a block object or an array of references to blocks. *)
Inductive Obj :=
| OBlock (b : OutputBlockModel)
| OArray (elems : list loc).

(** Objects are never freed: the heap grows at its end. *)
Abbreviation Heap := (list Obj).

Definition alloc (o : Obj) (h : Heap) : Heap * loc := (h ++ [o], length h).

Definition read_block (h : Heap) (l : loc) : option OutputBlockModel :=
  match h !! l with Some (OBlock b) => Some b | _ => None end.

Definition read_array (h : Heap) (a : loc) : option (list loc) :=
  match h !! a with Some (OArray ls) => Some ls | _ => None end.

(** The blocks an array refers to, in order ([None] on a dangling reference). *)
Definition read_blocks (h : Heap) (a : loc) : option (list OutputBlockModel) :=
  ls ← read_array h a; mapM (read_block h) ls.

(** [JSON.parse(JSON.stringify(blocks))]: a new array of new block objects
    with the same contents. *)
Fixpoint clone_blocks (h : Heap) (bs : list OutputBlockModel) : Heap * list loc :=
  match bs with
  | [] => (h, [])
  | b :: rest =>
      let '(h1, l) := alloc (OBlock b) h in
      let '(h2, ls) := clone_blocks h1 rest in
      (h2, l :: ls)
  end.

Definition JSON_clone (h : Heap) (a : loc) : option (Heap * loc) :=
  bs ← read_blocks h a;
  let '(h1, ls) := clone_blocks h bs in
  Some (alloc (OArray ls) h1).

(** [outputBlock.value = v] through a reference. *)
Definition write_value (l : loc) (v : JsVal) (h : Heap) : Heap :=
  match h !! l with
  | Some (OBlock b) => <[l := OBlock (set_value v b)]> h
  | _ => h
  end.

(** [array.splice(start, deleteCount)] through a reference. *)
Definition splice_array (a : loc) (start deleteCount : Z) (h : Heap) : Heap :=
  match h !! a with
  | Some (OArray ls) => <[a := OArray (splice start deleteCount ls)]> h
  | _ => h
  end.

(** ** Records of the models, the settings and the native plugin *)

Module ScanModel.
Record t := {
  id : Z;
  repeated : bool;
  date : Z;
  outputBlocks : list OutputBlockModel;  (* the blocks as they are when the scan is emitted *)
  text : string;
  displayValue : string;
  quantity : JsVal;
}.
End ScanModel.

Module BarcodeScanResult.
Record t := {
  text : string;
  format : string;
  cancelled : bool;
}.
End BarcodeScanResult.

Module BarcodeFormat.
Record t := {
  name : string;
  enabled : bool;
}.
End BarcodeFormat.

Module BarcodeScannerOptions.
Record t := {
  showFlipCameraButton : bool;
  prompt : string;
  showTorchButton : bool;
  preferFrontCamera : bool;
  torchOn : bool;
  continuousMode : bool;
  formats : option string;
}.
Definition set_prompt (p : string) (o : t) : t :=
  {| showFlipCameraButton := showFlipCameraButton o; prompt := p;
     showTorchButton := showTorchButton o; preferFrontCamera := preferFrontCamera o;
     torchOn := torchOn o; continuousMode := continuousMode o; formats := formats o |}.
End BarcodeScannerOptions.

(** What [Settings] answers to the getters read by [scan()]. *)
Module Settings.
Record t := {
  getPreferFrontCamera : bool;
  getEnableLimitBarcodeFormats : bool;
  getBarcodeFormats : list BarcodeFormat.t;
  getQuantityType : option string;   (* a string, or null *)
  getContinueModeTimeout : JsVal;
  getDeviceName : string;
  getOutputProfiles : list loc;   (* the [outputBlocks] array of each profile *)
  getTorchOn : bool;
}.
End Settings.

(** [SelectScanningModePage.SCAN_MODE_*]; [SCAN_MODE_OTHER] stands for any
    other argument, which no case of the switch matches. *)
Inductive ScanMode :=
| SCAN_MODE_CONTINUE | SCAN_MODE_SINGLE | SCAN_MODE_ENTER_MAUALLY | SCAN_MODE_OTHER.

#[global] Instance ScanMode_eq_dec : EqDecision ScanMode.
Proof. solve_decision. Defined.

Inductive AcquisitionMode := manual | single | mixed_continue | continue.

#[global] Instance AcquisitionMode_eq_dec : EqDecision AcquisitionMode.
Proof. solve_decision. Defined.

(** The variables offered to the 'function' and 'if' blocks. *)
Record Variables := {
  barcode : string;
  barcodes : list string;
  quantity : JsVal;
  timestamp : Z;
  device_name : string;
}.

(** [Object.keys(variables)] with the values, in insertion order. *)
Definition entries (v : Variables) : list (string * JsVal) :=
  [ ("barcode", JStr (barcode v)); ("barcodes", JArr (barcodes v));
    ("quantity", quantity v); ("timestamp", JNum (timestamp v));
    ("device_name", JStr (device_name v)) ].

(** The global object: each property is an object with its own properties. *)
Abbreviation Window := (gmap string (gmap string JsVal)).

(** ** What the engine takes from outside *)

(** The JavaScript runtime, the libraries, the platform and the classes of the
    application that [ScanProvider] calls. *)
Record Host := {
  (* [eval] on code that only computes a value from the global object: the
     value, or the error that is thrown *)
  js_eval : Window → string → JsVal + string;
  (* [a == b] *)
  js_loose_eq : JsVal → JsVal → bool;
  (* ToString, as applied by [join] *)
  js_to_string : JsVal → string;
  (* [new Supplant().text(template, variables)] *)
  supplant_text : JsVal → Variables → string;
  toLocaleDateString : Z → string;
  toLocaleTimeString : Z → string;
  (* [this.platform.is('android')] *)
  platform_is_android : bool;
  (* [OutputBlockModel.FindEndIfIndex(outputBlocks, startFrom)] *)
  FindEndIfIndex : list OutputBlockModel → Z → Z;
  (* [OutputProfileModel.HasBlockingOutputComponents(outputProfile)] *)
  HasBlockingOutputComponents : list OutputBlockModel → bool;
  (* [OutputProfileModel.HasQuantityBlocks(outputProfile)] *)
  HasQuantityBlocks : list OutputBlockModel → bool;
  (* [ScanModel.ToString(scan)] *)
  ScanModel_ToString : ScanModel.t → string;
  (* [Utils.convertCode39ToCode32(code39)] *)
  convertCode39ToCode32 : string → string;
}.

(** ** Collaborators: answers and observable calls *)

Inductive QuantityAction :=
| QOk (data_quantity : JsVal)   (* 'Ok' pressed, with the content of the input *)
| QCancel.

Inductive Reply :=
| RConfirm (b : bool)                          (* 'Continue' / 'Stop' of a confirmation *)
| RQuantity (q : QuantityAction)
| RSelect (data : JsVal)
| RScan (r : option BarcodeScanResult.t)       (* the native plugin; [None] is a null result *)
| RSubmit (s : string).                        (* the keyboard input *)

(** What happens while the engine is suspended on an [await]: time passes,
    the user may have started a new top-level [scan()] (which stores its own
    call id in the provider), and the collaborator answers. *)
Record Answer := {
  elapsed : Z;
  rescan : option Z;
  reply : Reply;
}.

Inductive Event :=
| ENext (scan : ScanModel.t)                   (* observer.next(scan) *)
| EComplete                                    (* observer.complete() *)
| EErrorAlert (message : string)               (* the 'Error' alert of evalCode *)
| EInfiniteLoopDialog
| EAddMoreDialog (timeoutSeconds : JsVal)
| EQuantityDialog (title : string) (input_type : string)
| ESelectOptionDialog (options : JsVal)
| EScannerScan (options : BarcodeScannerOptions.t)   (* barcodeScanner.scan(pluginOptions) *)
| EUnsubscribe
| EKeyboardInput (placeholder : option string).

(** How a call of [again()] leaves. *)
Inductive Outcome :=
| Completed      (* observer.complete() and return *)
| Pending        (* suspended on a promise that is never settled *)
| Threw (error : string)   (* an exception leaves the async function *)
| Returned       (* the function returns and leaves the observer open *)
| OutOfFuel.

(** ** The state *)

Record Env := {
  heap : Heap;
  clock : Z;                       (* new Date().getTime() *)
  inputs : list Answer;
  randoms : list Z;                (* the results of getRandomInt() to come *)
  window : Window;
  events : list Event;             (* oldest first *)
}.

(** The fields of [ScanProvider]. *)
Record Provider := {
  awaitingForBarcode : bool;
  pluginOptions : BarcodeScannerOptions.t;
  acqusitionMode : AcquisitionMode;
  barcodeFormats : list BarcodeFormat.t;
  outputProfile : option loc;      (* this.outputProfile.outputBlocks *)
  deviceName : string;
  quantityType : string;
  this_scanCallId : Z;             (* this._scanCallId *)
  continuosScanSubscription : bool; (* false is null *)
}.

(** The variables of one call of [scan()] captured by [again]. *)
Record Closure := {
  againCount : Z;
  prevScanDisplayValue : string;
  resetAgainCountTimer : option Z; (* the time at which the pending timeout fires *)
  _scanCallId : Z;
  continueModeTimeout : JsVal;
  scanSession_name : JsVal;
}.

(** The variables of one run of [again()]. *)
Record Pass := {
  variables : Variables;
  scan_id : Z;
  scan_date : Z;
  scan_outputBlocks : loc;
  scan_quantity : JsVal;
}.

Record State := {
  env : Env;
  this : Provider;
  closure : Closure;
  pass : Pass;
}.

(** Field updates. *)
Definition upd_env (f : Env → Env) (st : State) : State :=
  {| env := f (env st); this := this st; closure := closure st; pass := pass st |}.
Definition upd_this (f : Provider → Provider) (st : State) : State :=
  {| env := env st; this := f (this st); closure := closure st; pass := pass st |}.
Definition upd_closure (f : Closure → Closure) (st : State) : State :=
  {| env := env st; this := this st; closure := f (closure st); pass := pass st |}.
Definition upd_pass (f : Pass → Pass) (st : State) : State :=
  {| env := env st; this := this st; closure := closure st; pass := f (pass st) |}.

Definition set_heap (h : Heap) (e : Env) : Env :=
  {| heap := h; clock := clock e; inputs := inputs e; randoms := randoms e;
     window := window e; events := events e |}.
Definition set_clock (t : Z) (e : Env) : Env :=
  {| heap := heap e; clock := t; inputs := inputs e; randoms := randoms e;
     window := window e; events := events e |}.
Definition set_inputs (l : list Answer) (e : Env) : Env :=
  {| heap := heap e; clock := clock e; inputs := l; randoms := randoms e;
     window := window e; events := events e |}.
Definition set_randoms (l : list Z) (e : Env) : Env :=
  {| heap := heap e; clock := clock e; inputs := inputs e; randoms := l;
     window := window e; events := events e |}.
Definition set_events (l : list Event) (e : Env) : Env :=
  {| heap := heap e; clock := clock e; inputs := inputs e; randoms := randoms e;
     window := window e; events := l |}.
Definition set_window (w : Window) (e : Env) : Env :=
  {| heap := heap e; clock := clock e; inputs := inputs e; randoms := randoms e;
     window := w; events := events e |}.

Definition set_awaitingForBarcode (b : bool) (p : Provider) : Provider :=
  {| awaitingForBarcode := b; pluginOptions := pluginOptions p;
     acqusitionMode := acqusitionMode p; barcodeFormats := barcodeFormats p;
     outputProfile := outputProfile p; deviceName := deviceName p;
     quantityType := quantityType p; this_scanCallId := this_scanCallId p;
     continuosScanSubscription := continuosScanSubscription p |}.
Definition set_pluginOptions (o : BarcodeScannerOptions.t) (p : Provider) : Provider :=
  {| awaitingForBarcode := awaitingForBarcode p; pluginOptions := o;
     acqusitionMode := acqusitionMode p; barcodeFormats := barcodeFormats p;
     outputProfile := outputProfile p; deviceName := deviceName p;
     quantityType := quantityType p; this_scanCallId := this_scanCallId p;
     continuosScanSubscription := continuosScanSubscription p |}.
Definition set_this_scanCallId (n : Z) (p : Provider) : Provider :=
  {| awaitingForBarcode := awaitingForBarcode p; pluginOptions := pluginOptions p;
     acqusitionMode := acqusitionMode p; barcodeFormats := barcodeFormats p;
     outputProfile := outputProfile p; deviceName := deviceName p;
     quantityType := quantityType p; this_scanCallId := n;
     continuosScanSubscription := continuosScanSubscription p |}.
Definition set_continuosScanSubscription (b : bool) (p : Provider) : Provider :=
  {| awaitingForBarcode := awaitingForBarcode p; pluginOptions := pluginOptions p;
     acqusitionMode := acqusitionMode p; barcodeFormats := barcodeFormats p;
     outputProfile := outputProfile p; deviceName := deviceName p;
     quantityType := quantityType p; this_scanCallId := this_scanCallId p;
     continuosScanSubscription := b |}.

Definition set_againCount (n : Z) (c : Closure) : Closure :=
  {| againCount := n; prevScanDisplayValue := prevScanDisplayValue c;
     resetAgainCountTimer := resetAgainCountTimer c; _scanCallId := _scanCallId c;
     continueModeTimeout := continueModeTimeout c; scanSession_name := scanSession_name c |}.
Definition set_prevScanDisplayValue (s : string) (c : Closure) : Closure :=
  {| againCount := againCount c; prevScanDisplayValue := s;
     resetAgainCountTimer := resetAgainCountTimer c; _scanCallId := _scanCallId c;
     continueModeTimeout := continueModeTimeout c; scanSession_name := scanSession_name c |}.
Definition set_resetAgainCountTimer (t : option Z) (c : Closure) : Closure :=
  {| againCount := againCount c; prevScanDisplayValue := prevScanDisplayValue c;
     resetAgainCountTimer := t; _scanCallId := _scanCallId c;
     continueModeTimeout := continueModeTimeout c; scanSession_name := scanSession_name c |}.

Definition set_variables (v : Variables) (p : Pass) : Pass :=
  {| variables := v; scan_id := scan_id p; scan_date := scan_date p;
     scan_outputBlocks := scan_outputBlocks p; scan_quantity := scan_quantity p |}.
Definition set_scan_quantity (q : JsVal) (p : Pass) : Pass :=
  {| variables := variables p; scan_id := scan_id p; scan_date := scan_date p;
     scan_outputBlocks := scan_outputBlocks p; scan_quantity := q |}.

Definition set_barcode (b : string) (v : Variables) : Variables :=
  {| barcode := b; barcodes := barcodes v; quantity := quantity v;
     timestamp := timestamp v; device_name := device_name v |}.
Definition push_barcodes (b : string) (v : Variables) : Variables :=
  {| barcode := barcode v; barcodes := barcodes v ++ [b]; quantity := quantity v;
     timestamp := timestamp v; device_name := device_name v |}.
Definition set_quantity (q : JsVal) (v : Variables) : Variables :=
  {| barcode := barcode v; barcodes := barcodes v; quantity := q;
     timestamp := timestamp v; device_name := device_name v |}.

Definition emit (e : Event) (st : State) : State :=
  upd_env (λ en, set_events (events en ++ [e]) en) st.

Definition write_heap (f : Heap → Heap) (st : State) : State :=
  upd_env (λ en, set_heap (f (heap en)) en) st.

(** The callback of [setTimeout(() => againCount = 0, 500)], once its time
    has come. *)
Definition fire_timers (st : State) : State :=
  match resetAgainCountTimer (closure st) with
  | Some due =>
      if due <=? clock (env st)
      then upd_closure (λ c, set_resetAgainCountTimer None (set_againCount 0 c)) st
      else st
  | None => st
  end.

(** A new top-level [scan()] of the user: it completes the observer of the
    running sequence and stores its own call id. *)
Definition new_scan_call (callId : Z) (st : State) : State :=
  upd_this (set_this_scanCallId callId) (emit EComplete st).

(** One suspension: the next answer is taken, the clock advances, the timer
    fires if it is due, a new [scan()] call is recorded.  [None] when no
    answer ever comes. *)
Definition resume (a : Answer) (rest : list Answer) (st : State) : State :=
  let st1 := upd_env (λ en, set_inputs rest (set_clock (clock en + Z.max 0 (elapsed a)) en)) st in
  let st2 := fire_timers st1 in
  match rescan a with Some callId => new_scan_call callId st2 | None => st2 end.

Definition await (st : State) : option (Reply * State) :=
  match inputs (env st) with
  | [] => None
  | a :: rest => Some (reply a, resume a rest st)
  end.

(** The result of a step of the async function [again]: it goes on with a
    value, or the function is left. *)
Inductive Res (A : Type) :=
| Ret (a : A) (st : State)
| Exit (o : Outcome) (st : State).
Arguments Ret {A} a st.
Arguments Exit {A} o st.

(** A promise once the engine looks at it. *)
Inductive Settled :=
| Resolved (v : JsVal)
| Rejected (reason : JsVal)
| Unsettled.

(** ** The expressions of the profile *)

(** [evalCode] runs the code of a 'function' or 'if' block with a direct
    [eval], called inside a method of the provider: besides the global object
    the code has [this] in scope, and through it the objects that the
    provider refers to.  It can read them and write to them. *)
Record Scope := {
  scope_window : Window;
  scope_this : Provider;
  scope_heap : Heap;
}.

(** The runtime that interprets the expressions: [direct_eval] gives the
    value of the code or the error that it throws, and the scope as the code
    leaves it.  The rest of the runtime is that of [library] (whose
    [js_eval] is not called). *)
Record Runtime := {
  direct_eval : Scope → string → (JsVal + string) * Scope;
  library : Host;
}.

(** The runtime of a host whose expressions only compute: they look at the
    global object alone and write nowhere. *)
Definition global_eval (H : Host) : Runtime :=
  {| direct_eval := λ scope code, (js_eval H (scope_window scope) code, scope);
     library := H |}.

Coercion global_eval : Host >-> Runtime.

(** The provider and the global object as the code has left them. *)
Definition write_scope (scope : Scope) (st : State) : State :=
  {| env := set_window (scope_window scope) (set_heap (scope_heap scope) (env st));
     this := scope_this scope; closure := closure st; pass := pass st |}.

(** ** The current provider: [scan] *)

Definition dquote : string := String (Ascii.ascii_of_nat 34) EmptyString.

(** The switch of [scan()] that sets [this.acqusitionMode].  No case matches
    another argument, and the field keeps the value it has. *)
Definition select_acqusitionMode (current : AcquisitionMode) (scanMode : ScanMode)
    (blockingOutputComponents is_android : bool) (continueModeTimeout : JsVal)
    : AcquisitionMode :=
  match scanMode with
  | SCAN_MODE_ENTER_MAUALLY => manual
  | SCAN_MODE_SINGLE => single
  | SCAN_MODE_CONTINUE =>
      if blockingOutputComponents || negb is_android || truthy continueModeTimeout
      then mixed_continue
      else continue
  | SCAN_MODE_OTHER => current
  end.

(** The handlers of the buttons of the quantity alert, acting on the promise
    of [getQuantity]. *)
Definition getQuantity_handlers (quantityType : string) (q : QuantityAction) : Settled :=
  match q with
  | QCancel => Rejected (JStr "cancelled")
  | QOk data_quantity =>
      if truthy data_quantity then Resolved data_quantity
      else if String.eqb quantityType "number" then Resolved (JStr "1")
      else Unsettled
  end.

(** [this.barcodeFormats.findIndex(x => x.enabled && x.name == 'CODE_32') != -1] *)
Definition code32_enabled (barcodeFormats : list BarcodeFormat.t) : bool :=
  existsb (λ x, BarcodeFormat.enabled x && String.eqb (BarcodeFormat.name x) "CODE_32")
    barcodeFormats.

Definition label_or (label : option string) (default : string) : string :=
  match label with
  | Some l => if String.eqb l "" then default else l
  | None => default
  end.

Definition DEFAULT_ACQUISITION_LABEL : string :=
  "Place a barcode inside the scan area." +:+ String (Ascii.ascii_of_nat 10) EmptyString
    +:+ "Press the back button to exit.".

Definition str_is (v : JsVal) (s : string) : bool :=
  match v with JStr x => String.eqb x s | _ => false end.

Module Engine.
Section WithRuntime.
Context (R : Runtime).
Abbreviation H := (library R).

(** [getRandomInt()]: the next result of the generator (0 once the results
    that are given are used up). *)
Definition getRandomInt (st : State) : Z * State :=
  (hd 0 (randoms (env st)), upd_env (λ en, set_randoms (tl (randoms en)) en) st).

(** The path that replaces a variable name in the code. *)
Definition scratch_path (randomInt key : string) : string :=
  "window[" +:+ dquote +:+ randomInt +:+ dquote +:+ "][" +:+ dquote +:+ "_" +:+ key
    +:+ dquote +:+ "]".

(** [window[randomInt]] once the [forEach] is over. *)
Definition scratch (variables : Variables) : gmap string JsVal :=
  foldl (λ o kv, <["_" +:+ kv.1 := kv.2]> o) ∅ (entries variables).

(** The code once the [forEach] is over. *)
Definition rewrite_code (randomInt : string) (variables : Variables) (code : string) : string :=
  foldl (λ c kv, replace_all kv.1 (scratch_path randomInt kv.1) c) code (entries variables).

(** What [evalCode] hands to [eval]: the global object with the scratch
    object under the random index, and the code with the names replaced. *)
Definition eval_call (code : string) (variables : Variables) (st : State) : Window * string :=
  let randomInt := pretty (getRandomInt st).1 in
  (<[randomInt := scratch variables]> (window (env st)), rewrite_code randomInt variables code).

(** The scope of the [eval] of [evalCode]. *)
Definition eval_scope (code : string) (variables : Variables) (st : State) : Scope :=
  {| scope_window := (eval_call code variables st).1;
     scope_this := this st;
     scope_heap := heap (env st) |}.

(** [window[randomInt]] when [code.replace] throws in the first round of the
    [forEach]: the first variable is stored. *)
Definition scratch_begun (variables : Variables) : gmap string JsVal :=
  match entries variables with
  | kv :: _ => {[ "_" +:+ kv.1 := kv.2 ]}
  | [] => ∅
  end.

(** [delete window[randomInt]] in the [finally] of [evalCode].  The property
    was created by [Object.defineProperty] with a descriptor that gives no
    [configurable]: it is not configurable, and in the strict code of a
    module [delete] throws on such a property.  This is the error. *)
Definition delete_error (randomInt : string) : string :=
  "TypeError: Cannot delete property '" +:+ randomInt +:+ "' of #<Window>".

(** [evalCode(code, variables)]: the value that is returned, or the error
    that leaves the method, and the state after.  The [finally] runs after the
    [return] of the [try] and after the [throw] of the [catch]; its [delete]
    throws, and this error takes the place of the value and of the error of
    [eval].  The scratch object stays in the global object. *)
Definition evalCode (code : JsVal) (variables : Variables) (st : State)
    : (JsVal + string) * State :=
  let randomInt := pretty (getRandomInt st).1 in
  let st1 := (getRandomInt st).2 in
  match code with
  | JStr code0 =>
      let '(r, scope) := direct_eval R (eval_scope code0 variables st)
                           (eval_call code0 variables st).2 in
      let st2 := write_scope scope st1 in
      match r with
      | inl v => (inr (delete_error randomInt), st2)
      | inr error =>
          (inr (delete_error randomInt),
           emit (EErrorAlert ("An error occurred while executing your Output template: "
                              +:+ error)) st2)
      end
  | _ =>
      (inr "TypeError: code.replace is not a function",
       upd_env (λ en, set_window (<[randomInt := scratch_begun variables]> (window en)) en) st1)
  end.

(** [getQuantity(label)]: the value the promise resolves to, or the reason of
    its rejection. *)
Definition getQuantity (label : option string) (st : State) : Res (JsVal + JsVal) :=
  let quantityType := quantityType (this st) in
  let st1 := emit (EQuantityDialog (label_or label "Enter quantity value") quantityType) st in
  match await st1 with
  | Some (RQuantity q, st2) =>
      match getQuantity_handlers quantityType q with
      | Resolved v => Ret (inl v) st2
      | Rejected reason => Ret (inr reason) st2
      | Unsettled => Exit Pending st2
      end
  | Some (_, st2) => Exit Pending st2
  | None => Exit Pending st1
  end.

(** [showSelectOption(csvSelectOptions)]: the only button resolves. *)
Definition showSelectOption (csvSelectOptions : string) (st : State) : Res JsVal :=
  let st1 := emit (ESelectOptionDialog (JStr csvSelectOptions)) st in
  match await st1 with
  | Some (RSelect data, st2) => Ret data st2
  | Some (_, st2) => Exit Pending st2
  | None => Exit Pending st1
  end.

Definition showPreventInfiniteLoopDialog (st : State) : Res bool :=
  let st1 := emit EInfiniteLoopDialog st in
  match await st1 with
  | Some (RConfirm b, st2) => Ret b st2
  | Some (_, st2) => Exit Pending st2
  | None => Exit Pending st1
  end.

Definition showAddMoreDialog (timeoutSeconds : JsVal) (st : State) : Res bool :=
  let st1 := emit (EAddMoreDialog timeoutSeconds) st in
  match await st1 with
  | Some (RConfirm b, st2) => Ret b st2
  | Some (_, st2) => Exit Pending st2
  | None => Exit Pending st1
  end.

Definition settle_barcode {A} (r : A) (st : State) : Res A :=
  Ret r (upd_this (set_awaitingForBarcode false) st).

(** [getBarcode(label)]: the text the promise resolves to, or the reason of
    its rejection.  In the 'continue' mode the answer is what the subscription
    to the plugin delivers to [lastResolve] / [lastReject]. *)
Definition getBarcode (label : option string) (st : State) : Res (string + JsVal) :=
  let st0 := upd_this (set_awaitingForBarcode true) st in
  match acqusitionMode (this st0) with
  | single | mixed_continue =>
      let st1 := emit (EScannerScan (pluginOptions (this st0))) st0 in
      match await st1 with
      | Some (RScan barcodeScanResult, st2) =>
          match barcodeScanResult with
          | None => settle_barcode (inr (JStr "cancelled")) st2
          | Some r =>
              if BarcodeScanResult.cancelled r
              then settle_barcode (inr (JStr "cancelled")) st2
              else
                (* CODE_39 fix *)
                let text :=
                  if negb (String.eqb (BarcodeScanResult.text r) "")
                     && String.eqb (BarcodeScanResult.format r) "CODE_39"
                     && code32_enabled (barcodeFormats (this st2))
                  then convertCode39ToCode32 H (BarcodeScanResult.text r)
                  else BarcodeScanResult.text r in
                settle_barcode (inl text) st2
          end
      | Some (_, st2) => Exit Pending st2
      | None => Exit Pending st1
      end
  | continue =>
      let st1 :=
        if continuosScanSubscription (this st0) then st0
        else emit (EScannerScan (pluginOptions (this st0)))
               (upd_this (set_continuosScanSubscription true) st0) in
      match await st1 with
      | Some (RScan barcodeScanResult, st2) =>
          let cancel :=
            settle_barcode (inr JUndefined)
              (upd_this (set_continuosScanSubscription false) (emit EUnsubscribe st2)) in
          match barcodeScanResult with
          | None => cancel
          | Some r =>
              if BarcodeScanResult.cancelled r then cancel
              else
                (* CODE_39 fix *)
                let text :=
                  if negb (String.eqb (BarcodeScanResult.text r) "")
                     && String.eqb (BarcodeScanResult.format r) "CODE_39"
                     && code32_enabled (barcodeFormats (this st2))
                  then convertCode39ToCode32 H (BarcodeScanResult.text r)
                  else BarcodeScanResult.text r in
                settle_barcode (inl text) st2
          end
      | Some (_, st2) => Exit Pending st2
      | None => Exit Pending st1
      end
  | manual =>
      let st1 := emit (EKeyboardInput label) st0 in
      match await st1 with
      | Some (RSubmit s, st2) => settle_barcode (inl s) st2
      | Some (_, st2) => Exit Pending st2
      | None => Exit Pending st1
      end
  end.

(** [observer.complete(); return;] *)
Definition complete {A} (st : State) : Res A := Exit Completed (emit EComplete st).

Definition set_block_value (l : loc) (v : JsVal) (st : State) : State :=
  write_heap (write_value l v) st.

(** Case 'if' once the condition is there: the markers, or the whole range,
    are removed from the array, and the index is stepped back ([i--]) so that
    the loop goes on at the place of the 'if'. *)
Definition if_splice (i : nat) (condition : JsVal) (st : State) : Res nat :=
  let a := scan_outputBlocks (pass st) in
  match read_blocks (heap (env st)) a with
  | None => Exit (Threw "TypeError") st
  | Some blocks =>
      let endIfIndex := FindEndIfIndex H blocks (Z.of_nat i + 1) in
      if js_loose_eq H condition (JBool true) then
        (* remove 'if', then 'endif' one place to the left *)
        Ret i (write_heap (splice_array a (endIfIndex - 1) 1)
                 (write_heap (splice_array a (Z.of_nat i) 1) st))
      else
        let count := endIfIndex - Z.of_nat i + 1 in
        Ret i (write_heap (splice_array a (Z.of_nat i) count) st)
  end.

(** The body of the [for] loop for the block [outputBlock], found at index
    [i] through the reference [l]; the result is the index of the next
    iteration. *)
Definition exec_block (i : nat) (l : loc) (outputBlock : OutputBlockModel) (st : State)
    : Res nat :=
  (* Prepare the label for an eventual barcode acqusition *)
  let st := upd_this (λ p, set_pluginOptions
              (BarcodeScannerOptions.set_prompt
                 (label_or (label outputBlock) DEFAULT_ACQUISITION_LABEL)
                 (pluginOptions p)) p) st in
  let date := scan_date (pass st) in
  match type outputBlock with
  | Tkey => Ret (S i) st
  | Ttext => Ret (S i) st
  | Tvariable =>
      let v := value outputBlock in
      if str_is v "deviceName" then
        Ret (S i) (set_block_value l (JStr (deviceName (this st))) st)
      else if str_is v "timestamp" then
        Ret (S i) (set_block_value l (JStr (pretty (date * 1000))) st)
      else if str_is v "date" then
        Ret (S i) (set_block_value l (JStr (toLocaleDateString H date)) st)
      else if str_is v "time" then
        Ret (S i) (set_block_value l (JStr (toLocaleTimeString H date)) st)
      else if str_is v "date_time" then
        Ret (S i) (set_block_value l
                     (JStr (toLocaleTimeString H date +:+ " " +:+ toLocaleDateString H date)) st)
      else if str_is v "scan_session_name" then
        Ret (S i) (set_block_value l (scanSession_name (closure st)) st)
      else if str_is v "quantity" then
        match getQuantity (label outputBlock) st with
        | Ret (inl q) st1 =>
            let st2 := set_block_value l q st1 in
            let st3 := upd_pass (λ p, set_variables (set_quantity q (variables p)) p) st2 in
            Ret (S i) (upd_pass (set_scan_quantity q) st3)
        | Ret (inr err) st1 => complete st1
        | Exit o st1 => Exit o st1
        end
      else Ret (S i) st
  | Tselect_option =>
      let options := supplant_text H (value outputBlock) (variables (pass st)) in
      let st1 := set_block_value l (JStr options) st in
      match showSelectOption options st1 with
      | Ret data st2 => Ret (S i) (set_block_value l data st2)
      | Exit o st2 => Exit o st2
      end
  | Tfunction =>
      match evalCode (value outputBlock) (variables (pass st)) st with
      | (inl v, st1) => Ret (S i) (set_block_value l v st1)
      | (inr error, st1) => Ret (S i) (set_block_value l (JStr "") st1)
      end
  | Tbarcode =>
      match getBarcode (label outputBlock) st with
      | Ret (inl barcode) st1 =>
          if decide (_scanCallId (closure st1) = this_scanCallId (this st1)) then
            let st2 := upd_pass (λ p, set_variables
                         (push_barcodes barcode (set_barcode barcode (variables p))) p) st1 in
            (* no break: the next case is 'delay', which breaks *)
            Ret (S i) (set_block_value l (JStr barcode) st2)
          else complete st1
      | Ret (inr err) st1 => complete st1
      | Exit o st1 => Exit o st1
      end
  | Tdelay => Ret (S i) st
  | Trun | Thttp =>
      Ret (S i) (set_block_value l
                   (JStr (supplant_text H (value outputBlock) (variables (pass st)))) st)
  | Tif =>
      match evalCode (value outputBlock) (variables (pass st)) st with
      | (inr error, st1) => complete st1
      | (inl condition, st1) => if_splice i condition st1
      end
  | Tendif => Ret (S i) st
  end.

(** The [for] loop from index [i] on; [fuel] bounds the number of iterations. *)
Fixpoint run_blocks (fuel : nat) (i : nat) (st : State) : Res unit :=
  match fuel with
  | O => Exit OutOfFuel st
  | S fuel' =>
      match read_array (heap (env st)) (scan_outputBlocks (pass st)) with
      | None => Exit (Threw "TypeError") st
      | Some ls =>
          match ls !! i with
          | None => Ret tt st                      (* i < scan.outputBlocks.length fails *)
          | Some l =>
              match read_block (heap (env st)) l with
              | None => Exit (Threw "TypeError") st
              | Some outputBlock =>
                  match exec_block i l outputBlock st with
                  | Ret i' st' => run_blocks fuel' i' st'
                  | Exit o st' => Exit o st'
                  end
              end
          end
      end
  end.

(** The block the loop works on at index [i], with its reference. *)
Definition block_at (st : State) (i : nat) : option (loc * OutputBlockModel) :=
  ls ← read_array (heap (env st)) (scan_outputBlocks (pass st));
  l ← ls !! i;
  b ← read_block (heap (env st)) l;
  Some (l, b).

(** Where the loop stands after [n] iterations from index [i], when it is
    still running then. *)
Fixpoint iterate (n : nat) (i : nat) (st : State) : option (nat * State) :=
  match n with
  | O => Some (i, st)
  | S n' =>
      match block_at st i with
      | Some (l, outputBlock) =>
          match exec_block i l outputBlock st with
          | Ret i' st' => iterate n' i' st'
          | Exit _ _ => None
          end
      | None => None
      end
  end.

(** The infinite loop detection at the head of [again()]. *)
Definition infinite_loop_guard (st : State) : Res unit :=
  if againCount (closure st) >? 30 then
    match showPreventInfiniteLoopDialog st with
    | Ret wantToContinue st1 => if wantToContinue then Ret tt st1 else complete st1
    | Exit o st1 => Exit o st1
    end
  else Ret tt st.

(** [new ScanModel()], the clone of the output blocks and the variables. *)
Definition start_pass (st : State) : Res unit :=
  let now := clock (env st) in
  match outputProfile (this st) with
  | None => Exit (Threw "TypeError") st
  | Some master =>
      match JSON_clone (heap (env st)) master with
      | None => Exit (Threw "TypeError") st
      | Some (h, a) =>
          Ret tt (upd_pass (λ _,
                    {| variables := {| barcode := ""; barcodes := []; quantity := JNull;
                                       timestamp := now * 1000;
                                       device_name := deviceName (this st) |};
                       scan_id := now; scan_date := now; scan_outputBlocks := a;
                       scan_quantity := JUndefined |})
                    (write_heap (λ _, h) st))
      end
  end.

(** [scan.text]: the values of the barcode blocks, the empty ones left out. *)
Definition scan_text (blocks : list OutputBlockModel) : string :=
  join " "
    (map (js_to_string H)
       (List.filter (λ x, negb (js_loose_eq H x (JStr "")))
          (map (λ outputBlock,
                  if decide (type outputBlock = Tbarcode) then value outputBlock else JStr "")
             blocks))).

(** The end of [again()] after the loop: the scan is completed, the repeat
    counter and its timer are updated and the scan is handed to the observer. *)
Definition finish_pass (st : State) : Res ScanModel.t :=
  match read_blocks (heap (env st)) (scan_outputBlocks (pass st)) with
  | None => Exit (Threw "TypeError") st
  | Some blocks =>
      let displayValue :=
        ScanModel_ToString H
          {| ScanModel.id := scan_id (pass st); ScanModel.repeated := false;
             ScanModel.date := scan_date (pass st); ScanModel.outputBlocks := blocks;
             ScanModel.text := scan_text blocks; ScanModel.displayValue := "";
             ScanModel.quantity := scan_quantity (pass st) |} in
      let scan :=
          {| ScanModel.id := scan_id (pass st); ScanModel.repeated := false;
             ScanModel.date := scan_date (pass st); ScanModel.outputBlocks := blocks;
             ScanModel.text := scan_text blocks; ScanModel.displayValue := displayValue;
             ScanModel.quantity := scan_quantity (pass st) |} in
      (* prevent infinite loops *)
      let st1 :=
        if String.eqb displayValue (prevScanDisplayValue (closure st))
        then upd_closure (λ c, set_againCount (againCount c + 1) c) st
        else st in
      let st2 := upd_closure (set_prevScanDisplayValue displayValue) st1 in
      let st3 := upd_closure (set_resetAgainCountTimer (Some (clock (env st2) + 500))) st2 in
      Ret scan (emit (ENext scan) st3)
  end.

(** [again()]: [passes] bounds the number of runs of the profile, [steps] the
    iterations of the loop of one run. *)
Fixpoint again (passes steps : nat) (st : State) : Outcome * State :=
  match passes with
  | O => (OutOfFuel, st)
  | S passes' =>
      if decide (_scanCallId (closure st) = this_scanCallId (this st)) then
        match infinite_loop_guard st with
        | Exit o st1 => (o, st1)
        | Ret _ st1 =>
        match start_pass st1 with
        | Exit o st2 => (o, st2)
        | Ret _ st2 =>
        match run_blocks steps 0 st2 with
        | Exit o st3 => (o, st3)
        | Ret _ st3 =>
        match finish_pass st3 with
        | Exit o st4 => (o, st4)
        | Ret _ st4 =>
            (* decide how and if repeat the outputBlock *)
            match acqusitionMode (this st4) with
            | continue => again passes' steps st4
            | mixed_continue =>
                match showAddMoreDialog (continueModeTimeout (closure st4)) st4 with
                | Ret addMore st5 =>
                    if addMore then again passes' steps st5
                    else (Completed, emit EComplete st5)
                | Exit o st5 => (o, st5)
                end
            | manual => again passes' steps st4
            | single => (Completed, emit EComplete st4)
            end
        end end end end
      else (Completed, emit EComplete st)
  end.

(** [getOutputProfile(i)] *)
Definition getOutputProfile (profiles : list loc) (i : Z) : option loc :=
  let i := if i >=? Z.of_nat (length profiles) then Z.of_nat (length profiles) - 1 else i in
  if i <? 0 then None else profiles !! Z.to_nat i.

(** [scan(scanMode, outputProfileIndex, scanSession, keyboardInput)], from the
    call to the end of the first [again()] chain.  The settings are taken as
    they are when the call is made. *)
Definition scan (scanMode : ScanMode) (outputProfileIndex : Z) (scanSession_name : JsVal)
    (settings : Settings.t) (passes steps : nat) (st : State) : Outcome * State :=
  let callId := clock (env st) in
  match getOutputProfile (Settings.getOutputProfiles settings) outputProfileIndex with
  | None => (Threw "TypeError", upd_this (set_this_scanCallId callId) st)
  | Some profile =>
      match read_blocks (heap (env st)) profile with
      | None => (Threw "TypeError", upd_this (set_this_scanCallId callId) st)
      | Some blocks =>
          let blockingOutputComponents := HasBlockingOutputComponents H blocks in
          let continueModeTimeout := Settings.getContinueModeTimeout settings in
          let mode :=
            select_acqusitionMode (acqusitionMode (this st)) scanMode
              blockingOutputComponents (platform_is_android H) continueModeTimeout in
          let formats := Settings.getBarcodeFormats settings in
          let pluginOptions :=
            {| BarcodeScannerOptions.showFlipCameraButton := true;
               BarcodeScannerOptions.prompt := DEFAULT_ACQUISITION_LABEL;
               BarcodeScannerOptions.showTorchButton := true;
               BarcodeScannerOptions.preferFrontCamera := Settings.getPreferFrontCamera settings;
               BarcodeScannerOptions.torchOn := Settings.getTorchOn settings;
               BarcodeScannerOptions.continuousMode := bool_decide (mode = continue);
               BarcodeScannerOptions.formats :=
                 if Settings.getEnableLimitBarcodeFormats settings
                 then Some (join "," (map BarcodeFormat.name
                                        (List.filter BarcodeFormat.enabled formats)))
                 else None |} in
          let st1 :=
            {| env := env st;
               this :=
                 {| awaitingForBarcode := awaitingForBarcode (this st);
                    pluginOptions := pluginOptions;
                    acqusitionMode := mode;
                    barcodeFormats := formats;
                    outputProfile := Some profile;
                    deviceName := Settings.getDeviceName settings;
                    quantityType :=
                      match Settings.getQuantityType settings with
                      | Some q => if String.eqb q "" then "number" else q
                      | None => "number"
                      end;
                    this_scanCallId := callId;
                    continuosScanSubscription := continuosScanSubscription (this st) |};
               closure :=
                 {| againCount := 0; prevScanDisplayValue := "";
                    resetAgainCountTimer := None; _scanCallId := callId;
                    continueModeTimeout := continueModeTimeout;
                    scanSession_name := scanSession_name |};
               pass := pass st |} in
          again passes steps st1
      end
  end.

End WithRuntime.
End Engine.

(** ** The earlier draft: [acquireScan] *)

Module Draft.

(** The variables of the draft: no timestamp, no device name. *)
Record Variables := {
  barcode : string;
  barcodes : list string;
  quantity : JsVal;
}.

Definition entries (v : Variables) : list (string * JsVal) :=
  [ ("barcode", JStr (barcode v)); ("barcodes", JArr (barcodes v));
    ("quantity", quantity v) ].

Definition set_quantity (q : JsVal) (v : Variables) : Variables :=
  {| barcode := barcode v; barcodes := barcodes v; quantity := q |}.

(** [pluginContinuousMode] of [acquireScan]. *)
Definition pluginContinuousMode (mode : ScanMode) (quantityEnabled is_android : bool)
    (continueModeTimeout : JsVal) : bool :=
  let pluginContinuousMode := bool_decide (mode = SCAN_MODE_CONTINUE) in
  if quantityEnabled || negb is_android || truthy continueModeTimeout then false
  else pluginContinuousMode.

(** The handlers of the buttons of [showQuantityDialog]. *)
Definition showQuantityDialog_handlers (quantityType : string) (q : QuantityAction) : Settled :=
  match q with
  | QOk data_quantity =>
      if truthy data_quantity then Resolved data_quantity
      else if String.eqb quantityType "number" then Resolved (JStr "1")
      else Unsettled
  | QCancel => Rejected (JStr "cancelled")
  end.

Section WithRuntime.
Context (R : Runtime).
Abbreviation H := (library R).

(** Here the index is a number, written without quotes. *)
Definition scratch_path (randomInt key : string) : string :=
  "window[" +:+ randomInt +:+ "][" +:+ dquote +:+ "_" +:+ key +:+ dquote +:+ "]".

Definition scratch (variables : Variables) : gmap string JsVal :=
  foldl (λ o kv, <["_" +:+ kv.1 := kv.2]> o) ∅ (entries variables).

Definition rewrite_code (randomInt : string) (variables : Variables) (code : string) : string :=
  foldl (λ c kv, replace_all kv.1 (scratch_path randomInt kv.1) c) code (entries variables).

Definition eval_call (code : string) (variables : Variables) (st : State) : Window * string :=
  let randomInt := pretty (Engine.getRandomInt st).1 in
  (<[randomInt := scratch variables]> (window (env st)), rewrite_code randomInt variables code).

Definition eval_scope (code : string) (variables : Variables) (st : State) : Scope :=
  {| scope_window := (eval_call code variables st).1;
     scope_this := this st;
     scope_heap := heap (env st) |}.

Definition scratch_begun (variables : Variables) : gmap string JsVal :=
  match entries variables with
  | kv :: _ => {[ "_" +:+ kv.1 := kv.2 ]}
  | [] => ∅
  end.

(** [evalCode(code, variables)] of the draft: an error of [eval] is logged on
    the console and the empty string is returned; only the [TypeError] of a
    code that is no string is thrown.  The scratch object is a property made
    by assignment, and the [delete] of the [finally] removes it. *)
Definition evalCode (code : JsVal) (variables : Variables) (st : State)
    : (JsVal + string) * State :=
  let randomInt := pretty (Engine.getRandomInt st).1 in
  let st1 := (Engine.getRandomInt st).2 in
  match code with
  | JStr code0 =>
      let '(r, scope) := direct_eval R (eval_scope code0 variables st)
                           (eval_call code0 variables st).2 in
      let st2 := upd_env (λ en, set_window (delete randomInt (window en)) en)
                   (write_scope scope st1) in
      match r with
      | inl v => (inl v, st2)
      | inr error => (inl (JStr ""), st2)
      end
  | _ =>
      (inr "TypeError: code.replace is not a function",
       upd_env (λ en, set_window (<[randomInt := scratch_begun variables]> (window en)) en) st1)
  end.

(** [showQuantityDialog()]; a rejection is thrown by the [await]. *)
Definition showQuantityDialog (st : State) : Res JsVal :=
  let quantityType := quantityType (this st) in
  let st1 := emit (EQuantityDialog "Enter quantity value" quantityType) st in
  match await st1 with
  | Some (RQuantity q, st2) =>
      match showQuantityDialog_handlers quantityType q with
      | Resolved v => Ret v st2
      | Rejected reason => Exit (Threw "cancelled") st2
      | Unsettled => Exit Pending st2
      end
  | Some (_, st2) => Exit Pending st2
  | None => Exit Pending st1
  end.

(** The body of the [for] loop of [acquireScan]; every case goes on with the
    next index. *)
Definition exec_block (i : nat) (l : loc) (outputBlock : OutputBlockModel)
    (variables : Variables) (st : State) : Res Variables :=
  let date := scan_date (pass st) in
  match type outputBlock with
  | Tkey => Ret variables st
  | Ttext => Ret variables st
  | Tvariable =>
      let v := value outputBlock in
      if str_is v "deviceName" then
        Ret variables (Engine.set_block_value l (JStr (deviceName (this st))) st)
      else if str_is v "timestamp" then
        Ret variables (Engine.set_block_value l (JStr (pretty (date * 1000))) st)
      else if str_is v "date" then
        Ret variables (Engine.set_block_value l (JStr (toLocaleDateString H date)) st)
      else if str_is v "time" then
        Ret variables (Engine.set_block_value l (JStr (toLocaleTimeString H date)) st)
      else if str_is v "date_time" then
        Ret variables st          (* the string is built and dropped *)
      else if str_is v "quantity" then
        match showQuantityDialog st with
        | Ret q st1 =>
            Ret (set_quantity q variables)
                (upd_pass (set_scan_quantity q) (Engine.set_block_value l q st1))
        | Exit o st1 => Exit o st1
        end
      else Ret variables st
  | Tfunction =>
      match evalCode (value outputBlock) variables st with
      | (inl v, st1) => Ret variables (Engine.set_block_value l v st1)
      | (inr error, st1) => Exit (Threw error) st1
      end
  | Tbarcode =>
      (* [barcodesStack] is declared nowhere *)
      Exit (Threw "ReferenceError: barcodesStack is not defined") st
  | Tdelay => Ret variables st
  | Tif =>
      match evalCode (value outputBlock) variables st with
      | (inr error, st1) => Exit (Threw error) st1
      | (inl condition, st1) =>
          if decide (condition = JBool false) then
            let a := scan_outputBlocks (pass st1) in
            match read_blocks (heap (env st1)) a with
            | None => Exit (Threw "TypeError") st1
            | Some blocks =>
                let endIfIndex := FindEndIfIndex H blocks (Z.of_nat i + 1) in
                Ret variables (write_heap (splice_array a (Z.of_nat i) endIfIndex) st1)
            end
          else Ret variables st1
      end
  | Tselect_option | Trun | Thttp | Tendif => Ret variables st
  end.

Fixpoint run_blocks (fuel : nat) (i : nat) (variables : Variables) (st : State) : Res unit :=
  match fuel with
  | O => Exit OutOfFuel st
  | S fuel' =>
      match read_array (heap (env st)) (scan_outputBlocks (pass st)) with
      | None => Exit (Threw "TypeError") st
      | Some ls =>
          match ls !! i with
          | None => Ret tt st
          | Some l =>
              match read_block (heap (env st)) l with
              | None => Exit (Threw "TypeError") st
              | Some outputBlock =>
                  match exec_block i l outputBlock variables st with
                  | Ret variables' st' => run_blocks fuel' (S i) variables' st'
                  | Exit o st' => Exit o st'
                  end
              end
          end
      end
  end.

(** [scan.text] of the draft: the empty strings are joined too. *)
Definition scan_text (blocks : list OutputBlockModel) : string :=
  join " "
    (map (λ outputBlock,
            js_to_string H
              (if decide (type outputBlock = Tbarcode) then value outputBlock else JStr ""))
       blocks).

(** The callback of [acquireScan] once the settings are there, for the first
    profile of the settings; the provider holds what the settings gave. *)
Definition acquireScan (steps : nat) (st : State) : Outcome * State :=
  let now := clock (env st) in
  match outputProfile (this st) with
  | None => (Threw "TypeError", st)
  | Some master =>
      match JSON_clone (heap (env st)) master with
      | None => (Threw "TypeError", st)
      | Some (h, a) =>
          let st1 :=
            upd_pass (λ p, {| variables := variables p; scan_id := now; scan_date := now;
                              scan_outputBlocks := a; scan_quantity := JUndefined |})
              (write_heap (λ _, h) st) in
          match run_blocks steps 0 {| barcode := ""; barcodes := []; quantity := JNull |} st1 with
          | Exit o st2 => (o, st2)
          | Ret _ st2 =>
              match read_blocks (heap (env st2)) a with
              | None => (Threw "TypeError", st2)
              | Some blocks =>
                  (Returned,
                   emit (ENext {| ScanModel.id := now; ScanModel.repeated := false;
                                  ScanModel.date := now; ScanModel.outputBlocks := blocks;
                                  ScanModel.text := scan_text blocks;
                                  ScanModel.displayValue := "";
                                  ScanModel.quantity := scan_quantity (pass st2) |}) st2)
              end
          end
      end
  end.

End WithRuntime.
End Draft.

(** ** The inputs of the select alert *)

(** [String.prototype.split(sep)] for a separator of one character: the
    pieces between the separators; a string without one is its only piece,
    the empty string included. *)
Fixpoint split_on (sep : Ascii.ascii) (s : string) : list string :=
  match s with
  | EmptyString => [EmptyString]
  | String c rest =>
      if Ascii.eqb c sep then EmptyString :: split_on sep rest
      else match split_on sep rest with
           | piece :: pieces => String c piece :: pieces
           | [] => [String c EmptyString]
           end
  end.

Definition comma : Ascii.ascii := Ascii.ascii_of_nat 44.

Module AlertInputOptions.
Record t := {
  type : string;
  label : string;
  value : string;
  checked : option bool;   (* [None] when the property is not set *)
}.
End AlertInputOptions.

(** The [inputs] that [showSelectOption] gives to the alert: one radio button
    for each option of the comma separated list, the first one checked. *)
Definition showSelectOption_inputs (csvSelectOptions : string) : list AlertInputOptions.t :=
  let options := split_on comma csvSelectOptions in
  imap (λ optionIndex option,
          {| AlertInputOptions.type := "radio";
             AlertInputOptions.label := option;
             AlertInputOptions.value := option;
             AlertInputOptions.checked :=
               if decide (optionIndex = 0%nat) then Some true else None |})
    options.

(** ** The countdown of the add-more alert *)

(** The values that [timeoutSeconds] takes: the number of the settings,
    [null] or [undefined] when none is stored, and [NaN] once [undefined] is
    decremented. *)
Inductive Seconds :=
| SNum (n : Z)
| SNull
| SUndefined
| SNaN.

(** [!timeoutSeconds] *)
Definition Seconds_not (s : Seconds) : bool :=
  match s with SNum n => n =? 0 | SNull | SUndefined | SNaN => true end.

(** [timeoutSeconds <= 0] *)
Definition Seconds_le0 (s : Seconds) : bool :=
  match s with SNum n => n <=? 0 | SNull => true | SUndefined | SNaN => false end.

(** [timeoutSeconds == 0] *)
Definition Seconds_eq0 (s : Seconds) : bool :=
  match s with SNum n => n =? 0 | SNull | SUndefined | SNaN => false end.

(** [timeoutSeconds--] *)
Definition Seconds_decrement (s : Seconds) : Seconds :=
  match s with
  | SNum n => SNum (n - 1)
  | SNull => SNum (-1)
  | SUndefined | SNaN => SNaN
  end.

(** The alert of [showAddMoreDialog] with its interval and the promise. *)
Module AddMore.
Record t := {
  timeoutSeconds : Seconds;
  interval : bool;               (* the interval is set and not cleared *)
  subTitles : list Seconds;      (* what setSubTitle has shown after 'Timeout: ' *)
  dismissed : bool;              (* alert.dismiss() *)
  promise : option bool;         (* the value the promise is resolved with *)
}.

(** The state in which the executor of the promise leaves. *)
Definition present (timeoutSeconds : Seconds) : t :=
  {| timeoutSeconds := timeoutSeconds; interval := true; subTitles := [];
     dismissed := false; promise := None |}.

(** [resolve(v)]: a promise is settled once. *)
Definition resolve (v : bool) (a : t) : t :=
  {| timeoutSeconds := timeoutSeconds a; interval := interval a; subTitles := subTitles a;
     dismissed := dismissed a;
     promise := match promise a with Some r => Some r | None => Some v end |}.

Definition clearInterval (a : t) : t :=
  {| timeoutSeconds := timeoutSeconds a; interval := false; subTitles := subTitles a;
     dismissed := dismissed a; promise := promise a |}.

Definition setSubTitle (a : t) : t :=
  {| timeoutSeconds := timeoutSeconds a; interval := interval a;
     subTitles := subTitles a ++ [timeoutSeconds a];
     dismissed := dismissed a; promise := promise a |}.

Definition dismiss (a : t) : t :=
  {| timeoutSeconds := timeoutSeconds a; interval := interval a; subTitles := subTitles a;
     dismissed := true; promise := promise a |}.

Definition decrement (a : t) : t :=
  {| timeoutSeconds := Seconds_decrement (timeoutSeconds a); interval := interval a;
     subTitles := subTitles a; dismissed := dismissed a; promise := promise a |}.

(** The handlers of the buttons 'Stop' and 'Continue'. *)
Definition Stop (a : t) : t := resolve false (clearInterval a).
Definition Continue (a : t) : t := resolve true (clearInterval a).

(** The callback of the interval, called every second while the interval is
    set; [expired] is the test of the callback. *)
Definition callback (expired : Seconds → bool) (a : t) : t :=
  if interval a then
    let a1 := setSubTitle a in
    let a2 := if expired (timeoutSeconds a1)
              then resolve true (dismiss (clearInterval a1)) else a1 in
    decrement a2
  else a.

(** [!timeoutSeconds || timeoutSeconds <= 0], the test of the current
    provider, and [timeoutSeconds == 0], the test of the draft. *)
Definition expired (s : Seconds) : bool := Seconds_not s || Seconds_le0 s.
Definition draft_expired (s : Seconds) : bool := Seconds_eq0 s.

Inductive Action := Tick | PressStop | PressContinue.

Definition act (expired : Seconds → bool) (a : t) (x : Action) : t :=
  match x with
  | Tick => callback expired a
  | PressStop => Stop a
  | PressContinue => Continue a
  end.

(** What has happened once the actions [xs] are over, oldest first. *)
Definition run (expired : Seconds → bool) (xs : list Action) (a : t) : t :=
  foldl (act expired) a xs.

(** The number of the tick at which the countdown of the current provider
    expires. *)
Definition ticks_to_expire (s : Seconds) : nat :=
  match s with SNum n => S (Z.to_nat n) | SNull | SUndefined | SNaN => 1%nat end.
End AddMore.

(** ** The profile of the provider *)

Definition set_outputProfile (o : option loc) (p : Provider) : Provider :=
  {| awaitingForBarcode := awaitingForBarcode p; pluginOptions := pluginOptions p;
     acqusitionMode := acqusitionMode p; barcodeFormats := barcodeFormats p;
     outputProfile := o; deviceName := deviceName p;
     quantityType := quantityType p; this_scanCallId := this_scanCallId p;
     continuosScanSubscription := continuosScanSubscription p |}.

(** [updateCurrentOutputProfile()]: the profile of the provider becomes the
    one that the settings hold at [this.outputProfileIndex], the index that
    the last [scan()] was given (the provider of the model does not hold it,
    so that it is an argument here); [undefined] when there is none. *)
Definition updateCurrentOutputProfile (settings : Settings.t) (outputProfileIndex : Z)
    (st : State) : State :=
  upd_this
    (set_outputProfile
       (Engine.getOutputProfile (Settings.getOutputProfiles settings) outputProfileIndex))
    st.

(** ** The page of the archived scan sessions *)

Module ArchivedPage.

(** A scan session is an object; the page compares sessions by reference
    ([x != scanSession]). *)
Abbreviation ScanSessionModel := nat.

(** [new requestModelPutScanSessions().fromObject(...)] *)
Record requestModelPutScanSessions := {
  scanSessions : list ScanSessionModel;
  sendKeystrokes : bool;
  deviceId : string;
}.

(** The calls that the page makes on its collaborators. *)
Inductive Call :=
| setCurrentScreen (name : string)                              (* firebaseAnalytics *)
| getArchivedScanSessions                                       (* scanSessionsStorage *)
| setArchivedScanSessions (sessions : list ScanSessionModel)    (* scanSessionsStorage *)
| updateScanSession (scanSession : ScanSessionModel)            (* scanSessionsStorage *)
| send (request : requestModelPutScanSessions)                  (* serverProvider *)
| showCannotPerformActionOffline.                               (* utils *)

Record t := {
  archivedScanSessions : list ScanSessionModel;
  selectedScanSessions : list ScanSessionModel;
  calls : list Call;                                            (* oldest first *)
}.

Definition set_archivedScanSessions (l : list ScanSessionModel) (p : t) : t :=
  {| archivedScanSessions := l; selectedScanSessions := selectedScanSessions p;
     calls := calls p |}.

Definition call (c : Call) (p : t) : t :=
  {| archivedScanSessions := archivedScanSessions p;
     selectedScanSessions := selectedScanSessions p; calls := calls p ++ [c] |}.

(** [ionViewDidEnter()], with the sessions that the storage answers. *)
Definition ionViewDidEnter (data : list ScanSessionModel) (p : t) : t :=
  set_archivedScanSessions data
    (call getArchivedScanSessions (call (setCurrentScreen "ArchivedPage") p)).

(** [this.archivedScanSessions.filter(x => x != scanSession)] *)
Definition without (scanSession : ScanSessionModel) (l : list ScanSessionModel)
    : list ScanSessionModel :=
  filter (λ x, x ≠ scanSession) l.

(** The handler of 'Delete permanently' of [onScanSessionClick]. *)
Definition Delete_permanently (scanSession : ScanSessionModel) (p : t) : t :=
  let p1 := set_archivedScanSessions (without scanSession (archivedScanSessions p)) p in
  call (setArchivedScanSessions (archivedScanSessions p1)) p1.

(** The handler of 'Restore' of [onScanSessionClick]; [isConnected] is the
    answer of the server provider and [uuid] the id of the device. *)
Definition Restore (isConnected : bool) (uuid : string) (scanSession : ScanSessionModel)
    (p : t) : t :=
  if negb isConnected then call showCannotPerformActionOffline p
  else
    let wsRequest := {| scanSessions := [scanSession]; sendKeystrokes := false;
                        deviceId := uuid |} in
    let p1 := call (send wsRequest) p in
    let p2 := call (updateScanSession scanSession) p1 in
    let p3 := set_archivedScanSessions (without scanSession (archivedScanSessions p2)) p2 in
    call (setArchivedScanSessions (archivedScanSessions p3)) p3.

(** The handler of 'Delete' of the alert of [onDeleteSelectedClick]. *)
Definition Delete (p : t) : t :=
  let p1 := set_archivedScanSessions [] p in
  call (setArchivedScanSessions (archivedScanSessions p1)) p1.

(** What the user does on the page; the 'Cancel' buttons have no handler, or
    an empty one. *)
Inductive Action :=
| PressDeletePermanently (scanSession : ScanSessionModel)
| PressRestore (isConnected : bool) (uuid : string) (scanSession : ScanSessionModel)
| PressDelete
| PressCancel.

Definition act (p : t) (a : Action) : t :=
  match a with
  | PressDeletePermanently s => Delete_permanently s p
  | PressRestore isConnected uuid s => Restore isConnected uuid s p
  | PressDelete => Delete p
  | PressCancel => p
  end.

Definition run (actions : list Action) (p : t) : t := foldl act p actions.

(** The list that the storage was given last, if it was given one. *)
Definition stored (cs : list Call) : option (list ScanSessionModel) :=
  last (omap (λ c, match c with setArchivedScanSessions l => Some l | _ => None end) cs).

(** The sessions that the server was sent. *)
Definition sent (cs : list Call) : list requestModelPutScanSessions :=
  omap (λ c, match c with send r => Some r | _ => None end) cs.

End ArchivedPage.

(** ** The classes of the application that are not in the source tree *)

(** Modelled from the spec: [OutputBlockModel.FindEndIfIndex] is missing from
    the sources.  "Locate the matching EndIf by forward-scanning with
    nesting-depth tracking (increment depth on nested If, decrement on EndIf,
    match found when depth returns to the starting level)".  The spec leaves
    the result open when there is no match; -1 stands for it here. *)
Fixpoint FindEndIfIndex_scan (blocks : list OutputBlockModel) (index : Z) (depth : nat) : Z :=
  match blocks with
  | [] => -1
  | b :: rest =>
      match type b with
      | Tif => FindEndIfIndex_scan rest (index + 1) (S depth)
      | Tendif =>
          match depth with
          | O => index
          | S d => FindEndIfIndex_scan rest (index + 1) d
          end
      | _ => FindEndIfIndex_scan rest (index + 1) depth
      end
  end.

Definition FindEndIfIndex_spec (outputBlocks : list OutputBlockModel) (startFrom : Z) : Z :=
  FindEndIfIndex_scan (drop (Z.to_nat startFrom) outputBlocks) (Z.max startFrom 0) 0.

(** Modelled from the spec: [OutputProfileModel.HasBlockingOutputComponents]
    is missing from the sources.  "has-blocking-component (contains
    SelectOption or quantity-acquiring DeviceVariable blocks)". *)
Definition HasBlockingOutputComponents_spec (blocks : list OutputBlockModel) : bool :=
  existsb (λ b, bool_decide (type b = Tselect_option)
                || (bool_decide (type b = Tvariable) && str_is (value b) "quantity"))
    blocks.

(** Modelled from the spec: [OutputProfileModel.HasQuantityBlocks] is missing
    from the sources.  "has-quantity-component": a quantity-acquiring
    DeviceVariable block is present. *)
Definition HasQuantityBlocks_spec (blocks : list OutputBlockModel) : bool :=
  existsb (λ b, bool_decide (type b = Tvariable) && str_is (value b) "quantity") blocks.

(** ** A small host to run the engine on examples *)

(** ToString of the values of the model, as [join] applies it. *)
Definition to_string_small (v : JsVal) : string :=
  match v with
  | JUndefined | JNull => ""
  | JBool true => "true"
  | JBool false => "false"
  | JNum n => pretty n
  | JStr s => s
  | JArr xs => join "," xs
  end.

(** [==] between values of the same kind, and between [null] and
    [undefined]; the conversions between kinds are not covered. *)
Definition loose_eq_small (a b : JsVal) : bool :=
  match a, b with
  | JUndefined, JUndefined | JUndefined, JNull | JNull, JUndefined | JNull, JNull => true
  | JBool x, JBool y => Bool.eqb x y
  | JNum x, JNum y => x =? y
  | JStr x, JStr y => String.eqb x y
  | _, _ => false
  end.

(** The characters of [s] up to the first double quote, and what follows the
    quote. *)
Fixpoint until_quote (s : string) : option (string * string) :=
  match s with
  | EmptyString => None
  | String c rest =>
      if Ascii.eqb c (Ascii.ascii_of_nat 34) then Some (EmptyString, rest)
      else match until_quote rest with
           | Some (name, rest') => Some (String c name, rest')
           | None => None
           end
  end.

Definition strip_prefix (p s : string) : option string :=
  if is_prefix p s then Some (String.substring (String.length p) (String.length s - String.length p) s)
  else None.

(** The two names of a property path [window[<dq>X<dq>][<dq>Y<dq>]]. *)
Definition parse_path (code : string) : option (string * string) :=
  s1 ← strip_prefix ("window[" +:+ dquote) code;
  '(x, s2) ← until_quote s1;
  s3 ← strip_prefix ("][" +:+ dquote) s2;
  '(y, s4) ← until_quote s3;
  if String.eqb s4 "]" then Some (x, y) else None.

(** The value of a property path of the global object: a missing property
    of an object is [undefined], a property of a missing object is a
    [TypeError]. *)
Definition read_path (w : Window) (code : string) : JsVal + string :=
  match parse_path code with
  | Some (x, y) =>
      match w !! x with
      | Some o => inl (default JUndefined (o !! y))
      | None => inr "TypeError: Cannot read properties of undefined"
      end
  | None => inr "SyntaxError"
  end.

(** [eval] on four kinds of programs: the literals [true] and [false], a
    property path of the global object, and [throw] followed by a property
    path, which throws the value of the path.  Other programs are not covered
    and reported as errors. *)
Definition eval_small (w : Window) (code : string) : JsVal + string :=
  if String.eqb code "true" then inl (JBool true)
  else if String.eqb code "false" then inl (JBool false)
  else match strip_prefix "throw " code with
       | Some thrown =>
           match read_path w thrown with
           | inl v => inr (to_string_small v)
           | inr error => inr error
           end
       | None => read_path w code
       end.

(** The display value as the join of the values of the blocks, and a
    converter that marks the text it has rewritten. *)
Definition small_host : Host :=
  {| js_eval := eval_small;
     js_loose_eq := loose_eq_small;
     js_to_string := to_string_small;
     supplant_text := λ template _, to_string_small template;
     toLocaleDateString := λ t, pretty t;
     toLocaleTimeString := λ t, pretty t;
     platform_is_android := true;
     FindEndIfIndex := FindEndIfIndex_spec;
     HasBlockingOutputComponents := HasBlockingOutputComponents_spec;
     HasQuantityBlocks := HasQuantityBlocks_spec;
     ScanModel_ToString := λ scan,
       join " " (map (λ b, to_string_small (value b)) (ScanModel.outputBlocks scan));
     convertCode39ToCode32 := λ code39, "A" +:+ code39 |}.

(** A program that writes through [this]: it empties the array of the blocks
    of the profile of the provider.  The value of the assignment is 0. *)
Definition empties_the_profile : string := "this.outputProfile.outputBlocks.length = 0".

(** The direct [eval] of the examples: the program above, and the programs
    of [eval_small], which only compute. *)
Definition direct_eval_small (scope : Scope) (code : string) : (JsVal + string) * Scope :=
  if String.eqb code empties_the_profile then
    match outputProfile (scope_this scope) with
    | Some master =>
        (inl (JNum 0),
         {| scope_window := scope_window scope; scope_this := scope_this scope;
            scope_heap := <[master := OArray []]> (scope_heap scope) |})
    | None => (inr "TypeError: Cannot read properties of undefined", scope)
    end
  else (eval_small (scope_window scope) code, scope).

Definition small_runtime : Runtime :=
  {| direct_eval := direct_eval_small; library := small_host |}.

Definition mk_block (t : BlockType) (v : string) : OutputBlockModel :=
  {| type := t; label := None; value := JStr v |}.

(** A heap with one profile: its blocks, then the array that holds them. *)
Definition profile_heap (blocks : list OutputBlockModel) : Heap :=
  map OBlock blocks ++ [OArray (seq 0%nat (length blocks))].

Definition small_options : BarcodeScannerOptions.t :=
  {| BarcodeScannerOptions.showFlipCameraButton := true;
     BarcodeScannerOptions.prompt := DEFAULT_ACQUISITION_LABEL;
     BarcodeScannerOptions.showTorchButton := true;
     BarcodeScannerOptions.preferFrontCamera := false;
     BarcodeScannerOptions.torchOn := false;
     BarcodeScannerOptions.continuousMode := false;
     BarcodeScannerOptions.formats := None |}.

(** The state in which [again()] is called for the first time, for the
    profile [blocks], the mode [mode] and the answers [answers]. *)
Definition small_state (mode : AcquisitionMode) (blocks : list OutputBlockModel)
    (answers : list Answer) (w : Window) : State :=
  {| env := {| heap := profile_heap blocks; clock := 1000; inputs := answers;
               randoms := [7]; window := w; events := [] |};
     this := {| awaitingForBarcode := false; pluginOptions := small_options;
                acqusitionMode := mode;
                barcodeFormats := [ {| BarcodeFormat.name := "CODE_32";
                                       BarcodeFormat.enabled := true |} ];
                outputProfile := Some (length blocks);
                deviceName := "phone"; quantityType := "text";
                this_scanCallId := 1000; continuosScanSubscription := false |};
     closure := {| againCount := 0; prevScanDisplayValue := "";
                   resetAgainCountTimer := None; _scanCallId := 1000;
                   continueModeTimeout := JNum 0; scanSession_name := JStr "session" |};
     pass := {| variables := {| barcode := ""; barcodes := []; quantity := JNull;
                                timestamp := 0; device_name := "" |};
                scan_id := 0; scan_date := 0; scan_outputBlocks := 0%nat;
                scan_quantity := JUndefined |} |}.

Definition answer (r : Reply) : Answer := {| elapsed := 100; rescan := None; reply := r |}.

(** The scans handed to the observer, oldest first. *)
Definition emitted (evs : list Event) : list ScanModel.t :=
  omap (λ e, match e with ENext scan => Some scan | _ => None end) evs.

Definition is_next (e : Event) : bool :=
  match e with ENext _ => true | _ => false end.

(** ** Vocabulary of the statements *)

(** The text of a scanned barcode after the CODE_39 fix, as one function: the
    text is rewritten when it is not empty, the detected format is CODE_39 and
    CODE_32 is among the enabled formats. *)
Definition code39_fixed (H : Host) (barcodeFormats : list BarcodeFormat.t)
    (r : BarcodeScanResult.t) : string :=
  if negb (String.eqb (BarcodeScanResult.text r) "")
     && String.eqb (BarcodeScanResult.format r) "CODE_39"
     && code32_enabled barcodeFormats
  then convertCode39ToCode32 H (BarcodeScanResult.text r)
  else BarcodeScanResult.text r.

(** The call id that the provider holds once the answer [a] has come. *)
Definition token_after (a : Answer) (st : State) : Z :=
  match rescan a with Some callId => callId | None => this_scanCallId (this st) end.

(** The answer settles the promise of [getBarcode] in the given mode. *)
Definition answers_barcode (mode : AcquisitionMode) (r : Reply) : bool :=
  match mode, r with
  | manual, RSubmit _ => true
  | (single | mixed_continue | continue), RScan _ => true
  | _, _ => false
  end.

(** The state a step ends in. *)
Definition state_of {A} (r : Res A) : State :=
  match r with Ret _ st | Exit _ st => st end.

(** The events that [st'] has after those of [st]. *)
Definition events_since (st st' : State) : list Event :=
  drop (length (events (env st))) (events (env st')).

(** The host [H] with another converter. *)
Definition with_converter (convert : string → string) (H : Host) : Host :=
  {| js_eval := js_eval H; js_loose_eq := js_loose_eq H; js_to_string := js_to_string H;
     supplant_text := supplant_text H; toLocaleDateString := toLocaleDateString H;
     toLocaleTimeString := toLocaleTimeString H;
     platform_is_android := platform_is_android H; FindEndIfIndex := FindEndIfIndex H;
     HasBlockingOutputComponents := HasBlockingOutputComponents H;
     HasQuantityBlocks := HasQuantityBlocks H; ScanModel_ToString := ScanModel_ToString H;
     convertCode39ToCode32 := convert |}.

(** [st'] has the events of [st] and then events that are no [ENext]. *)
Definition quiet (st st' : State) : Prop :=
  ∃ evs, events (env st') = events (env st) ++ evs ∧ Forall (λ e, is_next e = false) evs.

(** What holds of the state a step ends in, whether the function goes on or
    is left. *)
Definition after {A} (P : State → Prop) (r : Res A) : Prop :=
  match r with Ret _ st' | Exit _ st' => P st' end.

(** The state in which [evalCode] leaves the provider when the code writes
    nothing: the random index is used up, and the scratch object is in the
    global object under it. *)
Definition scratch_left (vars : Variables) (st : State) : State :=
  upd_env (λ en, set_window (Engine.eval_call "" vars st).1 en) (Engine.getRandomInt st).2.

(** The 'Error' alert of [evalCode] for the error [error]. *)
Definition error_alert (error : string) : Event :=
  EErrorAlert ("An error occurred while executing your Output template: " +:+ error).

(** The alerts that [evalCode] shows for the code [code]: the 'Error' alert
    when [eval] fails on it, and none when [eval] gives a value or when the
    code is no string. *)
Definition eval_alerts (H : Host) (code : JsVal) (vars : Variables) (st : State)
    : list Event :=
  match code with
  | JStr code0 =>
      match js_eval H (Engine.eval_call code0 vars st).1 (Engine.eval_call code0 vars st).2 with
      | inl _ => []
      | inr error => [error_alert error]
      end
  | _ => []
  end.

Definition is_infinite_loop_dialog (e : Event) : bool :=
  match e with EInfiniteLoopDialog => true | _ => false end.

(** The run owns its working copy: the heap [h0] from before the clone is a
    prefix of the heap, and the array of the run and the blocks it refers to
    lie after [h0]. *)
Definition owned (h0 : Heap) (st : State) : Prop :=
  h0 `prefix_of` heap (env st)
  ∧ (length h0 ≤ scan_outputBlocks (pass st))%nat
  ∧ ∀ ls, read_array (heap (env st)) (scan_outputBlocks (pass st)) = Some ls →
          Forall (λ l, (length h0 ≤ l)%nat) ls.

(** The expressions write to no object that exists when they are
    evaluated: the heap from before the evaluation is a prefix of the heap
    after it. *)
Definition writes_no_object (R : Runtime) : Prop :=
  ∀ scope code, scope_heap scope `prefix_of` scope_heap (direct_eval R scope code).2.

(** A property path of the global object, as a program. *)
Definition path (object property : string) : string :=
  "window[" +:+ dquote +:+ object +:+ dquote +:+ "][" +:+ dquote +:+ property
    +:+ dquote +:+ "]".

(** A sequence of blocks in which every 'if' has its 'endif' and every
    'endif' its 'if'. *)
Inductive balanced : list OutputBlockModel → Prop :=
| balanced_nil : balanced []
| balanced_plain b bs :
    type b ≠ Tif → type b ≠ Tendif → balanced bs → balanced (b :: bs)
| balanced_if b inner e bs :
    type b = Tif → type e = Tendif → balanced inner → balanced bs →
    balanced (b :: inner ++ e :: bs).

(** What [scan] needs from [FindEndIfIndex]: started after an 'if', it gives
    the index of the 'endif' that closes it. *)
Definition finds_matching_endif (H : Host) : Prop :=
  ∀ pre ifb body endifb post,
    type endifb = Tendif → balanced body →
    FindEndIfIndex H (pre ++ ifb :: body ++ endifb :: post) (Z.of_nat (length pre) + 1)
    = Z.of_nat (length pre + 1 + length body).


(** The types of the blocks of the working array, in order. *)
Definition types_of (st : State) : option (list BlockType) :=
  (λ bs : list OutputBlockModel, type <$> bs)
    <$> read_blocks (heap (env st)) (scan_outputBlocks (pass st)).

(** [st] has the working array of [st0], with blocks of the same types. *)
Definition same_types (st0 st : State) : Prop := types_of st = types_of st0.

(** The iteration at index [i] from the state [st], when the loop goes on:
    it goes to the next index, with blocks of the same types. *)
Definition to_next_index (i : nat) (st : State) (r : Res nat) : Prop :=
  match r with Ret i' st' => i' = S i ∧ same_types st st' | Exit _ _ => True end.


(** The values of the blocks of each scan. *)
Definition values_of (scans : list ScanModel.t) : list (list JsVal) :=
  (λ scan, value <$> ScanModel.outputBlocks scan) <$> scans.

(** ** Profiles, answers and states of the examples *)

Definition quantity_answer (data : string) : list Answer :=
  [ answer (RQuantity (QOk (JStr data))) ].

(** A CODE_39 result of the scanner. *)
Definition code39 (text : string) : BarcodeScanResult.t :=
  {| BarcodeScanResult.text := text; BarcodeScanResult.format := "CODE_39";
     BarcodeScanResult.cancelled := false |}.

(** An answer during which the user has started a new [scan()]. *)
Definition superseding (r : Reply) : Answer :=
  {| elapsed := 100; rescan := Some 1050; reply := r |}.

(** The quantity prompt is cancelled. *)
Definition cancel_profile : list OutputBlockModel :=
  [mk_block Ttext "L1"; mk_block Tvariable "quantity"; mk_block Tbarcode "BARCODE"].

Definition cancel_begin : State :=
  small_state single cancel_profile [answer (RQuantity QCancel)] ∅.

(** A new [scan()] is started while the barcode is awaited. *)
Definition superseded_profile : list OutputBlockModel :=
  [mk_block Ttext "L1"; mk_block Tbarcode "BARCODE"; mk_block Ttext "L2"].

Definition superseded_begin : State :=
  small_state single superseded_profile [superseding (RScan (Some (code39 "123")))] ∅.

(** The code of the 'function' block is no program. *)
Definition failing_function_profile : list OutputBlockModel :=
  [mk_block Tfunction ")"; mk_block Ttext "L2"].

Definition failing_function_begin : State :=
  small_state single failing_function_profile [] ∅.

(** Three manual entries, 100 ms apart. *)
Definition repeat_profile : list OutputBlockModel := [mk_block Tbarcode "BARCODE"].

Definition repeat_begin : State :=
  small_state manual repeat_profile
    [answer (RSubmit "a"); answer (RSubmit "a"); answer (RSubmit "b")] ∅.


(** A false 'if' inside a true one; the state is that of the run after the
    clone. *)
Definition nested_profile : list OutputBlockModel :=
  [ mk_block Ttext "a"; mk_block Tif "true"; mk_block Ttext "x"; mk_block Tif "false";
    mk_block Ttext "y"; mk_block Tendif "endif"; mk_block Ttext "z";
    mk_block Tendif "endif"; mk_block Ttext "c" ].

Definition nested_begin : State :=
  state_of (Engine.start_pass (small_state single nested_profile [] ∅)).

(** A false 'if' at index 2, its 'endif' at index 4. *)
Definition draft_profile : list OutputBlockModel :=
  [ mk_block Ttext "a"; mk_block Ttext "b"; mk_block Tif "false"; mk_block Ttext "x";
    mk_block Tendif "endif"; mk_block Ttext "c"; mk_block Ttext "d" ].

(** ** Vocabulary of the further statements *)

(** The character [c] is in [s]. *)
Fixpoint has_char (c : Ascii.ascii) (s : string) : bool :=
  match s with
  | EmptyString => false
  | String c' rest => Ascii.eqb c' c || has_char c rest
  end.

(** The pattern occurs in [s]. *)
Fixpoint occurs (pat s : string) : bool :=
  is_prefix pat s || match s with EmptyString => false | String _ rest => occurs pat rest end.

(** The flag [awaitingForBarcode] is up exactly while the promise of
    [getBarcode] is pending. *)
Definition awaiting_while_pending {A} (r : Res A) : Prop :=
  match r with
  | Ret _ st' => awaitingForBarcode (this st') = false
  | Exit o st' => o = Pending ∧ awaitingForBarcode (this st') = true
  end.

(** The options of the calls of [barcodeScanner.scan] among the events. *)
Definition scanner_calls (evs : list Event) : list BarcodeScannerOptions.t :=
  omap (λ e, match e with EScannerScan o => Some o | _ => None end) evs.

(** The plugin reports that the user has left the scanner. *)
Definition is_cancel (r : option BarcodeScanResult.t) : bool :=
  match r with None => true | Some r => BarcodeScanResult.cancelled r end.

(** What a call of [again()] only reads: the fields of the provider that
    [scan()] has set and the variables of the closure that are assigned
    once. *)
Definition setup (st : State) :=
  (acqusitionMode (this st), barcodeFormats (this st), outputProfile (this st),
   deviceName (this st), quantityType (this st),
   _scanCallId (closure st), continueModeTimeout (closure st),
   scanSession_name (closure st)).

(** [st'] differs from [st] in nothing that the run of the profile works
    with: the setup, the variables of the run and the heap are the same. *)
Definition untouched (st st' : State) : Prop :=
  setup st' = setup st ∧ pass st' = pass st ∧ heap (env st') = heap (env st).

(** The variable [barcode] holds the barcode that was acquired last in the
    run, and the empty string before the first one. *)
Definition latest_barcode (v : Variables) : Prop :=
  barcode v = default "" (last (barcodes v)).

(** [st'] belongs to the run of [st]: the setup is the same, the scan has
    the same id and date and the same array of blocks, and the variable
    [barcode] follows [barcodes]. *)
Definition same_run (st st' : State) : Prop :=
  setup st' = setup st
  ∧ scan_id (pass st') = scan_id (pass st)
  ∧ scan_date (pass st') = scan_date (pass st)
  ∧ scan_outputBlocks (pass st') = scan_outputBlocks (pass st)
  ∧ (latest_barcode (variables (pass st)) → latest_barcode (variables (pass st'))).

(** The function is left as the documentation of [scan] says: the observer
    is completed, and that is the last thing the call does, unless the call
    is suspended for ever or an exception leaves it. *)
Definition ends_well (o : Outcome) (st : State) : Prop :=
  match o with
  | Returned => False
  | Completed => last (events (env st)) = Some EComplete
  | Pending | Threw _ | OutOfFuel => True
  end.

Definition exit_ok {A} (r : Res A) : Prop :=
  match r with Exit o st => ends_well o st | Ret _ _ => True end.

(** The step is only left by a promise that is never settled. *)
Definition only_pending {A} (r : Res A) : Prop :=
  match r with Exit o _ => o = Pending | Ret _ _ => True end.

(** One run of the profile inside [again()], from the infinite loop
    detection to [observer.next]. *)
Definition one_pass (H : Host) (steps : nat) (st : State) : Res ScanModel.t :=
  match Engine.infinite_loop_guard st with
  | Exit o st1 => Exit o st1
  | Ret _ st1 =>
      match Engine.start_pass st1 with
      | Exit o st2 => Exit o st2
      | Ret _ st2 =>
          match Engine.run_blocks H steps 0 st2 with
          | Exit o st3 => Exit o st3
          | Ret _ st3 => Engine.finish_pass H st3
          end
      end
  end.

(** The scan is handed over after events that are no [observer.next]. *)
Definition hands_over (st : State) (r : Res ScanModel.t) : Prop :=
  match r with
  | Ret scan st' =>
      ∃ evs, events (env st') = events (env st) ++ evs ++ [ENext scan]
             ∧ Forall (λ e, is_next e = false) evs
  | Exit _ st' => quiet st st'
  end.

(** No new [scan()] is started while the call runs.  The model of a new
    [scan()] records its call id; what the new call stores in the provider
    later (the mode and the settings among it) is outside the model, so that
    what depends on the fields of the provider is stated for a call that is
    not superseded. *)
Definition not_superseded (st : State) : Prop :=
  Forall (λ a, rescan a = None) (inputs (env st)).




(** The exits of the draft: an exception or a promise that is never
    settled (or the fuel of the model). *)
Definition draft_exit {A} (r : Res A) : Prop :=
  match r with Exit o _ => o ≠ Completed ∧ o ≠ Returned | Ret _ _ => True end.

(** [st'] has the events of [st] and then events that satisfy [P]. *)
Definition trace (P : Event → Prop) (st st' : State) : Prop :=
  ∃ evs, events (env st') = events (env st) ++ evs ∧ Forall P evs.

(** What a call of [again()] that starts in the state [st0] can ask of its
    collaborators: the keyboard input in the 'manual' mode only, the plugin in
    the other modes only, the end of the subscription in the 'continue' mode
    only, the add-more alert in the 'mixed_continue' mode only and with the
    timeout of the settings, the quantity alert with the input type of the
    settings. *)
Definition reaches (st0 : State) (e : Event) : Prop :=
  match e with
  | EKeyboardInput _ => acqusitionMode (this st0) = manual
  | EScannerScan _ => acqusitionMode (this st0) ≠ manual
  | EUnsubscribe => acqusitionMode (this st0) = continue
  | EAddMoreDialog timeoutSeconds =>
      acqusitionMode (this st0) = mixed_continue
      ∧ timeoutSeconds = continueModeTimeout (closure st0)
  | EQuantityDialog _ input_type => input_type = quantityType (this st0)
  | ENext _ | EComplete | EErrorAlert _ | EInfiniteLoopDialog | ESelectOptionDialog _ => True
  end.

(** [st] belongs to a call that started in [st0]: the setup is that of
    [st0], and the events since [st0] are events that the call can reach. *)
Definition within (st0 st : State) : Prop :=
  setup st = setup st0 ∧ trace (reaches st0) st0 st.

(** The step with [f] applied to the state it ends in. *)
Definition on_state {A} (f : State → State) (r : Res A) : Res A :=
  match r with Ret a st => Ret a (f st) | Exit o st => Exit o (f st) end.

(** The text that the answer submits through the keyboard input. *)
Definition submitted (a : Answer) : option string :=
  match reply a with RSubmit s => Some s | _ => None end.

(** An entry of the keyboard input that comes at least 500 ms after the
    suspension, with no new [scan()] in between. *)
Definition unhurried_entry (a : Answer) : Prop :=
  is_Some (submitted a) ∧ rescan a = None ∧ 500 ≤ elapsed a.

(** The repeat counter is at most 1, it is 0 when no timer is pending, and a
    pending timer fires within 500 ms. *)
Definition calm (st : State) : Prop :=
  againCount (closure st) ≤ 1
  ∧ match resetAgainCountTimer (closure st) with
    | Some due => due ≤ clock (env st) + 500
    | None => againCount (closure st) = 0
    end.

(** The blocks that need no processing from the app: the loop skips them. *)
Definition inert (t : BlockType) : bool :=
  match t with Tkey | Ttext | Tdelay | Tendif => true | _ => false end.

(** The display value of the scan of a run that starts at the time [now] and
    leaves the blocks [blocks], with no quantity. *)
Definition display_of (H : Host) (now : Z) (blocks : list OutputBlockModel) : string :=
  ScanModel_ToString H
    {| ScanModel.id := now; ScanModel.repeated := false; ScanModel.date := now;
       ScanModel.outputBlocks := blocks; ScanModel.text := Engine.scan_text H blocks;
       ScanModel.displayValue := ""; ScanModel.quantity := JUndefined |}.

(** [st] has the objects of [st0], but for the object at [l]. *)
Definition only_writes (l : loc) (st0 st : State) : Prop :=
  ∀ l', l' ≠ l → heap (env st) !! l' = heap (env st0) !! l'.

(** A block that the loop of the current provider has gone past: it is no
    'if', and a 'function' block holds the empty string. *)
Definition passed (b : OutputBlockModel) : Prop :=
  type b ≠ Tif ∧ (type b = Tfunction → value b = JStr "").

(** The scan has the blocks of [blocks], by their types, and the loop has
    gone past each of them. *)
Definition passed_scan (blocks : list OutputBlockModel) (scan : ScanModel.t) : Prop :=
  type <$> ScanModel.outputBlocks scan = type <$> blocks
  ∧ Forall passed (ScanModel.outputBlocks scan).

(** * Facts *)

(** ** Suspension *)

Lemma await_cons st a rest :
  inputs (env st) = a :: rest → await st = Some (reply a, resume a rest st).
Proof. unfold await. by intros ->. Qed.

Lemma await_nil st : inputs (env st) = [] → await st = None.
Proof. unfold await. by intros ->. Qed.

Lemma fire_timers_this st : this (fire_timers st) = this st.
Proof. unfold fire_timers. by repeat case_match. Qed.

Lemma fire_timers_env st : env (fire_timers st) = env st.
Proof. unfold fire_timers. by repeat case_match. Qed.

Lemma fire_timers_pass st : pass (fire_timers st) = pass st.
Proof. unfold fire_timers. by repeat case_match. Qed.

Lemma resume_barcodeFormats a rest st :
  barcodeFormats (this (resume a rest st)) = barcodeFormats (this st).
Proof.
  unfold resume. destruct (rescan a); simpl; by rewrite fire_timers_this.
Qed.

Lemma resume_quantityType a rest st :
  quantityType (this (resume a rest st)) = quantityType (this st).
Proof.
  unfold resume. destruct (rescan a); simpl; by rewrite fire_timers_this.
Qed.

Lemma resume_pass a rest st : pass (resume a rest st) = pass st.
Proof.
  unfold resume. destruct (rescan a); simpl; by rewrite fire_timers_pass.
Qed.

Lemma resume_heap a rest st : heap (env (resume a rest st)) = heap (env st).
Proof.
  unfold resume. destruct (rescan a); simpl; by rewrite fire_timers_env.
Qed.

(** ** The acquisition mode *)

(** C3. The mode selector: 'manual' gives manual, 'single' gives single,
    'continue' gives the pure continuous mode exactly when there is no blocking
    component, the platform is Android and no timeout is configured, and
    mixed_continue exactly when one of the three fails.  A timeout is
    configured when the setting is a number other than 0: every such timeout
    gives mixed_continue, and a timeout that is 0, null or undefined counts
    as none (the test is the conversion to a boolean, which is false for
    undefined, null, false, 0 and the empty string only).  For the three requested modes the result does not depend on the
    mode the provider had, and the continuous flag of the draft agrees with
    it. *)
Theorem C3_acquisition_mode_selector
    (current current' : AcquisitionMode) (blocking android : bool) (timeout : JsVal) :
  select_acqusitionMode current SCAN_MODE_ENTER_MAUALLY blocking android timeout = manual
  ∧ select_acqusitionMode current SCAN_MODE_SINGLE blocking android timeout = single
  ∧ (select_acqusitionMode current SCAN_MODE_CONTINUE blocking android timeout = continue
     ↔ blocking = false ∧ android = true ∧ truthy timeout = false)
  ∧ (select_acqusitionMode current SCAN_MODE_CONTINUE blocking android timeout = mixed_continue
     ↔ blocking = true ∨ android = false ∨ truthy timeout = true)
  ∧ (∀ scanMode, scanMode ≠ SCAN_MODE_OTHER →
       select_acqusitionMode current scanMode blocking android timeout
       = select_acqusitionMode current' scanMode blocking android timeout)
  ∧ (Draft.pluginContinuousMode SCAN_MODE_CONTINUE blocking android timeout = true
     ↔ select_acqusitionMode current SCAN_MODE_CONTINUE blocking android timeout = continue)
  ∧ truthy (JNum 0) = false ∧ truthy JNull = false ∧ truthy JUndefined = false
  ∧ (∀ n, n ≠ 0 →
       truthy (JNum n) = true
       ∧ select_acqusitionMode current SCAN_MODE_CONTINUE blocking android (JNum n)
         = mixed_continue
       ∧ Draft.pluginContinuousMode SCAN_MODE_CONTINUE blocking android (JNum n) = false)
  ∧ (∀ none, none = JNum 0 ∨ none = JNull ∨ none = JUndefined →
       select_acqusitionMode current SCAN_MODE_CONTINUE false true none = continue
       ∧ select_acqusitionMode current SCAN_MODE_CONTINUE true android none = mixed_continue
       ∧ select_acqusitionMode current SCAN_MODE_CONTINUE blocking false none
         = mixed_continue)
  ∧ (truthy timeout = false
     ↔ timeout = JUndefined ∨ timeout = JNull ∨ timeout = JBool false
       ∨ timeout = JNum 0 ∨ timeout = JStr "").
Proof.
  unfold select_acqusitionMode, Draft.pluginContinuousMode.
  split; [done|]. split; [done|].
  split; [|split; [|split; [|split; [|split; [|split; [|split; [|split; [|split]]]]]]]];
    try done.
  - split.
    + destruct blocking, android, (truthy timeout); done.
    + intros (-> & -> & ->). done.
  - split.
    + destruct blocking, android, (truthy timeout); simpl; intros; try done; auto.
    + intros [-> | [-> | ->]]; [done | by destruct blocking | by destruct blocking, android].
  - intros scanMode Hm. by destruct scanMode.
  - split; destruct blocking, android, (truthy timeout); done.
  - intros n Hn.
    assert (truthy (JNum n) = true) as Ht.
    { simpl. destruct (Z.eqb_spec n 0); [lia|done]. }
    rewrite Ht. split; [done|]. by destruct blocking, android.
  - intros none [-> | [-> | ->]]; simpl; by destruct blocking, android.
  - destruct timeout as [| |[]|n|s|xs]; simpl;
      try destruct (Z.eqb_spec n 0) as [->|?];
      try destruct (String.eqb_spec s "") as [->|?]; simpl;
      (split; intros Hx; [try discriminate; auto 10 | try done; intuition congruence]).
Qed.

(** [scan()] stores the selected mode in the provider, asks the plugin for
    its continuous mode exactly when the mode is 'continue', and starts
    [again()] with it. *)
Lemma scan_selects_mode (H : Host) scanMode index name settings passes steps st
    profile blocks :
  Engine.getOutputProfile (Settings.getOutputProfiles settings) index = Some profile →
  read_blocks (heap (env st)) profile = Some blocks →
  let mode := select_acqusitionMode (acqusitionMode (this st)) scanMode
                (HasBlockingOutputComponents H blocks) (platform_is_android H)
                (Settings.getContinueModeTimeout settings) in
  ∃ st1,
    Engine.scan H scanMode index name settings passes steps st
    = Engine.again H passes steps st1
    ∧ acqusitionMode (this st1) = mode
    ∧ BarcodeScannerOptions.continuousMode (pluginOptions (this st1))
      = bool_decide (mode = continue)
    ∧ _scanCallId (closure st1) = this_scanCallId (this st1)
    ∧ againCount (closure st1) = 0.
Proof.
  intros Hp Hb mode. unfold Engine.scan. rewrite Hp, Hb.
  eexists. split; [reflexivity|]. done.
Qed.

(** ** The quantity prompt *)

(** C10. The quantity prompt.  'Ok' with a non-empty value resolves that
    string; 'Ok' with an empty value resolves '1' when the quantity type is
    'number' and leaves the promise pending otherwise; 'Cancel' rejects with
    'cancelled'.  The handlers of the draft are the same, and its [await]
    throws the rejection. *)
Theorem C10_quantity_prompt (label : option string) (st : State)
    (a : Answer) (rest : list Answer) :
  inputs (env st) = a :: rest →
  let st1 := emit (EQuantityDialog (label_or label "Enter quantity value")
                     (quantityType (this st))) st in
  let st1' := emit (EQuantityDialog "Enter quantity value" (quantityType (this st))) st in
  (∀ s, s ≠ "" → reply a = RQuantity (QOk (JStr s)) →
     Engine.getQuantity label st = Ret (inl (JStr s)) (resume a rest st1)
     ∧ Draft.showQuantityDialog st = Ret (JStr s) (resume a rest st1'))
  ∧ (reply a = RQuantity (QOk (JStr "")) → quantityType (this st) = "number" →
     Engine.getQuantity label st = Ret (inl (JStr "1")) (resume a rest st1)
     ∧ Draft.showQuantityDialog st = Ret (JStr "1") (resume a rest st1'))
  ∧ (reply a = RQuantity (QOk (JStr "")) → quantityType (this st) ≠ "number" →
     Engine.getQuantity label st = Exit Pending (resume a rest st1)
     ∧ Draft.showQuantityDialog st = Exit Pending (resume a rest st1'))
  ∧ (reply a = RQuantity QCancel →
     Engine.getQuantity label st = Ret (inr (JStr "cancelled")) (resume a rest st1)
     ∧ Draft.showQuantityDialog st = Exit (Threw "cancelled") (resume a rest st1')).
Proof.
  intros Hin st1 st1'.
  assert (Haw : await st1 = Some (reply a, resume a rest st1)) by by apply await_cons.
  assert (Haw' : await st1' = Some (reply a, resume a rest st1')) by by apply await_cons.
  unfold Engine.getQuantity, Draft.showQuantityDialog.
  fold st1 st1'. rewrite Haw, Haw'.
  split; [|split; [|split]].
  - intros s Hs ->. simpl. destruct (String.eqb_spec s ""); done.
  - intros -> ->. done.
  - intros -> Hq. simpl.
    destruct (String.eqb_spec (quantityType (this st)) "number"); done.
  - intros ->. done.
Qed.

Lemma C10_quantity_prompt_witness :
  ∃ st', Engine.getQuantity None
           (small_state single [mk_block Tvariable "quantity"] (quantity_answer "") ∅)
         = Exit Pending st'.
Proof.
  destruct (C10_quantity_prompt None
              (small_state single [mk_block Tvariable "quantity"] (quantity_answer "") ∅)
              (answer (RQuantity (QOk (JStr "")))) [] eq_refl) as (_ & _ & Hpending & _).
  eexists. apply Hpending; [reflexivity | discriminate].
Defined.

(** ** The CODE_39 fix *)

(** C6, as amended.  In the three modes that read the scanner ('single',
    'mixed_continue' and the subscription of 'continue') a barcode that is not
    cancelled resolves to the same text: the converted text when the text is
    not empty, the detected format is CODE_39 and CODE_32 is enabled, and the
    text as it is otherwise. *)
Theorem C6_code39_fix_same_in_all_paths (H : Host) (label : option string) (st : State)
    (a : Answer) (rest : list Answer) (r : BarcodeScanResult.t) :
  inputs (env st) = a :: rest →
  reply a = RScan (Some r) →
  BarcodeScanResult.cancelled r = false →
  acqusitionMode (this st) ≠ manual →
  ∃ st', Engine.getBarcode H label st
         = Ret (inl (code39_fixed H (barcodeFormats (this st)) r)) st'.
Proof.
  intros Hin Hr Hc Hm. unfold Engine.getBarcode, code39_fixed.
  destruct (acqusitionMode (this st)) eqn:Hmode; simpl; rewrite ?Hmode; try done.
  - erewrite await_cons by (simpl; exact Hin). rewrite Hr, Hc.
    rewrite resume_barcodeFormats. simpl. eauto.
  - erewrite await_cons by (simpl; exact Hin). rewrite Hr, Hc.
    rewrite resume_barcodeFormats. simpl. eauto.
  - destruct (continuosScanSubscription (this st)).
    + erewrite await_cons by (simpl; exact Hin). rewrite Hr, Hc.
      rewrite resume_barcodeFormats. simpl. eauto.
    + erewrite await_cons by (simpl; exact Hin). rewrite Hr, Hc.
      rewrite resume_barcodeFormats. simpl. eauto.
Qed.

Lemma C6_code39_fix_witness :
  ∃ st', Engine.getBarcode small_host None
           (small_state continue [mk_block Tbarcode "BARCODE"]
              [answer (RScan (Some (code39 "XYZ")))] ∅)
         = Ret (inl "AXYZ") st'.
Proof.
  apply (C6_code39_fix_same_in_all_paths small_host None
           (small_state continue [mk_block Tbarcode "BARCODE"]
              [answer (RScan (Some (code39 "XYZ")))] ∅)
           (answer (RScan (Some (code39 "XYZ")))) [] (code39 "XYZ"));
    [reflexivity | reflexivity | reflexivity | discriminate].
Defined.

(** C6, as stated, fails: a CODE_39 result with an empty text is not rewritten
    although CODE_32 is enabled.  Whatever the converter is, it is not applied:
    the promise resolves to the empty text, which differs from the converted
    text for every converter that does not map the empty text to itself (as
    the one of the small host). *)
Lemma C6_empty_text_not_rewritten :
  let r := code39 "" in
  let st := small_state single [mk_block Tbarcode "BARCODE"] [answer (RScan (Some r))] ∅ in
  BarcodeScanResult.format r = "CODE_39"
  ∧ code32_enabled (barcodeFormats (this st)) = true
  ∧ (∀ convert, ∃ st',
       Engine.getBarcode (with_converter convert small_host) None st = Ret (inl "") st')
  ∧ convertCode39ToCode32 small_host (BarcodeScanResult.text r) ≠ "".
Proof.
  split; [reflexivity|]. split; [reflexivity|]. split; [|discriminate].
  intros convert. eexists. vm_compute. reflexivity.
Qed.

(** ** The loop, one iteration at a time *)

Lemma run_blocks_step (H : Host) fuel i st l b :
  Engine.block_at st i = Some (l, b) →
  Engine.run_blocks H (S fuel) i st
  = match Engine.exec_block H i l b st with
    | Ret i' st' => Engine.run_blocks H fuel i' st'
    | Exit o st' => Exit o st'
    end.
Proof.
  unfold Engine.block_at. simpl.
  destruct (read_array _ _) as [ls|]; simpl; [|done].
  destruct (ls !! i) as [l'|]; simpl; [|done].
  destruct (read_block _ l') as [b'|]; simpl; [|done].
  by intros [= -> ->].
Qed.

Lemma run_blocks_end (H : Host) fuel i st ls :
  read_array (heap (env st)) (scan_outputBlocks (pass st)) = Some ls →
  ls !! i = None →
  Engine.run_blocks H (S fuel) i st = Ret () st.
Proof. simpl. by intros -> ->. Qed.

Lemma iterate_run (H : Host) n : ∀ fuel i st i' st',
  Engine.iterate H n i st = Some (i', st') →
  Engine.run_blocks H (n + fuel) i st = Engine.run_blocks H fuel i' st'.
Proof.
  induction n as [|n IH]; intros fuel i st i' st' Hit; simpl in Hit.
  - by simplify_eq.
  - destruct (Engine.block_at st i) as [[l b]|] eqn:Hb; [|done].
    replace (S n + fuel)%nat with (S (n + fuel)) by lia.
    rewrite (run_blocks_step H _ _ _ _ _ Hb).
    destruct (Engine.exec_block H i l b st) as [i1 st1|]; [|done].
    by apply IH.
Qed.

(** ** The loop hands no scan to the observer *)

Lemma quiet_refl st : quiet st st.
Proof. exists []. by rewrite app_nil_r. Qed.

Lemma quiet_trans st1 st2 st3 : quiet st1 st2 → quiet st2 st3 → quiet st1 st3.
Proof.
  intros (e1 & H1 & F1) (e2 & H2 & F2). exists (e1 ++ e2). split.
  - by rewrite H2, H1, app_assoc.
  - by apply Forall_app.
Qed.

Lemma quiet_same st st' : events (env st') = events (env st) → quiet st st'.
Proof. intros E. exists []. by rewrite E, app_nil_r. Qed.

Lemma quiet_emit e st0 st : is_next e = false → quiet st0 st → quiet st0 (emit e st).
Proof.
  intros He Hq. eapply quiet_trans; [exact Hq|]. exists [e]. split; [done|].
  by constructor.
Qed.

Lemma quiet_upd_this f st0 st : quiet st0 st → quiet st0 (upd_this f st).
Proof. intros Hq. eapply quiet_trans; [exact Hq|]. by apply quiet_same. Qed.

Lemma quiet_upd_closure f st0 st : quiet st0 st → quiet st0 (upd_closure f st).
Proof. intros Hq. eapply quiet_trans; [exact Hq|]. by apply quiet_same. Qed.

Lemma quiet_upd_pass f st0 st : quiet st0 st → quiet st0 (upd_pass f st).
Proof. intros Hq. eapply quiet_trans; [exact Hq|]. by apply quiet_same. Qed.

Lemma quiet_write_heap f st0 st : quiet st0 st → quiet st0 (write_heap f st).
Proof. intros Hq. eapply quiet_trans; [exact Hq|]. by apply quiet_same. Qed.

Lemma quiet_set_block_value l v st0 st :
  quiet st0 st → quiet st0 (Engine.set_block_value l v st).
Proof. apply quiet_write_heap. Qed.

Lemma quiet_fire_timers st0 st : quiet st0 st → quiet st0 (fire_timers st).
Proof.
  intros Hq. eapply quiet_trans; [exact Hq|]. apply quiet_same.
  by rewrite fire_timers_env.
Qed.

Lemma quiet_resume a rest st0 st : quiet st0 st → quiet st0 (resume a rest st).
Proof.
  intros Hq. unfold resume, new_scan_call.
  destruct (rescan a).
  - apply quiet_upd_this, quiet_emit; [done|].
    apply quiet_fire_timers. eapply quiet_trans; [exact Hq|]. by apply quiet_same.
  - apply quiet_fire_timers. eapply quiet_trans; [exact Hq|]. by apply quiet_same.
Qed.

Lemma quiet_getRandomInt st0 st : quiet st0 st → quiet st0 (Engine.getRandomInt st).2.
Proof.
  intros Hq. eapply quiet_trans; [exact Hq|]. by apply quiet_same.
Qed.

Ltac quiet_step :=
  first
    [ assumption
    | apply quiet_refl
    | apply quiet_emit; [reflexivity|]
    | apply quiet_upd_this
    | apply quiet_upd_closure
    | apply quiet_upd_pass
    | apply quiet_set_block_value
    | apply quiet_write_heap
    | apply quiet_resume
    | apply quiet_getRandomInt ].

Ltac solve_quiet := repeat quiet_step.

Lemma getQuantity_quiet label st0 st :
  quiet st0 st → after (quiet st0) (Engine.getQuantity label st).
Proof.
  intros Hq. unfold Engine.getQuantity, await. simpl.
  repeat case_match; simplify_eq/=; solve_quiet.
Qed.

Lemma showSelectOption_quiet csv st0 st :
  quiet st0 st → after (quiet st0) (Engine.showSelectOption csv st).
Proof.
  intros Hq. unfold Engine.showSelectOption, await. simpl.
  repeat case_match; simplify_eq/=; solve_quiet.
Qed.

Lemma showPreventInfiniteLoopDialog_quiet st0 st :
  quiet st0 st → after (quiet st0) (Engine.showPreventInfiniteLoopDialog st).
Proof.
  intros Hq. unfold Engine.showPreventInfiniteLoopDialog, await. simpl.
  repeat case_match; simplify_eq/=; solve_quiet.
Qed.

Lemma showAddMoreDialog_quiet t st0 st :
  quiet st0 st → after (quiet st0) (Engine.showAddMoreDialog t st).
Proof.
  intros Hq. unfold Engine.showAddMoreDialog, await. simpl.
  repeat case_match; simplify_eq/=; solve_quiet.
Qed.

Lemma getBarcode_quiet (H : Host) label st0 st :
  quiet st0 st → after (quiet st0) (Engine.getBarcode H label st).
Proof.
  intros Hq. unfold Engine.getBarcode, Engine.settle_barcode, await. simpl.
  repeat case_match; simplify_eq/=; solve_quiet.
Qed.

Lemma evalCode_quiet (H : Host) code vars st0 st :
  quiet st0 st → quiet st0 (Engine.evalCode H code vars st).2.
Proof.
  intros Hq. unfold Engine.evalCode.
  repeat case_match; simplify_eq/=; solve_quiet.
Qed.

Lemma exec_block_quiet (H : Host) i l b st0 st :
  quiet st0 st → after (quiet st0) (Engine.exec_block H i l b st).
Proof.
  intros Hq. unfold Engine.exec_block, Engine.if_splice, Engine.complete.
  destruct (type b); simpl; try solve [solve_quiet].
  - repeat (case_match; simpl; try solve [solve_quiet]).
    all: match goal with
         | E : Engine.getQuantity ?l ?s = _ |- _ =>
             pose proof (getQuantity_quiet l st0 s ltac:(solve_quiet)) as Hg;
             rewrite E in Hg; simpl in Hg
         end; solve_quiet.
  - match goal with
    | |- context [Engine.showSelectOption ?c ?s] =>
        pose proof (showSelectOption_quiet c st0 s ltac:(solve_quiet)) as Hg;
        destruct (Engine.showSelectOption c s); simpl in *; solve_quiet
    end.
  - match goal with
    | |- context [Engine.evalCode _ ?c ?v ?s] =>
        pose proof (evalCode_quiet H c v st0 s ltac:(solve_quiet)) as Hg;
        destruct (Engine.evalCode H c v s) as [[?|?] ?]; simpl in *; solve_quiet
    end.
  - match goal with
    | |- context [Engine.getBarcode _ ?l ?s] =>
        pose proof (getBarcode_quiet H l st0 s ltac:(solve_quiet)) as Hg;
        destruct (Engine.getBarcode H l s) as [[?|?] ?|]; simpl in *;
        repeat case_match; simpl; solve_quiet
    end.
  - match goal with
    | |- context [Engine.evalCode _ ?c ?v ?s] =>
        pose proof (evalCode_quiet H c v st0 s ltac:(solve_quiet)) as Hg;
        destruct (Engine.evalCode H c v s) as [[?|?] ?]; simpl in *;
        repeat case_match; simpl; solve_quiet
    end.
Qed.

Lemma run_blocks_quiet (H : Host) fuel : ∀ i st0 st,
  quiet st0 st → after (quiet st0) (Engine.run_blocks H fuel i st).
Proof.
  induction fuel as [|fuel IH]; intros i st0 st Hq; simpl; [done|].
  repeat case_match; simpl; try done.
  - match goal with
    | E : Engine.exec_block _ ?i ?l ?b ?s = _ |- _ =>
        pose proof (exec_block_quiet H i l b st0 s Hq) as Hg; rewrite E in Hg
    end.
    by apply IH.
  - match goal with
    | E : Engine.exec_block _ ?i ?l ?b ?s = _ |- _ =>
        pose proof (exec_block_quiet H i l b st0 s Hq) as Hg; by rewrite E in Hg
    end.
Qed.

Lemma emitted_app evs1 evs2 : emitted (evs1 ++ evs2) = emitted evs1 ++ emitted evs2.
Proof. unfold emitted. apply omap_app. Qed.

Lemma emitted_quiet_events evs : Forall (λ e, is_next e = false) evs → emitted evs = [].
Proof.
  induction 1 as [|e evs He _ IH]; [done|].
  destruct e; try done; exact IH.
Qed.

Lemma emitted_quiet st st' : quiet st st' → emitted (events_since st st') = [].
Proof.
  intros (evs & E & F). unfold events_since. rewrite E, drop_app_length.
  by apply emitted_quiet_events.
Qed.

Lemma infinite_loop_guard_quiet st0 st :
  quiet st0 st → after (quiet st0) (Engine.infinite_loop_guard st).
Proof.
  intros Hq. unfold Engine.infinite_loop_guard, Engine.complete.
  case_match; simpl; [|done].
  pose proof (showPreventInfiniteLoopDialog_quiet st0 st Hq) as Hg.
  destruct (Engine.showPreventInfiniteLoopDialog st) as [[] ?|]; simpl in *; solve_quiet.
Qed.

Lemma start_pass_quiet st0 st : quiet st0 st → after (quiet st0) (Engine.start_pass st).
Proof.
  intros Hq. unfold Engine.start_pass. repeat case_match; simpl; solve_quiet.
Qed.

(** A run of the profile that leaves [again()] inside the loop: the call of
    [again()] ends there, with nothing handed to the observer. *)
Lemma again_pass_exit (H : Host) passes steps st stg st0 o st' :
  _scanCallId (closure st) = this_scanCallId (this st) →
  Engine.infinite_loop_guard st = Ret () stg →
  Engine.start_pass stg = Ret () st0 →
  Engine.run_blocks H steps 0 st0 = Exit o st' →
  Engine.again H (S passes) steps st = (o, st')
  ∧ emitted (events_since st st') = [].
Proof.
  intros Hid Hg Hs Hr. split.
  - simpl. rewrite decide_True by done. by rewrite Hg, Hs, Hr.
  - apply emitted_quiet.
    pose proof (infinite_loop_guard_quiet st st (quiet_refl st)) as Q1.
    rewrite Hg in Q1. simpl in Q1.
    pose proof (start_pass_quiet st stg Q1) as Q2. rewrite Hs in Q2. simpl in Q2.
    pose proof (run_blocks_quiet H steps 0 st st0 Q2) as Q3. by rewrite Hr in Q3.
Qed.

(** ** Cancelling the quantity prompt *)

(** C7. When a run of the profile reaches a quantity block and the user
    cancels the prompt, the promise is rejected with 'cancelled', the call of
    [again()] completes the observer and returns: the observer got no scan
    from this run, [complete] is the last call on it, and nothing is done
    after the prompt (the heap, the variables of the run and the answers that
    are left are as they were when the prompt was answered). *)
Theorem C7_quantity_cancel_aborts (H : Host) (passes n fuel : nat)
    (st_begin stg st0 st : State) (i : nat) (l : loc) (b : OutputBlockModel)
    (a : Answer) (rest : list Answer) :
  _scanCallId (closure st_begin) = this_scanCallId (this st_begin) →
  Engine.infinite_loop_guard st_begin = Ret () stg →
  Engine.start_pass stg = Ret () st0 →
  Engine.iterate H n 0 st0 = Some (i, st) →
  Engine.block_at st i = Some (l, b) →
  type b = Tvariable →
  value b = JStr "quantity" →
  inputs (env st) = a :: rest →
  reply a = RQuantity QCancel →
  ∃ st',
    Engine.again H (S passes) (n + S fuel) st_begin = (Completed, st')
    ∧ getQuantity_handlers (quantityType (this st)) QCancel = Rejected (JStr "cancelled")
    ∧ emitted (events_since st_begin st') = []
    ∧ events (env st')
      = events (env st)
        ++ [EQuantityDialog (label_or (label b) "Enter quantity value") (quantityType (this st))]
        ++ match rescan a with Some _ => [EComplete] | None => [] end ++ [EComplete]
    ∧ heap (env st') = heap (env st)
    ∧ pass st' = pass st
    ∧ inputs (env st') = rest.
Proof.
  intros Hid Hg Hs Hit Hb Ht Hv Hin Hr.
  pose proof (iterate_run H n (S fuel) 0 st0 i st Hit) as Hrun.
  rewrite (run_blocks_step H _ _ _ _ _ Hb) in Hrun.
  unfold Engine.exec_block in Hrun. rewrite Ht, Hv in Hrun. simpl in Hrun.
  unfold Engine.getQuantity in Hrun.
  erewrite await_cons in Hrun by (simpl; exact Hin).
  rewrite Hr in Hrun. simpl in Hrun.
  eexists. split; [|split; [done|split]].
  - eapply again_pass_exit; eauto.
  - eapply again_pass_exit; eauto.
  - unfold Engine.complete, resume, new_scan_call. simpl.
    destruct (rescan a); simpl; rewrite ?fire_timers_env, ?fire_timers_pass; simpl;
      rewrite <- ?app_assoc; done.
Qed.

Lemma C7_quantity_cancel_witness :
  ∃ st', Engine.again small_host 1 2 cancel_begin = (Completed, st')
         ∧ emitted (events_since cancel_begin st') = [].
Proof.
  edestruct (C7_quantity_cancel_aborts small_host 0 1 0 cancel_begin cancel_begin
               (state_of (Engine.start_pass cancel_begin)))
    as (st' & Hagain & _ & Hnone & _).
  - reflexivity.
  - reflexivity.
  - reflexivity.
  - vm_compute. reflexivity.
  - vm_compute. reflexivity.
  - reflexivity.
  - reflexivity.
  - vm_compute. reflexivity.
  - reflexivity.
  - exists st'. split; [exact Hagain | exact Hnone].
Defined.

(** ** Superseded runs *)

Lemma fire_timers_scanCallId st :
  _scanCallId (closure (fire_timers st)) = _scanCallId (closure st).
Proof. unfold fire_timers. by repeat case_match. Qed.

Lemma resume_scanCallId a rest st :
  _scanCallId (closure (resume a rest st)) = _scanCallId (closure st).
Proof.
  unfold resume. destruct (rescan a); simpl; by rewrite fire_timers_scanCallId.
Qed.

Lemma resume_this_scanCallId a rest st :
  this_scanCallId (this (resume a rest st)) = token_after a st.
Proof.
  unfold resume, token_after. destruct (rescan a); simpl; [done|].
  by rewrite fire_timers_this.
Qed.

Lemma resume_acqusitionMode a rest st :
  acqusitionMode (this (resume a rest st)) = acqusitionMode (this st).
Proof.
  unfold resume. destruct (rescan a); simpl; by rewrite fire_timers_this.
Qed.

Lemma resume_inputs a rest st : inputs (env (resume a rest st)) = rest.
Proof.
  unfold resume. destruct (rescan a); simpl; by rewrite fire_timers_env.
Qed.

(** The check at the head of [again()]: a superseded call completes the
    observer and does nothing else. *)
Lemma again_superseded_at_head (H : Host) passes steps st :
  _scanCallId (closure st) ≠ this_scanCallId (this st) →
  Engine.again H (S passes) steps st = (Completed, emit EComplete st).
Proof. intros Hne. simpl. by rewrite decide_False. Qed.

Lemma again_superseded_witness :
  let st := upd_this (set_this_scanCallId 2000) superseded_begin in
  Engine.again small_host 1 5 st = (Completed, emit EComplete st).
Proof.
  apply (again_superseded_at_head small_host 0 5
           (upd_this (set_this_scanCallId 2000) superseded_begin)).
  vm_compute. discriminate.
Defined.

(** The barcode block when the call id has changed by the time the barcode
    comes. *)
Lemma exec_block_barcode_superseded (H : Host) i l b st a rest :
  type b = Tbarcode →
  inputs (env st) = a :: rest →
  token_after a st ≠ _scanCallId (closure st) →
  answers_barcode (acqusitionMode (this st)) (reply a) = true →
  ∃ st', Engine.exec_block H i l b st = Exit Completed st'
         ∧ heap (env st') = heap (env st)
         ∧ pass st' = pass st
         ∧ inputs (env st') = rest.
Proof.
  intros Ht Hin Hne Hans. unfold token_after in Hne.
  assert (Hfin : ∀ st1 : State,
             heap (env st1) = heap (env st) → pass st1 = pass st →
             inputs (env st1) = a :: rest →
             this_scanCallId (this st1) = this_scanCallId (this st) →
             _scanCallId (closure st1) = _scanCallId (closure st) →
             let st2 := resume a rest st1 in
             heap (env st2) = heap (env st) ∧ pass st2 = pass st ∧ inputs (env st2) = rest
             ∧ _scanCallId (closure st2) ≠ this_scanCallId (this st2)).
  { intros st1 E1 E2 E3 E4 E5 st2. subst st2.
    rewrite resume_heap, resume_pass, resume_inputs, resume_scanCallId,
      resume_this_scanCallId.
    unfold token_after. rewrite E4, E5. done. }
  unfold Engine.exec_block. rewrite Ht. simpl.
  unfold Engine.getBarcode. simpl.
  destruct (acqusitionMode (this st)) eqn:Hmode; destruct (reply a) eqn:Hr; try done; simpl;
    try destruct (continuosScanSubscription (this st));
    (erewrite await_cons by (simpl; exact Hin));
    rewrite Hr;
    match goal with
    | |- context [resume a rest ?s] =>
        destruct (Hfin s) as (F1 & F2 & F3 & F4); try done
    end;
    try (destruct r as [r|]; [destruct (BarcodeScanResult.cancelled r)|]);
    unfold Engine.settle_barcode, Engine.complete; simpl;
    rewrite ?decide_False by done;
    (eexists; split; [reflexivity|]; simpl; done).
Qed.

(** C4, as amended.  A run that is suspended on a barcode and finds, when the
    barcode comes (or the acquisition is cancelled), that the call id of the
    provider is no longer its own, completes the observer and returns: the
    observer gets no scan from this run, and the heap, the variables of the
    run and the remaining answers are as they were.  The call id is checked
    here and at the head of every [again()] ([again_superseded_at_head]); the
    quantity, select-option and infinite-loop prompts resume without a
    check. *)
Theorem C4_superseded_barcode_run_ends (H : Host) (passes n fuel : nat)
    (st_begin stg st0 st : State) (i : nat) (l : loc) (b : OutputBlockModel)
    (a : Answer) (rest : list Answer) :
  _scanCallId (closure st_begin) = this_scanCallId (this st_begin) →
  Engine.infinite_loop_guard st_begin = Ret () stg →
  Engine.start_pass stg = Ret () st0 →
  Engine.iterate H n 0 st0 = Some (i, st) →
  Engine.block_at st i = Some (l, b) →
  type b = Tbarcode →
  inputs (env st) = a :: rest →
  token_after a st ≠ _scanCallId (closure st) →
  answers_barcode (acqusitionMode (this st)) (reply a) = true →
  ∃ st',
    Engine.again H (S passes) (n + S fuel) st_begin = (Completed, st')
    ∧ emitted (events_since st_begin st') = []
    ∧ variables (pass st') = variables (pass st)
    ∧ heap (env st') = heap (env st)
    ∧ inputs (env st') = rest.
Proof.
  intros Hid Hg Hs Hit Hb Ht Hin Hne Hans.
  destruct (exec_block_barcode_superseded H i l b st a rest Ht Hin Hne Hans)
    as (st' & Hexec & Hheap & Hpass & Hrest).
  pose proof (iterate_run H n (S fuel) 0 st0 i st Hit) as Hrun.
  rewrite (run_blocks_step H _ _ _ _ _ Hb), Hexec in Hrun.
  exists st'.
  destruct (again_pass_exit H passes (n + S fuel) st_begin stg st0 Completed st'
              Hid Hg Hs Hrun) as [Hagain Hnone].
  by rewrite Hpass.
Qed.

Lemma C4_superseded_barcode_witness :
  ∃ st', Engine.again small_host 1 2 superseded_begin = (Completed, st')
         ∧ emitted (events_since superseded_begin st') = [].
Proof.
  edestruct (C4_superseded_barcode_run_ends small_host 0 1 0 superseded_begin
               superseded_begin (state_of (Engine.start_pass superseded_begin)))
    as (st' & Hagain & Hnone & _).
  - reflexivity.
  - reflexivity.
  - reflexivity.
  - vm_compute. reflexivity.
  - vm_compute. reflexivity.
  - reflexivity.
  - vm_compute. reflexivity.
  - vm_compute. discriminate.
  - reflexivity.
  - exists st'. split; [exact Hagain | exact Hnone].
Defined.

(** C4, as stated, fails: the quantity prompt is a suspension point that does
    not check the call id.  A new [scan()] is started while the prompt is
    open; when the quantity is entered the run goes on, stores the quantity in
    its variables and calls [observer.next]. *)
Lemma C4_quantity_prompt_not_rechecked :
  let st := small_state single [mk_block Tvariable "quantity"]
              [superseding (RQuantity (QOk (JStr "5")))] ∅ in
  let st' := (Engine.again small_host 1 5 st).2 in
  this_scanCallId (this st') ≠ _scanCallId (closure st')
  ∧ quantity (variables (pass st)) = JNull
  ∧ quantity (variables (pass st')) = JStr "5"
  ∧ ScanModel.quantity <$> emitted (events (env st')) = [JStr "5"].
Proof. vm_compute. repeat split; discriminate. Qed.

(** The select alert and the 'Infinite loop detected' alert are suspension
    points without a check as well: with a new [scan()] started while the
    alert is open, the run goes on with the answer and hands its scan to the
    observer. *)
Lemma other_prompts_not_rechecked :
  let st := small_state single [mk_block Tselect_option "x,y"]
              [superseding (RSelect (JStr "y"))] ∅ in
  let st' := (Engine.again small_host 1 5 st).2 in
  let looping := upd_closure (set_againCount 31)
                   (small_state single [mk_block Ttext "a"]
                      [superseding (RConfirm true)] ∅) in
  let looping' := (Engine.again small_host 1 5 looping).2 in
  this_scanCallId (this st') ≠ _scanCallId (closure st')
  ∧ values_of (emitted (events (env st'))) = [[JStr "y"]]
  ∧ this_scanCallId (this looping') ≠ _scanCallId (closure looping')
  ∧ values_of (emitted (events (env looping'))) = [[JStr "a"]].
Proof. vm_compute. repeat split; discriminate. Qed.

(** ** Failures of [eval] *)

(** On a host whose expressions only compute, [evalCode] always ends with
    the error of its [delete]; the alert is shown when [eval] has failed, and
    the scratch object is left in the global object. *)
Lemma evalCode_global (H : Host) code vars st :
  Engine.evalCode H (JStr code) vars st
  = (inr (Engine.delete_error (pretty (Engine.getRandomInt st).1)),
     match js_eval H (Engine.eval_call code vars st).1 (Engine.eval_call code vars st).2 with
     | inl _ => scratch_left vars st
     | inr error => emit (error_alert error) (scratch_left vars st)
     end).
Proof.
  unfold Engine.evalCode, Engine.eval_scope, scratch_left, write_scope, global_eval,
    error_alert. simpl.
  destruct st as [[h c i r w e] t cl p]. simpl.
  by destruct (js_eval H _ _).
Qed.

(** A code that is no string: [code.replace] throws in the first round of
    the [forEach], outside the [try], when the first variable is stored; no
    alert is shown, in the current provider and in the draft. *)
Lemma evalCode_of_no_string (R : Runtime) code vars dvars st :
  (∀ code0, code ≠ JStr code0) →
  let randomInt := pretty (hd 0 (randoms (env st))) in
  (∃ error, (Engine.evalCode R code vars st).1 = inr error)
  ∧ window (env (Engine.evalCode R code vars st).2)
    = <[randomInt := {[ "_barcode" := JStr (barcode vars) ]}]> (window (env st))
  ∧ events (env (Engine.evalCode R code vars st).2) = events (env st)
  ∧ (∃ error, (Draft.evalCode R code dvars st).1 = inr error)
  ∧ window (env (Draft.evalCode R code dvars st).2)
    = <[randomInt := {[ "_barcode" := JStr (Draft.barcode dvars) ]}]> (window (env st)).
Proof.
  intros Hcode randomInt. unfold Engine.evalCode, Draft.evalCode.
  destruct code; try (by repeat split; eauto). by destruct (Hcode s).
Qed.

Lemma evalCode_failure (H : Host) code vars st error :
  js_eval H (Engine.eval_call code vars st).1 (Engine.eval_call code vars st).2 = inr error →
  Engine.evalCode H (JStr code) vars st
  = (inr (Engine.delete_error (pretty (Engine.getRandomInt st).1)),
     emit (error_alert error) (scratch_left vars st)).
Proof. intros He. by rewrite evalCode_global, He. Qed.

Lemma read_block_write_value h l v b :
  read_block h l = Some b → read_block (write_value l v h) l = Some (set_value v b).
Proof.
  unfold read_block, write_value. destruct (h !! l) as [[b'|]|] eqn:E; try done.
  intros [= ->]. rewrite list_lookup_insert_eq; [done|]. by eapply lookup_lt_Some.
Qed.

(** C5, as amended.  When [eval] fails on the code of a block, the 'Error'
    alert is shown in both cases.  For an 'if' block the call of [again()]
    then completes the observer and returns, and the observer gets no scan
    from this run.  For a 'function' block the value of the block becomes the
    empty string and the loop goes on with the next block. *)
Theorem C5_eval_failure (H : Host) (passes n fuel : nat)
    (st_begin stg st0 st : State) (i : nat) (l : loc) (b : OutputBlockModel)
    (code error : string) :
  _scanCallId (closure st_begin) = this_scanCallId (this st_begin) →
  Engine.infinite_loop_guard st_begin = Ret () stg →
  Engine.start_pass stg = Ret () st0 →
  Engine.iterate H n 0 st0 = Some (i, st) →
  Engine.block_at st i = Some (l, b) →
  value b = JStr code →
  js_eval H (Engine.eval_call code (variables (pass st)) st).1
            (Engine.eval_call code (variables (pass st)) st).2 = inr error →
  (type b = Tif →
     ∃ st', Engine.again H (S passes) (n + S fuel) st_begin = (Completed, st')
            ∧ emitted (events_since st_begin st') = []
            ∧ events (env st') = events (env st) ++ [error_alert error; EComplete])
  ∧ (type b = Tfunction →
     ∃ st1, Engine.run_blocks H (n + S fuel) 0 st0 = Engine.run_blocks H fuel (S i) st1
            ∧ events (env st1) = events (env st) ++ [error_alert error]
            ∧ read_block (heap (env st1)) l = Some (set_value (JStr "") b)).
Proof.
  intros Hid Hg Hs Hit Hb Hv He.
  pose proof (iterate_run H n (S fuel) 0 st0 i st Hit) as Hrun.
  rewrite (run_blocks_step H _ _ _ _ _ Hb) in Hrun.
  split; intros Ht.
  - unfold Engine.exec_block in Hrun. rewrite Ht in Hrun.
    cbv beta iota zeta in Hrun. rewrite Hv in Hrun.
    erewrite (evalCode_failure H code _ _ error) in Hrun by exact He.
    unfold Engine.complete in Hrun.
    eexists. split; [|split].
    + eapply again_pass_exit; eauto.
    + eapply again_pass_exit; eauto.
    + simpl. by rewrite <- app_assoc.
  - unfold Engine.exec_block in Hrun. rewrite Ht in Hrun.
    cbv beta iota zeta in Hrun. rewrite Hv in Hrun.
    erewrite (evalCode_failure H code _ _ error) in Hrun by exact He.
    eexists. split; [exact Hrun|split].
    + done.
    + simpl. apply read_block_write_value.
      unfold Engine.block_at in Hb.
      destruct (read_array _ _) as [ls|]; simpl in Hb; [|done].
      destruct (ls !! i) as [l'|]; simpl in Hb; [|done].
      destruct (read_block _ l') as [b'|] eqn:Hrb; simpl in Hb; [|done].
      by simplify_eq.
Qed.

Lemma C5_eval_failure_witness :
  ∃ st1, Engine.run_blocks small_host 2 0 (state_of (Engine.start_pass failing_function_begin))
         = Engine.run_blocks small_host 1 1 st1
         ∧ events (env st1) = [error_alert "SyntaxError"].
Proof.
  edestruct (C5_eval_failure small_host 0 0 1 failing_function_begin failing_function_begin
               (state_of (Engine.start_pass failing_function_begin)))
    as [_ Hfun].
  - reflexivity.
  - reflexivity.
  - reflexivity.
  - reflexivity.
  - vm_compute. reflexivity.
  - reflexivity.
  - vm_compute. reflexivity.
  - destruct (Hfun eq_refl) as (st1 & Hrun & Hev & _).
    exists st1. split; [exact Hrun | exact Hev].
Defined.

(** C5, as stated, fails: the failure of a 'function' block is not silent.
    The same 'Error' alert is shown, then the block gets the empty string and
    the scan is handed to the observer. *)
Lemma C5_function_failure_shows_alert :
  let st' := (Engine.again small_host 1 5 failing_function_begin).2 in
  ∃ scan,
    events (env st') = [error_alert "SyntaxError"; ENext scan; EComplete]
    ∧ value <$> ScanModel.outputBlocks scan = [JStr ""; JStr "L2"].
Proof. eexists. vm_compute. split; reflexivity. Qed.

(** ** The repeat counter *)

(** C2, as amended.  At the end of a run the repeat counter is incremented
    when the display value equals that of the previous run and is left as it
    is when it differs; the display value is remembered and the timer is set
    anew to 500 ms from now.  While the engine is suspended, the timer sets
    the counter to zero once its time has come, and does nothing before.  A
    call of [again()] that finds the counter above 30 shows the confirmation
    prompt once, whatever the counter was in the calls before; 'Stop'
    completes the observer and ends the call, 'Continue' lets the run start. *)
Theorem C2_repeat_counter (H : Host) (st : State) :
  (∀ blocks, read_blocks (heap (env st)) (scan_outputBlocks (pass st)) = Some blocks →
     ∃ scan st', Engine.finish_pass H st = Ret scan st'
     ∧ ScanModel.outputBlocks scan = blocks
     ∧ againCount (closure st')
       = (if String.eqb (ScanModel.displayValue scan) (prevScanDisplayValue (closure st))
          then againCount (closure st) + 1 else againCount (closure st))
     ∧ prevScanDisplayValue (closure st') = ScanModel.displayValue scan
     ∧ resetAgainCountTimer (closure st') = Some (clock (env st) + 500)
     ∧ events (env st') = events (env st) ++ [ENext scan])
  ∧ (∀ a rest due, resetAgainCountTimer (closure st) = Some due →
     let st' := resume a rest st in
     (due ≤ clock (env st) + Z.max 0 (elapsed a) →
        againCount (closure st') = 0 ∧ resetAgainCountTimer (closure st') = None)
     ∧ (clock (env st) + Z.max 0 (elapsed a) < due →
        againCount (closure st') = againCount (closure st)
        ∧ resetAgainCountTimer (closure st') = Some due))
  ∧ (againCount (closure st) ≤ 30 → Engine.infinite_loop_guard st = Ret () st)
  ∧ (30 < againCount (closure st) →
     ∀ a rest wantToContinue,
       inputs (env st) = a :: rest → reply a = RConfirm wantToContinue →
       let st1 := resume a rest (emit EInfiniteLoopDialog st) in
       Engine.infinite_loop_guard st
       = (if wantToContinue then Ret () st1 else Exit Completed (emit EComplete st1))
       ∧ events (env st1)
         = events (env st) ++ [EInfiniteLoopDialog]
           ++ match rescan a with Some _ => [EComplete] | None => [] end).
Proof.
  split; [|split; [|split]].
  - intros blocks Hb. unfold Engine.finish_pass. rewrite Hb.
    eexists _, _. split; [reflexivity|]. simpl.
    destruct (String.eqb _ _); done.
  - intros a rest due Hdue st'. subst st'. unfold resume, fire_timers, new_scan_call.
    simpl. rewrite Hdue.
    split; intros Hc.
    + rewrite (proj2 (Z.leb_le _ _)) by exact Hc. by destruct (rescan a).
    + rewrite (proj2 (Z.leb_gt _ _)) by exact Hc. by destruct (rescan a).
  - intros Hle. unfold Engine.infinite_loop_guard. rewrite Z.gtb_ltb.
    destruct (Z.ltb_spec 30 (againCount (closure st))); [lia|done].
  - intros Hgt a rest b Hin Hr st1. subst st1. unfold Engine.infinite_loop_guard.
    rewrite Z.gtb_ltb.
    destruct (Z.ltb_spec 30 (againCount (closure st))); [|lia].
    unfold Engine.showPreventInfiniteLoopDialog.
    erewrite await_cons by (simpl; exact Hin). rewrite Hr.
    split; [by destruct b|].
    unfold resume, new_scan_call. simpl.
    destruct (rescan a); simpl; rewrite fire_timers_env; simpl; by rewrite <- ?app_assoc.
Qed.

(** C2, as stated, fails: the counter is not reset when the display value
    differs.  Three manual entries "a", "a", "b" come 100 ms apart; after the
    third run the counter is still 1, and the timer has not fired. *)
Lemma C2_counter_kept_when_value_differs :
  let st' := (Engine.again small_host 4 5 repeat_begin).2 in
  ScanModel.displayValue <$> emitted (events (env st')) = ["a"; "a"; "b"]
  ∧ againCount (closure st') = 1
  ∧ resetAgainCountTimer (closure st') = Some 1800
  ∧ clock (env st') = 1300.
Proof. vm_compute. repeat split. Qed.

(** And the prompt is shown by every call of [again()] that finds the counter
    above 30: a profile with one text block in the manual mode reaches 31
    after 32 runs; the user answers 'Continue' twice within 500 ms and then
    'Stop', and has seen three prompts while the counter went from 31 to 33. *)
Lemma prompt_at_every_call_above_threshold :
  let st := small_state manual [mk_block Ttext "x"]
              [answer (RConfirm true); answer (RConfirm true); answer (RConfirm false)] ∅ in
  let r := Engine.again small_host 40 5 st in
  r.1 = Completed
  ∧ againCount (closure r.2) = 33
  ∧ length (emitted (events (env r.2))) = 34%nat
  ∧ length (List.filter is_infinite_loop_dialog (events (env r.2))) = 3%nat.
Proof. vm_compute. repeat split. Qed.

(** ** The master profile *)

Lemma prefix_insert_ge {A} (h0 h : list A) (l : nat) (x : A) :
  h0 `prefix_of` h → (length h0 ≤ l)%nat → h0 `prefix_of` <[l := x]> h.
Proof.
  intros [k ->] Hl. exists (<[(l - length h0)%nat := x]> k).
  by rewrite insert_app_r_alt.
Qed.

Lemma owned_same h0 st st' :
  heap (env st') = heap (env st) →
  scan_outputBlocks (pass st') = scan_outputBlocks (pass st) →
  owned h0 st → owned h0 st'.
Proof. unfold owned. by intros -> ->. Qed.

Lemma owned_emit h0 e st : owned h0 st → owned h0 (emit e st).
Proof. by apply owned_same. Qed.

Lemma owned_upd_this h0 f st : owned h0 st → owned h0 (upd_this f st).
Proof. by apply owned_same. Qed.

Lemma owned_upd_closure h0 f st : owned h0 st → owned h0 (upd_closure f st).
Proof. by apply owned_same. Qed.

Lemma owned_upd_pass h0 f st :
  (∀ p, scan_outputBlocks (f p) = scan_outputBlocks p) →
  owned h0 st → owned h0 (upd_pass f st).
Proof. intros Hf. apply owned_same; [done|]. apply Hf. Qed.

Lemma owned_resume h0 a rest st : owned h0 st → owned h0 (resume a rest st).
Proof. apply owned_same; [apply resume_heap | by rewrite resume_pass]. Qed.

Lemma owned_getRandomInt h0 st : owned h0 st → owned h0 (Engine.getRandomInt st).2.
Proof. by apply owned_same. Qed.

Lemma owned_set_block_value h0 l v st :
  (length h0 ≤ l)%nat → owned h0 st → owned h0 (Engine.set_block_value l v st).
Proof.
  intros Hl (Hp & Ha & Hls). unfold owned, Engine.set_block_value, write_heap, write_value.
  simpl. destruct (heap (env st) !! l) as [[b|]|] eqn:E; try done.
  split; [by apply prefix_insert_ge|]. split; [done|].
  intros ls. unfold read_array.
  destruct (decide (l = scan_outputBlocks (pass st))) as [<-|Hne].
  - rewrite list_lookup_insert_eq; [done|]. by eapply lookup_lt_Some.
  - rewrite list_lookup_insert_ne by done. apply Hls.
Qed.

Lemma Forall_splice {A} (P : A → Prop) start count (l : list A) :
  Forall P l → Forall P (splice start count l).
Proof.
  intros Hl. unfold splice. apply Forall_app. split.
  - by apply Forall_take.
  - by apply Forall_drop.
Qed.

Lemma owned_splice h0 a start count st :
  a = scan_outputBlocks (pass st) →
  owned h0 st → owned h0 (write_heap (splice_array a start count) st).
Proof.
  intros -> (Hp & Ha & Hls). unfold owned, write_heap, splice_array. simpl.
  destruct (heap (env st) !! scan_outputBlocks (pass st)) as [[b|ls]|] eqn:E; try done.
  split; [by apply prefix_insert_ge|]. split; [done|].
  intros ls'. unfold read_array.
  rewrite list_lookup_insert_eq by (by eapply lookup_lt_Some).
  intros [= <-]. apply Forall_splice, Hls. unfold read_array. by rewrite E.
Qed.

Ltac owned_step :=
  first
    [ assumption
    | apply owned_emit
    | apply owned_upd_this
    | apply owned_upd_closure
    | apply owned_upd_pass; [intros; reflexivity|]
    | apply owned_set_block_value; [assumption|]
    | apply owned_splice; [reflexivity|]
    | apply owned_resume
    | apply owned_getRandomInt ].

Ltac solve_owned := repeat owned_step.

Lemma getQuantity_owned h0 label st :
  owned h0 st → after (owned h0) (Engine.getQuantity label st).
Proof.
  intros Ho. unfold Engine.getQuantity, await. simpl.
  repeat case_match; simplify_eq/=; solve_owned.
Qed.

Lemma showSelectOption_owned h0 csv st :
  owned h0 st → after (owned h0) (Engine.showSelectOption csv st).
Proof.
  intros Ho. unfold Engine.showSelectOption, await. simpl.
  repeat case_match; simplify_eq/=; solve_owned.
Qed.

Lemma showPreventInfiniteLoopDialog_owned h0 st :
  owned h0 st → after (owned h0) (Engine.showPreventInfiniteLoopDialog st).
Proof.
  intros Ho. unfold Engine.showPreventInfiniteLoopDialog, await. simpl.
  repeat case_match; simplify_eq/=; solve_owned.
Qed.

Lemma showAddMoreDialog_owned h0 t st :
  owned h0 st → after (owned h0) (Engine.showAddMoreDialog t st).
Proof.
  intros Ho. unfold Engine.showAddMoreDialog, await. simpl.
  repeat case_match; simplify_eq/=; solve_owned.
Qed.

Lemma getBarcode_owned (R : Runtime) h0 label st :
  owned h0 st → after (owned h0) (Engine.getBarcode R label st).
Proof.
  intros Ho. unfold Engine.getBarcode, Engine.settle_barcode, await. simpl.
  repeat case_match; simplify_eq/=; solve_owned.
Qed.

Lemma global_eval_writes_no_object (H : Host) : writes_no_object H.
Proof. by intros scope code. Qed.

Lemma owned_write_scope h0 scope st0 st ls :
  heap (env st0) `prefix_of` scope_heap scope →
  read_array (heap (env st0)) (scan_outputBlocks (pass st0)) = Some ls →
  pass st = pass st0 →
  owned h0 st0 → owned h0 (write_scope scope st).
Proof.
  intros Hpre Hls Hpass (Hp & Ha & Hall). unfold owned, write_scope. simpl. rewrite Hpass.
  split; [by etrans|]. split; [done|].
  intros ls' Hls'.
  assert (heap (env st0) !! scan_outputBlocks (pass st0) = Some (OArray ls)) as E.
  { unfold read_array in Hls.
    destruct (heap (env st0) !! scan_outputBlocks (pass st0)) as [[|?]|]; by simplify_eq. }
  unfold read_array in Hls'. rewrite (prefix_lookup_Some _ _ _ _ E Hpre) in Hls'.
  simplify_eq. by apply Hall.
Qed.

Lemma evalCode_owned (R : Runtime) h0 code vars st :
  writes_no_object R →
  is_Some (read_array (heap (env st)) (scan_outputBlocks (pass st))) →
  owned h0 st → owned h0 (Engine.evalCode R code vars st).2.
Proof.
  intros HR [ls Hls] Ho. unfold Engine.evalCode.
  destruct code; try (by apply (owned_same h0 st)).
  pose proof (HR (Engine.eval_scope s vars st) (Engine.eval_call s vars st).2) as Hpre.
  destruct (direct_eval R _ _) as [r scope]. simpl in Hpre.
  assert (owned h0 (write_scope scope (Engine.getRandomInt st).2)) as Ho'
    by by apply (owned_write_scope h0 scope st _ ls).
  destruct r; simpl; [done | by apply owned_emit].
Qed.

Lemma exec_block_owned (R : Runtime) h0 i l b st :
  writes_no_object R →
  is_Some (read_array (heap (env st)) (scan_outputBlocks (pass st))) →
  (length h0 ≤ l)%nat →
  owned h0 st → after (owned h0) (Engine.exec_block R i l b st).
Proof.
  intros HR Hls Hl Ho. unfold Engine.exec_block, Engine.if_splice, Engine.complete.
  destruct (type b); simpl; try solve [solve_owned].
  - repeat (case_match; simpl; try solve [solve_owned]).
    all: match goal with
         | E : Engine.getQuantity ?l ?s = _ |- _ =>
             pose proof (getQuantity_owned h0 l s ltac:(solve_owned)) as Hg;
             rewrite E in Hg; simpl in Hg
         end; solve_owned.
  - match goal with
    | |- context [Engine.showSelectOption ?c ?s] =>
        pose proof (showSelectOption_owned h0 c s ltac:(solve_owned)) as Hg;
        destruct (Engine.showSelectOption c s); simpl in *; solve_owned
    end.
  - match goal with
    | |- context [Engine.evalCode _ ?c ?v ?s] =>
        pose proof (evalCode_owned R h0 c v s HR Hls ltac:(solve_owned)) as Hg;
        destruct (Engine.evalCode R c v s) as [[?|?] ?]; simpl in *; solve_owned
    end.
  - match goal with
    | |- context [Engine.getBarcode _ ?l ?s] =>
        pose proof (getBarcode_owned R h0 l s ltac:(solve_owned)) as Hg;
        destruct (Engine.getBarcode R l s) as [[?|?] ?|]; simpl in *;
        repeat case_match; simpl; solve_owned
    end.
  - match goal with
    | |- context [Engine.evalCode _ ?c ?v ?s] =>
        pose proof (evalCode_owned R h0 c v s HR Hls ltac:(solve_owned)) as Hg;
        destruct (Engine.evalCode R c v s) as [[?|?] ?]; simpl in *;
        repeat case_match; simpl; solve_owned
    end.
Qed.

Lemma run_blocks_owned (R : Runtime) h0 fuel : writes_no_object R → ∀ i st,
  owned h0 st → after (owned h0) (Engine.run_blocks R fuel i st).
Proof.
  intros HR. induction fuel as [|fuel IH]; intros i st Ho; simpl; [done|].
  destruct (read_array _ _) as [ls|] eqn:Hls; [|done].
  destruct (ls !! i) as [l|] eqn:Hl; [|done].
  destruct (read_block _ l) as [b|]; [|done].
  assert (length h0 ≤ l)%nat as Hge.
  { destruct Ho as (_ & _ & Hall). specialize (Hall ls Hls).
    rewrite Forall_lookup in Hall. by eapply Hall. }
  pose proof (exec_block_owned R h0 i l b st HR ltac:(by rewrite Hls) Hge Ho) as Hg.
  destruct (Engine.exec_block R i l b st) as [i' st'|o st']; simpl in Hg; [|done].
  by apply IH.
Qed.

Lemma clone_blocks_spec bs : ∀ h,
  clone_blocks h bs = (h ++ (OBlock <$> bs), seq (length h) (length bs)).
Proof.
  induction bs as [|b bs IH]; intros h; simpl.
  - by rewrite app_nil_r.
  - rewrite IH. rewrite length_app. simpl.
    rewrite <- app_assoc. simpl. by rewrite Nat.add_1_r.
Qed.

Lemma JSON_clone_spec h a h' a' :
  JSON_clone h a = Some (h', a') →
  ∃ bs, read_blocks h a = Some bs
        ∧ h' = h ++ (OBlock <$> bs) ++ [OArray (seq (length h) (length bs))]
        ∧ a' = (length h + length bs)%nat.
Proof.
  unfold JSON_clone. destruct (read_blocks h a) as [bs|]; simpl; [|done].
  rewrite clone_blocks_spec. unfold alloc. intros [= <- <-].
  exists bs. split; [done|]. split.
  - by rewrite <- app_assoc.
  - by rewrite length_app, length_fmap.
Qed.

Lemma start_pass_owned st :
  match Engine.start_pass st with
  | Ret _ st' => owned (heap (env st)) st'
  | Exit _ st' => heap (env st') = heap (env st)
  end.
Proof.
  unfold Engine.start_pass.
  destruct (outputProfile (this st)) as [master|]; [|done].
  destruct (JSON_clone _ master) as [[h a]|] eqn:Hc; [|done].
  apply JSON_clone_spec in Hc as (bs & Hbs & -> & ->).
  unfold owned. simpl. split; [by apply prefix_app_r|]. split; [lia|].
  intros ls. unfold read_array.
  rewrite app_assoc.
  rewrite lookup_app_r by (rewrite length_app, length_fmap; lia).
  rewrite length_app, length_fmap, Nat.sub_diag. simpl. intros [= <-].
  apply Forall_forall. intros l Hl. apply elem_of_seq in Hl. lia.
Qed.

Lemma infinite_loop_guard_heap st :
  after (λ st', heap (env st') = heap (env st)) (Engine.infinite_loop_guard st).
Proof.
  unfold Engine.infinite_loop_guard, Engine.showPreventInfiniteLoopDialog,
    Engine.complete, await.
  repeat case_match; simplify_eq/=; by rewrite ?resume_heap.
Qed.

Lemma showAddMoreDialog_heap t st :
  after (λ st', heap (env st') = heap (env st)) (Engine.showAddMoreDialog t st).
Proof.
  unfold Engine.showAddMoreDialog, await.
  repeat case_match; simplify_eq/=; by rewrite ?resume_heap.
Qed.

Lemma finish_pass_heap (R : Runtime) st :
  after (λ st', heap (env st') = heap (env st)) (Engine.finish_pass R st).
Proof. unfold Engine.finish_pass. repeat case_match; simplify_eq/=; done. Qed.

(** The heap from before a call of [again()] is a prefix of the heap after
    it, when the expressions write to no object: no object that existed is
    written to. *)
Lemma again_prefix (R : Runtime) steps passes : writes_no_object R → ∀ st,
  heap (env st) `prefix_of` heap (env (Engine.again R passes steps st).2).
Proof.
  intros HR. induction passes as [|passes IH]; intros st; simpl; [done|].
  destruct (decide _) as [_|_]; [|done].
  pose proof (infinite_loop_guard_heap st) as Hg.
  destruct (Engine.infinite_loop_guard st) as [[] st1|o st1]; simpl in *;
    [|by rewrite Hg].
  pose proof (start_pass_owned st1) as Hs.
  destruct (Engine.start_pass st1) as [[] st2|o st2]; simpl in *; [|by rewrite Hs, Hg].
  pose proof (run_blocks_owned R (heap (env st1)) steps HR 0 st2 Hs) as Hr.
  rewrite Hg in Hr.
  destruct (Engine.run_blocks R steps 0 st2) as [[] st3|o st3]; simpl in *;
    [|by destruct Hr].
  destruct Hr as [Hp3 _].
  pose proof (finish_pass_heap R st3) as Hf.
  destruct (Engine.finish_pass R st3) as [scan st4|o st4]; simpl in *;
    [|by rewrite Hf].
  assert (heap (env st) `prefix_of` heap (env st4)) as Hp4 by by rewrite Hf.
  destruct (acqusitionMode (this st4)).
  - etrans; [exact Hp4|apply IH].
  - done.
  - pose proof (showAddMoreDialog_heap (continueModeTimeout (closure st4)) st4) as Ha.
    destruct (Engine.showAddMoreDialog _ st4) as [[] st5|o st5]; simpl in Ha; simpl.
    + etrans; [exact Hp4|]. rewrite <- Ha. apply IH.
    + by rewrite Ha.
    + by rewrite Ha.
  - etrans; [exact Hp4|apply IH].
Qed.

Lemma read_block_prefix h h' l b :
  h `prefix_of` h' → read_block h l = Some b → read_block h' l = Some b.
Proof.
  unfold read_block. intros Hp.
  destruct (h !! l) as [o|] eqn:E; [|done].
  by rewrite (prefix_lookup_Some _ _ _ _ E Hp).
Qed.

Lemma read_blocks_prefix h h' a bs :
  h `prefix_of` h' → read_blocks h a = Some bs → read_blocks h' a = Some bs.
Proof.
  unfold read_blocks, read_array. intros Hp.
  destruct (h !! a) as [o|] eqn:E; [|done].
  rewrite (prefix_lookup_Some _ _ _ _ E Hp).
  destruct o as [|ls]; simpl; [done|].
  rewrite !mapM_Some. intros Hall.
  eapply Forall2_impl; [exact Hall|]. intros l b. by apply read_block_prefix.
Qed.

Lemma scan_prefix (R : Runtime) scanMode index name settings passes steps st :
  writes_no_object R →
  heap (env st)
  `prefix_of` heap (env (Engine.scan R scanMode index name settings passes steps st).2).
Proof.
  intros HR. unfold Engine.scan.
  destruct (Engine.getOutputProfile _ _) as [profile|]; [|done].
  destruct (read_blocks _ profile) as [blocks|]; [|done].
  etrans; [|by apply again_prefix]. done.
Qed.

Lemma draft_showQuantityDialog_owned h0 st :
  owned h0 st → after (owned h0) (Draft.showQuantityDialog st).
Proof.
  intros Ho. unfold Draft.showQuantityDialog, await. simpl.
  repeat case_match; simplify_eq/=; solve_owned.
Qed.

Lemma draft_evalCode_owned (R : Runtime) h0 code vars st :
  writes_no_object R →
  is_Some (read_array (heap (env st)) (scan_outputBlocks (pass st))) →
  owned h0 st → owned h0 (Draft.evalCode R code vars st).2.
Proof.
  intros HR [ls Hls] Ho. unfold Draft.evalCode.
  destruct code; try (by apply (owned_same h0 st)).
  pose proof (HR (Draft.eval_scope s vars st) (Draft.eval_call s vars st).2) as Hpre.
  destruct (direct_eval R _ _) as [r scope]. simpl in Hpre.
  assert (owned h0 (write_scope scope (Engine.getRandomInt st).2)) as Ho'
    by by apply (owned_write_scope h0 scope st _ ls).
  destruct r; simpl; by apply (owned_same h0 (write_scope scope (Engine.getRandomInt st).2)).
Qed.

Lemma draft_exec_block_owned (R : Runtime) h0 i l b vars st :
  writes_no_object R →
  is_Some (read_array (heap (env st)) (scan_outputBlocks (pass st))) →
  (length h0 ≤ l)%nat →
  owned h0 st → after (owned h0) (Draft.exec_block R i l b vars st).
Proof.
  intros HR Hls Hl Ho. unfold Draft.exec_block.
  destruct (type b); simpl; try solve [solve_owned].
  - repeat (case_match; simpl; try solve [solve_owned]).
    all: match goal with
         | E : Draft.showQuantityDialog ?s = _ |- _ =>
             pose proof (draft_showQuantityDialog_owned h0 s ltac:(solve_owned)) as Hg;
             rewrite E in Hg; simpl in Hg
         end; solve_owned.
  - match goal with
    | |- context [Draft.evalCode _ ?c ?v ?s] =>
        pose proof (draft_evalCode_owned R h0 c v s HR Hls ltac:(solve_owned)) as Hg;
        destruct (Draft.evalCode R c v s) as [[?|?] ?]; simpl in *; solve_owned
    end.
  - match goal with
    | |- context [Draft.evalCode _ ?c ?v ?s] =>
        pose proof (draft_evalCode_owned R h0 c v s HR Hls ltac:(solve_owned)) as Hg;
        destruct (Draft.evalCode R c v s) as [[?|?] ?]; simpl in *;
        repeat case_match; simpl; solve_owned
    end.
Qed.

Lemma draft_run_blocks_owned (R : Runtime) h0 fuel : writes_no_object R → ∀ i vars st,
  owned h0 st → after (owned h0) (Draft.run_blocks R fuel i vars st).
Proof.
  intros HR. induction fuel as [|fuel IH]; intros i vars st Ho; simpl; [done|].
  destruct (read_array _ _) as [ls|] eqn:Hls; [|done].
  destruct (ls !! i) as [l|] eqn:Hl; [|done].
  destruct (read_block _ l) as [b|]; [|done].
  assert (length h0 ≤ l)%nat as Hge.
  { destruct Ho as (_ & _ & Hall). specialize (Hall ls Hls).
    rewrite Forall_lookup in Hall. by eapply Hall. }
  pose proof (draft_exec_block_owned R h0 i l b vars st HR ltac:(by rewrite Hls) Hge Ho) as Hg.
  destruct (Draft.exec_block R i l b vars st) as [vars' st'|o st']; simpl in Hg; [|done].
  by apply IH.
Qed.

Lemma acquireScan_prefix (R : Runtime) steps st :
  writes_no_object R →
  heap (env st) `prefix_of` heap (env (Draft.acquireScan R steps st).2).
Proof.
  intros HR. unfold Draft.acquireScan.
  destruct (outputProfile (this st)) as [master|]; [|done].
  destruct (JSON_clone _ master) as [[h a]|] eqn:Hc; [|done].
  apply JSON_clone_spec in Hc as (bs & Hbs & -> & ->).
  match goal with
  | |- context [Draft.run_blocks _ steps 0 ?v ?s] =>
      pose proof (draft_run_blocks_owned R (heap (env st)) steps HR 0 v s) as Hr;
      destruct (Draft.run_blocks R steps 0 v s) as [[] st2|o st2]
  end.
  - simpl in Hr. destruct Hr as [Hp _].
    + unfold owned. simpl. split; [by apply prefix_app_r|]. split; [lia|].
      intros ls. unfold read_array. rewrite app_assoc.
      rewrite lookup_app_r by (rewrite length_app, length_fmap; lia).
      rewrite length_app, length_fmap, Nat.sub_diag. simpl. intros [= <-].
      apply Forall_forall. intros l Hl. apply elem_of_seq in Hl. lia.
    + by case_match.
  - simpl in *. apply Hr.
    unfold owned. simpl. split; [by apply prefix_app_r|]. split; [lia|].
    intros ls. unfold read_array. rewrite app_assoc.
    rewrite lookup_app_r by (rewrite length_app, length_fmap; lia).
    rewrite length_app, length_fmap, Nat.sub_diag. simpl. intros [= <-].
    apply Forall_forall. intros l Hl. apply elem_of_seq in Hl. lia.
Qed.

Lemma read_cloned_blocks bs : ∀ h tail,
  Forall2 (λ l b, read_block (h ++ (OBlock <$> bs) ++ tail) l = Some b)
    (seq (length h) (length bs)) bs.
Proof.
  induction bs as [|b bs IH]; intros h tail; simpl; [constructor|].
  constructor.
  - unfold read_block. by rewrite list_lookup_middle.
  - specialize (IH (h ++ [OBlock b]) tail).
    rewrite length_app, Nat.add_1_r in IH. simpl in IH.
    by rewrite <- app_assoc in IH.
Qed.

(** The clone at the start of a run: the working array holds blocks with the
    contents of the master profile, in objects that the run owns. *)
Lemma start_pass_clones st master blocks :
  outputProfile (this st) = Some master →
  read_blocks (heap (env st)) master = Some blocks →
  ∃ st', Engine.start_pass st = Ret () st'
         ∧ read_blocks (heap (env st')) (scan_outputBlocks (pass st')) = Some blocks
         ∧ owned (heap (env st)) st'.
Proof.
  intros Hm Hb.
  pose proof (start_pass_owned st) as Ho.
  unfold Engine.start_pass in *. rewrite Hm in *.
  unfold JSON_clone in *. rewrite Hb in *. simpl in *.
  rewrite clone_blocks_spec in *. simpl in *.
  eexists. split; [reflexivity|]. split; [|exact Ho].
  simpl. unfold read_blocks, read_array.
  rewrite lookup_app_r by (rewrite length_app, length_fmap; lia).
  rewrite length_app, length_fmap, Nat.sub_diag. simpl.
  apply mapM_Some. rewrite <- app_assoc. apply read_cloned_blocks.
Qed.

(** C8, as amended.  Every run works on a deep copy: the clone at its start
    gives the working array blocks with the contents of the master profile in
    objects of its own.  When the expressions of the 'function' and 'if'
    blocks write to no object that exists when they are evaluated, then
    whatever the profile, the answers and the number of runs, the heap from
    before the call is a prefix of the heap after it, so every array of
    blocks that could be read before (the master profile among them) reads
    the same blocks after.  This holds for [again()], for [scan()] and for
    [acquireScan] of the draft. *)
Theorem C8_master_profile_unchanged (R : Runtime) (passes steps : nat) (st : State)
    (scanMode : ScanMode) (index : Z) (name : JsVal) (settings : Settings.t) :
  writes_no_object R →
  let unchanged (st' : State) :=
    heap (env st) `prefix_of` heap (env st')
    ∧ ∀ master blocks,
        read_blocks (heap (env st)) master = Some blocks →
        read_blocks (heap (env st')) master = Some blocks in
  unchanged (Engine.again R passes steps st).2
  ∧ unchanged (Engine.scan R scanMode index name settings passes steps st).2
  ∧ unchanged (Draft.acquireScan R steps st).2
  ∧ (∀ master blocks,
       outputProfile (this st) = Some master →
       read_blocks (heap (env st)) master = Some blocks →
       ∃ st', Engine.start_pass st = Ret () st'
              ∧ read_blocks (heap (env st')) (scan_outputBlocks (pass st')) = Some blocks
              ∧ owned (heap (env st)) st').
Proof.
  intros HR unchanged.
  assert (∀ st', heap (env st) `prefix_of` heap (env st') → unchanged st') as Hu.
  { intros st' Hp. split; [done|]. intros master blocks. by apply read_blocks_prefix. }
  split; [|split; [|split]].
  - by apply Hu, again_prefix.
  - by apply Hu, scan_prefix.
  - by apply Hu, acquireScan_prefix.
  - intros master blocks. apply start_pass_clones.
Qed.

Lemma C8_master_profile_unchanged_witness :
  read_blocks (heap (env (Engine.again small_host 1 5 failing_function_begin).2)) 2%nat
  = Some failing_function_profile.
Proof.
  destruct (C8_master_profile_unchanged small_host 1 5 failing_function_begin
              SCAN_MODE_SINGLE 0 JNull
              {| Settings.getPreferFrontCamera := false;
                 Settings.getEnableLimitBarcodeFormats := false;
                 Settings.getBarcodeFormats := []; Settings.getQuantityType := None;
                 Settings.getContinueModeTimeout := JNull; Settings.getDeviceName := "phone";
                 Settings.getOutputProfiles := [2%nat]; Settings.getTorchOn := false |})
    as [[_ Hagain] _].
  - intros scope code. reflexivity.
  - apply Hagain. reflexivity.
Defined.

(** C8, as stated, fails: an expression is evaluated with [this] in scope
    and can write to the master profile.  A 'function' block whose code
    empties [this.outputProfile.outputBlocks] leaves the master profile
    without blocks, in the current provider and in the draft; the working
    copy of the run was made before, and the next run clones the empty
    profile. *)
Lemma C8_expression_writes_to_the_master :
  let blocks := [mk_block Tfunction empties_the_profile; mk_block Ttext "a"] in
  let st := small_state manual blocks [] ∅ in
  let st' := (Engine.again small_runtime 2 5 st).2 in
  read_blocks (heap (env st)) 2%nat = Some blocks
  ∧ outputProfile (this st') = Some 2%nat
  ∧ read_blocks (heap (env st')) 2%nat = Some []
  ∧ values_of (emitted (events (env st'))) = [[JStr ""; JStr "a"]; []]
  ∧ read_blocks (heap (env (Draft.acquireScan small_runtime 5 st).2)) 2%nat = Some [].
Proof. vm_compute. repeat split. Qed.

(** ** What [eval] can see *)





(** The name [barcodes] is not bound to its value: the replacement of
    [barcode], which comes first, takes its first seven characters. *)
Lemma barcodes_is_rewritten_as_barcode :
  let vars := variables (pass (small_state single [] [] ∅)) in
  Engine.rewrite_code "7" vars "barcodes" = path "7" "_barcode" +:+ "s"
  ∧ Engine.rewrite_code "7" vars "barcode" = path "7" "_barcode"
  ∧ Engine.rewrite_code "7" vars "quantity" = path "7" "_quantity".
Proof. vm_compute. repeat split. Qed.

(** ** If and EndIf *)

Lemma FindEndIfIndex_scan_balanced body :
  balanced body → ∀ rest index depth,
  FindEndIfIndex_scan (body ++ rest) index depth
  = FindEndIfIndex_scan rest (index + Z.of_nat (length body)) depth.
Proof.
  induction 1 as [|b bs Hif Hendif _ IH|b inner e bs Hb He _ IHinner _ IHbs];
    intros rest index depth.
  - simpl. by rewrite Z.add_0_r.
  - simpl. rewrite IH.
    replace (index + 1 + Z.of_nat (length bs)) with (index + Z.of_nat (S (length bs))) by lia.
    by destruct (type b).
  - simpl. rewrite Hb. rewrite <- app_assoc. rewrite IHinner. simpl. rewrite He.
    rewrite IHbs. f_equal. rewrite length_app. simpl. lia.
Qed.

(** The matcher modelled from the spec finds the matching 'endif', at any
    depth of nesting. *)
Lemma FindEndIfIndex_spec_finds pre ifb body endifb post :
  type endifb = Tendif → balanced body →
  FindEndIfIndex_spec (pre ++ ifb :: body ++ endifb :: post) (Z.of_nat (length pre) + 1)
  = Z.of_nat (length pre + 1 + length body).
Proof.
  intros He Hbal. unfold FindEndIfIndex_spec.
  replace (Z.to_nat (Z.of_nat (length pre) + 1)) with (length pre + 1)%nat by lia.
  rewrite <- drop_drop, drop_app_length. simpl. rewrite drop_0.
  rewrite (FindEndIfIndex_scan_balanced body Hbal). simpl. rewrite He. lia.
Qed.

Lemma small_host_finds_matching_endif : finds_matching_endif small_host.
Proof. intros pre ifb body endifb post. apply FindEndIfIndex_spec_finds. Qed.

Lemma splice_middle {A} (pre mid post : list A) :
  splice (Z.of_nat (length pre)) (Z.of_nat (length mid)) (pre ++ mid ++ post) = pre ++ post.
Proof.
  unfold splice. rewrite !length_app.
  destruct (Z.ltb_spec (Z.of_nat (length pre)) 0) as [?|_]; [lia|].
  rewrite Z.min_l by lia.
  rewrite Z.max_l by lia. rewrite Z.min_l by lia.
  rewrite Nat2Z.id, <- Nat2Z.inj_add, Nat2Z.id.
  rewrite take_app_length.
  by rewrite <- drop_drop, drop_app_length, drop_app_length.
Qed.

Lemma splice_markers {A} (pre body post : list A) (b e : A) :
  splice (Z.of_nat (length pre + 1 + length body) - 1) 1
    (splice (Z.of_nat (length pre)) 1 (pre ++ b :: body ++ e :: post))
  = pre ++ body ++ post.
Proof.
  assert (splice (Z.of_nat (length pre)) 1 (pre ++ b :: body ++ e :: post)
          = pre ++ body ++ e :: post) as ->
    by exact (splice_middle pre [b] (body ++ e :: post)).
  replace (Z.of_nat (length pre + 1 + length body) - 1)
    with (Z.of_nat (length (pre ++ body))) by (rewrite length_app; lia).
  rewrite (app_assoc pre body (e :: post)), (app_assoc pre body post).
  apply (splice_middle (pre ++ body) [e] post).
Qed.

Lemma splice_range {A} (pre body post : list A) (b e : A) :
  splice (Z.of_nat (length pre))
    (Z.of_nat (length pre + 1 + length body) - Z.of_nat (length pre) + 1)
    (pre ++ b :: body ++ e :: post)
  = pre ++ post.
Proof.
  replace (Z.of_nat (length pre + 1 + length body) - Z.of_nat (length pre) + 1)
    with (Z.of_nat (length (b :: body ++ [e])))
    by (simpl; rewrite length_app; simpl; lia).
  change (pre ++ b :: body ++ e :: post) with (pre ++ (b :: body ++ e :: post)).
  replace (b :: body ++ e :: post) with ((b :: body ++ [e]) ++ post)
    by (simpl; by rewrite <- app_assoc).
  apply splice_middle.
Qed.

Lemma read_blocks_splice h a bs start count :
  read_blocks h a = Some bs →
  read_blocks (splice_array a start count h) a = Some (splice start count bs).
Proof.
  unfold read_blocks, read_array, splice_array.
  destruct (h !! a) as [[b|ls]|] eqn:Ha; simpl; try done.
  rewrite list_lookup_insert_eq by (by eapply lookup_lt_Some). simpl.
  rewrite !mapM_Some. intros Hall.
  assert (Forall2 (λ l b, read_block (<[a := OArray (splice start count ls)]> h) l = Some b)
            ls bs) as Hall'.
  { eapply Forall2_impl; [exact Hall|]. intros l b. unfold read_block.
    destruct (decide (l = a)) as [->|Hne]; [by rewrite Ha|].
    by rewrite list_lookup_insert_ne. }
  unfold splice. rewrite <- (Forall2_length _ _ _ Hall).
  apply Forall2_app; [by apply Forall2_take | by apply Forall2_drop].
Qed.

Lemma read_block_splice h a l b start count :
  read_block h l = Some b → read_block (splice_array a start count h) l = Some b.
Proof.
  unfold read_block, splice_array.
  destruct (h !! a) as [[b'|ls]|] eqn:Ha; try done.
  destruct (decide (l = a)) as [->|Hne]; [by rewrite Ha|].
  by rewrite list_lookup_insert_ne.
Qed.

(** Case 'if' of the current provider once the condition is there (the two
    [splice] and the step back of the index).  When the block at the index is
    followed by a balanced body and its 'endif', then for the value
    [condition] the loop goes on at the same index on an array from which the
    two markers are removed when the value is loosely equal to [true], and
    the whole range, markers included, when it is not.  No block object is
    changed, nothing is said to the observer or the collaborators, and the
    variables are as they were. *)
Theorem if_splice_on_a_balanced_body (H : Host) (st : State)
    (pre : list OutputBlockModel) (b : OutputBlockModel) (body : list OutputBlockModel)
    (endifb : OutputBlockModel) (post : list OutputBlockModel) (condition : JsVal) :
  finds_matching_endif H →
  read_blocks (heap (env st)) (scan_outputBlocks (pass st))
  = Some (pre ++ b :: body ++ endifb :: post) →
  type endifb = Tendif →
  balanced body →
  ∃ st',
    Engine.if_splice H (length pre) condition st = Ret (length pre) st'
    ∧ read_blocks (heap (env st')) (scan_outputBlocks (pass st'))
      = Some (if js_loose_eq H condition (JBool true)
              then pre ++ body ++ post else pre ++ post)
    ∧ pass st' = pass st
    ∧ this st' = this st
    ∧ events (env st') = events (env st)
    ∧ inputs (env st') = inputs (env st)
    ∧ ∀ l b', read_block (heap (env st)) l = Some b' →
              read_block (heap (env st')) l = Some b'.
Proof.
  intros Hfind Hrb Hte Hbal.
  unfold Engine.if_splice. cbn [library global_eval].
  rewrite Hrb. rewrite Hfind by done.
  destruct (js_loose_eq H condition (JBool true)).
  - eexists. split; [reflexivity|].
    split; [|split; [done|split; [done|split; [done|split; [done|]]]]].
    + cbn [env heap pass write_heap upd_env set_heap].
      rewrite (read_blocks_splice _ _ (splice (Z.of_nat (length pre)) 1
                                         (pre ++ b :: body ++ endifb :: post)) _ _).
      * f_equal. apply splice_markers.
      * by apply read_blocks_splice.
    + intros l' b' Hr'. cbn. by do 2 apply read_block_splice.
  - eexists. split; [reflexivity|].
    split; [|split; [done|split; [done|split; [done|split; [done|]]]]].
    + cbn [env heap pass write_heap upd_env set_heap].
      rewrite (read_blocks_splice _ _ (pre ++ b :: body ++ endifb :: post) _ _) by done.
      f_equal. apply splice_range.
    + intros l' b' Hr'. cbn. by apply read_block_splice.
Qed.

Lemma if_splice_witness :
  ∃ st',
    Engine.if_splice small_host 1 (JBool true) nested_begin = Ret 1%nat st'
    ∧ read_blocks (heap (env st')) (scan_outputBlocks (pass st'))
      = Some [ mk_block Ttext "a"; mk_block Ttext "x"; mk_block Tif "false";
               mk_block Ttext "y"; mk_block Tendif "endif"; mk_block Ttext "z";
               mk_block Ttext "c" ].
Proof.
  destruct (if_splice_on_a_balanced_body small_host nested_begin
              [mk_block Ttext "a"] (mk_block Tif "true")
              [mk_block Ttext "x"; mk_block Tif "false"; mk_block Ttext "y";
               mk_block Tendif "endif"; mk_block Ttext "z"]
              (mk_block Tendif "endif") [mk_block Ttext "c"] (JBool true))
    as (st' & Hrun & Hblocks & _).
  - exact small_host_finds_matching_endif.
  - vm_compute. reflexivity.
  - reflexivity.
  - apply balanced_plain; [discriminate | discriminate |].
    apply (balanced_if (mk_block Tif "false") [mk_block Ttext "y"]
             (mk_block Tendif "endif") [mk_block Ttext "z"]); try reflexivity.
    + apply balanced_plain; [discriminate | discriminate | apply balanced_nil].
    + apply balanced_plain; [discriminate | discriminate | apply balanced_nil].
  - exists st'. split; [exact Hrun | exact Hblocks].
Defined.

(** [evalCode] of the current provider never returns: whatever the code and
    the runtime, the method is left by an error. *)
Lemma evalCode_throws (R : Runtime) code vars st :
  ∃ error, (Engine.evalCode R code vars st).1 = inr error.
Proof.
  unfold Engine.evalCode. destruct code; try by eexists.
  destruct (direct_eval R _ _) as [[?|?] ?]; by eexists.
Qed.

(** On a host whose expressions only compute, [evalCode] changes the random
    indexes that are left, the global object and the events, and nothing
    else. *)
Lemma evalCode_store (H : Host) code vars st :
  heap (env (Engine.evalCode H code vars st).2) = heap (env st)
  ∧ pass (Engine.evalCode H code vars st).2 = pass st
  ∧ this (Engine.evalCode H code vars st).2 = this st
  ∧ closure (Engine.evalCode H code vars st).2 = closure st
  ∧ inputs (env (Engine.evalCode H code vars st).2) = inputs (env st)
  ∧ clock (env (Engine.evalCode H code vars st).2) = clock (env st)
  ∧ events (env (Engine.evalCode H code vars st).2) = events (env st) ++ eval_alerts H code vars st.
Proof.
  unfold eval_alerts. destruct code; try (by rewrite app_nil_r).
  rewrite evalCode_global. by destruct (js_eval H _ _); simpl; rewrite ?app_nil_r.
Qed.

(** An 'if' block ends the call of the current provider, whatever its
    condition is.  [evalCode] throws after the evaluation and the [catch] of
    case 'if' completes the observer and returns: the observer gets no scan
    from this run, no block is removed or written to, and the 'Error' alert
    is shown only when [eval] itself has failed. *)
Theorem if_block_ends_the_call (H : Host) (passes n fuel : nat)
    (st_begin stg st0 st : State) (i : nat) (l : loc) (b : OutputBlockModel) :
  _scanCallId (closure st_begin) = this_scanCallId (this st_begin) →
  Engine.infinite_loop_guard st_begin = Ret () stg →
  Engine.start_pass stg = Ret () st0 →
  Engine.iterate H n 0 st0 = Some (i, st) →
  Engine.block_at st i = Some (l, b) →
  type b = Tif →
  ∃ st', Engine.again H (S passes) (n + S fuel) st_begin = (Completed, st')
         ∧ emitted (events_since st_begin st') = []
         ∧ heap (env st') = heap (env st)
         ∧ events (env st')
           = events (env st) ++ eval_alerts H (value b) (variables (pass st)) st ++ [EComplete].
Proof.
  intros Hid Hg Hs Hit Hb Ht.
  pose proof (iterate_run H n (S fuel) 0 st0 i st Hit) as Hrun.
  rewrite (run_blocks_step H _ _ _ _ _ Hb) in Hrun.
  unfold Engine.exec_block in Hrun. rewrite Ht in Hrun.
  cbv beta iota zeta in Hrun.
  match type of Hrun with
  | context [Engine.evalCode _ ?c ?v ?s] =>
      destruct (evalCode_throws H c v s) as [error He];
      destruct (evalCode_store H c v s) as (Hh & _ & _ & _ & _ & _ & Hev);
      destruct (Engine.evalCode H c v s) as [r st1]
  end.
  simpl in He, Hh, Hev. subst r. unfold Engine.complete in Hrun.
  eexists. split; [|split; [|split]].
  - eapply again_pass_exit; eauto.
  - eapply again_pass_exit; eauto.
  - simpl. by rewrite Hh.
  - simpl. rewrite Hev. unfold eval_alerts. simpl. by rewrite <- app_assoc.
Qed.

Lemma if_block_ends_the_call_witness :
  ∃ st', Engine.again small_host 1 20 (small_state single nested_profile [] ∅) = (Completed, st')
         ∧ emitted (events (env st')) = []
         ∧ events (env st') = [EComplete].
Proof.
  destruct (if_block_ends_the_call small_host 0 1 18 (small_state single nested_profile [] ∅)
              (small_state single nested_profile [] ∅) nested_begin
              (state_of (Engine.run_blocks small_host 1 0 nested_begin)) 1 11%nat
              (mk_block Tif "true"))
    as (st' & Hrun & Hnone & _ & Hev).
  - reflexivity.
  - reflexivity.
  - reflexivity.
  - reflexivity.
  - vm_compute. reflexivity.
  - reflexivity.
  - exists st'. split; [exact Hrun|]. split; [exact Hnone | exact Hev].
Defined.

(** ** The 'if' block in the two providers *)

(** C1 at the failing inputs.  In the draft, [acquireScan] passes the index
    of the 'endif' to [splice] as the number of blocks to remove and does not
    step the index back: with a false 'if' at index 2 and its 'endif' at
    index 4 it removes four blocks, the block "c" after the 'endif' among
    them, and the scan has the blocks a, b, d; with a true 'if' it leaves
    both markers in the scan.  In the current provider no 'if' gets as far as
    the removal: the call completes the observer without a scan, for the
    false 'if' and for a true one. *)
Lemma C1_if_blocks_at_the_failing_inputs :
  let st := small_state single draft_profile [] ∅ in
  let kept :=
    small_state single
      [ mk_block Ttext "a"; mk_block Tif "true"; mk_block Ttext "x";
        mk_block Tendif "endif"; mk_block Ttext "c" ] [] ∅ in
  FindEndIfIndex small_host draft_profile 3 = 4
  ∧ values_of (emitted (events (env (Draft.acquireScan small_host 20 st).2)))
    = [[JStr "a"; JStr "b"; JStr "d"]]
  ∧ values_of (emitted (events (env (Draft.acquireScan small_host 20
       (small_state single [mk_block Tif "true"; mk_block Ttext "x"; mk_block Tendif "endif"]
          [] ∅)).2)))
    = [[JStr "true"; JStr "x"; JStr "endif"]]
  ∧ (Engine.again small_host 1 20 st).1 = Completed
  ∧ events (env (Engine.again small_host 1 20 st).2) = [EComplete]
  ∧ (Engine.again small_host 1 20 kept).1 = Completed
  ∧ events (env (Engine.again small_host 1 20 kept).2) = [EComplete].
Proof. vm_compute. repeat split. Qed.

(** After the removal the draft goes to the next index: the block that took
    the place of the 'if' is skipped.  Here it is a 'function' block, which
    keeps its code as value. *)
Lemma draft_skips_the_block_after_the_range :
  let st := small_state single
              [ mk_block Ttext "a"; mk_block Tif "false"; mk_block Ttext "x";
                mk_block Tendif "endif"; mk_block Tfunction "true" ] [] ∅ in
  values_of (emitted (events (env (Draft.acquireScan small_host 20 st).2)))
  = [[JStr "a"; JStr "true"]].
Proof. vm_compute. repeat split. Qed.

(** In the draft the rejection of the quantity prompt is not caught: the
    callback of [acquireScan] is left by the exception and the observer is
    neither completed nor given a scan. *)
Lemma draft_quantity_cancel_is_not_caught :
  let st := small_state single [mk_block Tvariable "quantity"]
              [answer (RQuantity QCancel)] ∅ in
  let r := Draft.acquireScan small_host 20 st in
  r.1 = Threw "cancelled"
  ∧ events (env r.2) = [EQuantityDialog "Enter quantity value" "text"].
Proof. vm_compute. repeat split. Qed.

(** ** The loop ends on balanced profiles *)







Lemma mapM_same_types (f g : loc → option OutputBlockModel) ls :
  (∀ l, type <$> g l = type <$> f l) →
  (λ bs : list OutputBlockModel, type <$> bs) <$> mapM g ls
  = (λ bs : list OutputBlockModel, type <$> bs) <$> mapM f ls.
Proof.
  intros Hfg. induction ls as [|l ls IH]; [done|].
  simpl. specialize (Hfg l).
  destruct (f l) as [x|], (g l) as [y|]; simplify_eq/=; try done.
  destruct (mapM f ls) as [xs|], (mapM g ls) as [ys|]; simplify_eq/=; try done.
  by do 2 f_equal.
Qed.

Lemma types_of_same st st' :
  heap (env st') = heap (env st) →
  scan_outputBlocks (pass st') = scan_outputBlocks (pass st) →
  types_of st' = types_of st.
Proof. unfold types_of. by intros -> ->. Qed.

Lemma types_of_set_block_value l v st :
  types_of (Engine.set_block_value l v st) = types_of st.
Proof.
  unfold types_of, Engine.set_block_value, write_heap, write_value. simpl.
  destruct (heap (env st) !! l) as [[b|ls]|] eqn:E; try done.
  unfold read_blocks, read_array.
  destruct (decide (scan_outputBlocks (pass st) = l)) as [->|Hne].
  - rewrite E, list_lookup_insert_eq by (by eapply lookup_lt_Some). done.
  - rewrite list_lookup_insert_ne by done.
    destruct (heap (env st) !! scan_outputBlocks (pass st)) as [[b'|ls]|]; try done.
    simpl. apply mapM_same_types. intros l'. unfold read_block.
    destruct (decide (l' = l)) as [->|Hne'].
    + rewrite E, list_lookup_insert_eq by (by eapply lookup_lt_Some). done.
    + by rewrite list_lookup_insert_ne.
Qed.

Lemma same_types_refl st : same_types st st.
Proof. done. Qed.

Lemma same_types_same st0 st st' :
  heap (env st') = heap (env st) →
  scan_outputBlocks (pass st') = scan_outputBlocks (pass st) →
  same_types st0 st → same_types st0 st'.
Proof. unfold same_types. intros Hh Hp <-. by apply types_of_same. Qed.

Lemma same_types_emit st0 e st : same_types st0 st → same_types st0 (emit e st).
Proof. by apply same_types_same. Qed.

Lemma same_types_upd_this st0 f st : same_types st0 st → same_types st0 (upd_this f st).
Proof. by apply same_types_same. Qed.

Lemma same_types_upd_closure st0 f st :
  same_types st0 st → same_types st0 (upd_closure f st).
Proof. by apply same_types_same. Qed.

Lemma same_types_upd_pass st0 f st :
  (∀ p, scan_outputBlocks (f p) = scan_outputBlocks p) →
  same_types st0 st → same_types st0 (upd_pass f st).
Proof. intros Hf. apply same_types_same; [done|]. apply Hf. Qed.

Lemma same_types_resume st0 a rest st :
  same_types st0 st → same_types st0 (resume a rest st).
Proof. apply same_types_same; [apply resume_heap | by rewrite resume_pass]. Qed.

Lemma same_types_getRandomInt st0 st :
  same_types st0 st → same_types st0 (Engine.getRandomInt st).2.
Proof. by apply same_types_same. Qed.

Lemma same_types_set_block_value st0 l v st :
  same_types st0 st → same_types st0 (Engine.set_block_value l v st).
Proof. unfold same_types. intros <-. apply types_of_set_block_value. Qed.

Ltac same_types_step :=
  first
    [ assumption
    | apply same_types_refl
    | apply same_types_emit
    | apply same_types_upd_this
    | apply same_types_upd_closure
    | apply same_types_upd_pass; [intros; reflexivity|]
    | apply same_types_set_block_value
    | apply same_types_resume
    | apply same_types_getRandomInt ].

Ltac solve_same_types := repeat same_types_step.

Lemma getQuantity_same_types st0 label st :
  same_types st0 st → after (same_types st0) (Engine.getQuantity label st).
Proof.
  intros Hs. unfold Engine.getQuantity, await. simpl.
  repeat case_match; simplify_eq/=; solve_same_types.
Qed.

Lemma showSelectOption_same_types st0 csv st :
  same_types st0 st → after (same_types st0) (Engine.showSelectOption csv st).
Proof.
  intros Hs. unfold Engine.showSelectOption, await. simpl.
  repeat case_match; simplify_eq/=; solve_same_types.
Qed.

Lemma getBarcode_same_types (H : Host) st0 label st :
  same_types st0 st → after (same_types st0) (Engine.getBarcode H label st).
Proof.
  intros Hs. unfold Engine.getBarcode, Engine.settle_barcode, await. simpl.
  repeat case_match; simplify_eq/=; solve_same_types.
Qed.

Lemma evalCode_same_types (H : Host) st0 code vars st :
  same_types st0 st → same_types st0 (Engine.evalCode H code vars st).2.
Proof.
  intros Hs. unfold Engine.evalCode.
  repeat case_match; simplify_eq/=; solve_same_types.
Qed.

(** A block that is no 'if' leaves the array as it is and the types of its
    blocks as they are, and the loop goes to the next index. *)
Lemma exec_block_plain (H : Host) i l b st :
  type b ≠ Tif → to_next_index i st (Engine.exec_block H i l b st).
Proof.
  intros Hif. unfold Engine.exec_block, Engine.if_splice, Engine.complete.
  destruct (type b); simpl; try done; try solve [split; [done|solve_same_types]].
  - repeat (case_match; simpl; try done; try solve [split; [done|solve_same_types]]).
    all: match goal with
         | E : Engine.getQuantity ?l ?s = _ |- _ =>
             pose proof (getQuantity_same_types st l s ltac:(solve_same_types)) as Hg;
             rewrite E in Hg; simpl in Hg
         end; split; [done|solve_same_types].
  - match goal with
    | |- context [Engine.showSelectOption ?c ?s] =>
        pose proof (showSelectOption_same_types st c s ltac:(solve_same_types)) as Hg;
        destruct (Engine.showSelectOption c s); simpl in *; [|done];
        split; [done|solve_same_types]
    end.
  - match goal with
    | |- context [Engine.evalCode _ ?c ?v ?s] =>
        pose proof (evalCode_same_types H st c v s ltac:(solve_same_types)) as Hg;
        destruct (Engine.evalCode H c v s) as [[?|?] ?]; simpl in *;
        split; try done; solve_same_types
    end.
  - match goal with
    | |- context [Engine.getBarcode _ ?l ?s] =>
        pose proof (getBarcode_same_types H st l s ltac:(solve_same_types)) as Hg;
        destruct (Engine.getBarcode H l s) as [[?|?] ?|]; simpl in *;
        repeat case_match; simpl; try done; split; try done; solve_same_types
    end.
Qed.






(** ** The output profile of the provider *)

(** [getOutputProfile(i)] on a list of profiles that is not empty, for an
    index that is not negative: the profile at the index, and the last one
    when the index is beyond the end.  There is always one. *)
Theorem getOutputProfile_clamps (profiles : list loc) (i : Z) :
  profiles ≠ [] → 0 ≤ i →
  Engine.getOutputProfile profiles i
  = profiles !! Z.to_nat (Z.min i (Z.of_nat (length profiles) - 1))
  ∧ is_Some (Engine.getOutputProfile profiles i).
Proof.
  intros Hne Hi. unfold Engine.getOutputProfile.
  assert (0 < Z.of_nat (length profiles)) as Hlen by (destruct profiles; [done|simpl; lia]).
  destruct (Z.geb_spec i (Z.of_nat (length profiles))) as [Hge|Hlt].
  - rewrite (proj2 (Z.ltb_ge _ _)) by lia. rewrite Z.min_r by lia.
    split; [done|]. apply lookup_lt_is_Some. lia.
  - rewrite (proj2 (Z.ltb_ge _ _)) by lia. rewrite Z.min_l by lia.
    split; [done|]. apply lookup_lt_is_Some. lia.
Qed.

Lemma getOutputProfile_clamps_witness :
  Engine.getOutputProfile [4; 9]%nat 7 = Some 9%nat
  ∧ is_Some (Engine.getOutputProfile [4; 9]%nat 7).
Proof. apply (getOutputProfile_clamps [4; 9]%nat 7); [discriminate | lia]. Defined.

(** The guard of [getOutputProfile] does not cover an empty list of profiles
    or a negative index: the promise resolves to [undefined]. *)
Theorem getOutputProfile_undefined (profiles : list loc) (i : Z) :
  profiles = [] ∨ i < 0 → Engine.getOutputProfile profiles i = None.
Proof.
  intros Hor. unfold Engine.getOutputProfile.
  destruct (Z.geb_spec i (Z.of_nat (length profiles))) as [Hge|Hlt];
    match goal with |- context [?a <? 0] => destruct (Z.ltb_spec a 0) as [Hn|Hn] end;
    try done.
  - destruct Hor as [-> | Hi]; simpl in *; lia.
  - destruct Hor as [-> | Hi]; simpl in *; lia.
Qed.

Lemma getOutputProfile_undefined_witness :
  Engine.getOutputProfile [] 0 = None.
Proof. apply getOutputProfile_undefined. by left. Defined.

(** ** The promise of [getBarcode] *)

(** [getBarcode] raises [awaitingForBarcode] and lowers it when the promise is
    settled, resolved or rejected, in every mode; while the promise is
    pending the flag is up. *)
Theorem getBarcode_awaiting_flag (H : Host) (label : option string) (st : State) :
  awaiting_while_pending (Engine.getBarcode H label st).
Proof.
  unfold Engine.getBarcode, Engine.settle_barcode, await, resume, new_scan_call.
  simpl. repeat case_match; simplify_eq/=; rewrite ?fire_timers_this; done.
Qed.

Lemma scanner_calls_app evs1 evs2 :
  scanner_calls (evs1 ++ evs2) = scanner_calls evs1 ++ scanner_calls evs2.
Proof. unfold scanner_calls. apply omap_app. Qed.

(** In the 'continue' mode the plugin is subscribed to once: [getBarcode]
    calls [barcodeScanner.scan] only when the provider holds no subscription,
    and keeps the subscription when a barcode comes.  When the user leaves
    the scanner the subscription is dropped, so that the next call subscribes
    again, and the promise is rejected without a reason. *)
Theorem getBarcode_continue_subscription (H : Host) (label : option string) (st : State)
    (a : Answer) (rest : list Answer) (r : option BarcodeScanResult.t) :
  acqusitionMode (this st) = continue →
  inputs (env st) = a :: rest →
  reply a = RScan r →
  ∃ res st',
    Engine.getBarcode H label st = Ret res st'
    ∧ (if is_cancel r then res = inr JUndefined else ∃ text, res = inl text)
    ∧ scanner_calls (events_since st st')
      = (if continuosScanSubscription (this st) then [] else [pluginOptions (this st)])
    ∧ continuosScanSubscription (this st') = negb (is_cancel r)
    ∧ (EUnsubscribe ∈ events_since st st' ↔ is_cancel r = true).
Proof.
  intros Hm Hin Hr. unfold Engine.getBarcode, Engine.settle_barcode. simpl.
  rewrite Hm. unfold await, events_since.
  destruct (continuosScanSubscription (this st)) eqn:Hsub; simpl; rewrite Hin, Hr;
    unfold resume, new_scan_call;
    destruct r as [res|]; simpl; [destruct (BarcodeScanResult.cancelled res) eqn:Hc| |
                                  destruct (BarcodeScanResult.cancelled res) eqn:Hc|];
    destruct (rescan a); simpl;
    eexists _, _; (split; [reflexivity|]); simpl;
    rewrite ?fire_timers_this, ?fire_timers_env; simpl;
    rewrite ?Hsub, <- ?app_assoc, ?drop_app_length, ?drop_all; simpl;
    repeat split; eauto; try done;
    rewrite ?elem_of_cons, ?elem_of_nil; try tauto; intros; intuition congruence.
Qed.

Lemma getBarcode_continue_subscription_witness :
  let st := small_state continue [] [answer (RScan (Some (code39 "123")))] ∅ in
  ∃ res st',
    Engine.getBarcode small_host None st = Ret res st'
    ∧ (∃ text, res = inl text)
    ∧ scanner_calls (events_since st st') = [small_options]
    ∧ continuosScanSubscription (this st') = true.
Proof.
  intros st.
  destruct (getBarcode_continue_subscription small_host None st
              (answer (RScan (Some (code39 "123")))) [] (Some (code39 "123")))
    as (res & st' & Hg & Hres & Hcalls & Hsub & _); [reflexivity..|].
  exists res, st'. repeat split; assumption.
Defined.

(** In the 'manual' mode the promise of [getBarcode] is never rejected; the
    text that is submitted is resolved as it is typed, the plugin is not
    called and the keyboard input gets the label as its placeholder. *)
Theorem getBarcode_manual (H : Host) (label : option string) (st : State) :
  acqusitionMode (this st) = manual →
  (∀ reason st', Engine.getBarcode H label st ≠ Ret (inr reason) st')
  ∧ (∀ a rest s, inputs (env st) = a :: rest → reply a = RSubmit s →
       ∃ st', Engine.getBarcode H label st = Ret (inl s) st'
              ∧ head (events_since st st') = Some (EKeyboardInput label)
              ∧ scanner_calls (events_since st st') = []).
Proof.
  intros Hm. split.
  - intros reason st'. unfold Engine.getBarcode, Engine.settle_barcode. simpl.
    rewrite Hm. repeat case_match; done.
  - intros a rest s Hin Hr. unfold Engine.getBarcode, Engine.settle_barcode. simpl.
    rewrite Hm. unfold await, events_since. simpl. rewrite Hin, Hr.
    eexists. split; [reflexivity|]. unfold resume, new_scan_call.
    destruct (rescan a); simpl; rewrite ?fire_timers_env; simpl;
      rewrite <- ?app_assoc, ?drop_app_length; done.
Qed.

Lemma getBarcode_manual_witness :
  let st := small_state manual [] [answer (RSubmit "123")] ∅ in
  ∃ st', Engine.getBarcode small_host (Some "Item") st = Ret (inl "123") st'
         ∧ head (events_since st st') = Some (EKeyboardInput (Some "Item")).
Proof.
  intros st.
  destruct (getBarcode_manual small_host (Some "Item") st eq_refl) as [_ Hsubmit].
  destruct (Hsubmit (answer (RSubmit "123")) [] "123" eq_refl eq_refl)
    as (st' & Hg & Hhead & _).
  exists st'. split; assumption.
Defined.

(** ** The options of the select alert *)

Lemma split_on_cons sep s : ∃ piece pieces, split_on sep s = piece :: pieces.
Proof.
  induction s as [|c s (piece & pieces & IH)]; simpl; [by eexists _, _|].
  destruct (Ascii.eqb c sep); [by eexists _, _|].
  rewrite IH. by eexists _, _.
Qed.

Lemma join_split_on sep s : join (String sep EmptyString) (split_on sep s) = s.
Proof.
  induction s as [|c s IH]; [done|]. simpl.
  destruct (split_on_cons sep s) as (piece & pieces & Hs). rewrite Hs in *.
  destruct (Ascii.eqb_spec c sep) as [->|Hne].
  - change (join (String sep "") ("" :: piece :: pieces))
      with ("" +:+ String sep "" +:+ join (String sep "") (piece :: pieces)).
    by rewrite IH.
  - destruct pieces as [|p ps].
    + simpl in *. by rewrite IH.
    + change (join (String sep "") (String c piece :: p :: ps))
        with (String c (piece +:+ String sep "" +:+ join (String sep "") (p :: ps))).
      change (join (String sep "") (piece :: p :: ps))
        with (piece +:+ String sep "" +:+ join (String sep "") (p :: ps)) in IH.
      by rewrite IH.
Qed.

Lemma split_on_no_sep sep s : Forall (λ piece, has_char sep piece = false) (split_on sep s).
Proof.
  induction s as [|c s IH]; simpl; [by repeat constructor|].
  destruct (Ascii.eqb_spec c sep) as [->|Hne].
  - by constructor.
  - destruct (split_on sep s) as [|piece pieces]; simpl.
    + repeat constructor. simpl. by rewrite (proj2 (Ascii.eqb_neq _ _) Hne).
    + inversion IH as [|? ? Hp Hps]; subst. constructor; [|done]. simpl.
      by rewrite (proj2 (Ascii.eqb_neq _ _) Hne).
Qed.

(** The alert of [showSelectOption] always offers an option, also for an
    empty list; the first option is checked and no other; the labels are the
    pieces of the list between its commas, so that joined by commas they give
    the list back, and the value of every option is its label. *)
Theorem showSelectOption_inputs_spec (csvSelectOptions : string) :
  let inputs := showSelectOption_inputs csvSelectOptions in
  join "," (AlertInputOptions.label <$> inputs) = csvSelectOptions
  ∧ Forall (λ input, has_char comma (AlertInputOptions.label input) = false
                     ∧ AlertInputOptions.value input = AlertInputOptions.label input
                     ∧ AlertInputOptions.type input = "radio") inputs
  ∧ ∃ first others,
      inputs = first :: others
      ∧ AlertInputOptions.checked first = Some true
      ∧ Forall (λ input, AlertInputOptions.checked input = None) others.
Proof.
  intros inputs. subst inputs. unfold showSelectOption_inputs.
  split; [|split].
  - rewrite fmap_imap. simpl.
    rewrite (imap_ext _ (const id) (split_on comma csvSelectOptions)) by done.
    rewrite imap_const, list_fmap_id. apply (join_split_on comma).
  - apply Forall_lookup. intros i input Hi.
    rewrite list_lookup_imap in Hi.
    destruct (split_on comma csvSelectOptions !! i) as [piece|] eqn:Hp; [|done].
    simpl in Hi. injection Hi as <-. simpl. split; [|done].
    by apply (Forall_lookup_1 _ _ _ _ (split_on_no_sep comma csvSelectOptions) Hp).
  - destruct (split_on_cons comma csvSelectOptions) as (piece & pieces & ->).
    rewrite imap_cons. eexists _, _. split; [reflexivity|]. split; [done|].
    apply Forall_lookup. intros i input Hi.
    rewrite list_lookup_imap in Hi.
    destruct (pieces !! i); [|done]. simpl in Hi. by injection Hi as <-.
Qed.

(** ** The countdown of the add-more alert *)

Lemma AddMore_run_cons expired x xs a :
  AddMore.run expired (x :: xs) a = AddMore.run expired xs (AddMore.act expired a x).
Proof. done. Qed.

Lemma AddMore_run_app expired xs ys a :
  AddMore.run expired (xs ++ ys) a = AddMore.run expired ys (AddMore.run expired xs a).
Proof. unfold AddMore.run. apply foldl_app. Qed.

(** Once the promise is settled and the interval cleared, nothing changes. *)
Lemma AddMore_settled_stays expired xs : ∀ a b,
  AddMore.promise a = Some b → AddMore.interval a = false →
  let a' := AddMore.run expired xs a in
  AddMore.promise a' = Some b ∧ AddMore.interval a' = false
  ∧ AddMore.subTitles a' = AddMore.subTitles a
  ∧ AddMore.dismissed a' = AddMore.dismissed a.
Proof.
  induction xs as [|x xs IH]; intros a b Hp Hi; [done|].
  cbv zeta. rewrite AddMore_run_cons.
  assert (AddMore.promise (AddMore.act expired a x) = Some b
          ∧ AddMore.interval (AddMore.act expired a x) = false
          ∧ AddMore.subTitles (AddMore.act expired a x) = AddMore.subTitles a
          ∧ AddMore.dismissed (AddMore.act expired a x) = AddMore.dismissed a)
    as (Hp' & Hi' & Hs' & Hd').
  { destruct x; unfold AddMore.act, AddMore.callback, AddMore.Stop, AddMore.Continue;
      simpl; rewrite ?Hi, ?Hp; done. }
  destruct (IH _ _ Hp' Hi') as (? & ? & ? & ?). simpl in *.
  repeat split; congruence.
Qed.

Lemma AddMore_ticks (k : nat) : ∀ a,
  AddMore.interval a = true → AddMore.promise a = None → AddMore.dismissed a = false →
  let n := AddMore.ticks_to_expire (AddMore.timeoutSeconds a) in
  let a' := AddMore.run AddMore.expired (replicate k AddMore.Tick) a in
  AddMore.promise a' = (if decide (n ≤ k)%nat then Some true else None)
  ∧ AddMore.dismissed a' = bool_decide (n ≤ k)%nat
  ∧ AddMore.interval a' = bool_decide (k < n)%nat
  ∧ length (AddMore.subTitles a') = (length (AddMore.subTitles a) + k `min` n)%nat.
Proof.
  induction k as [|k IH]; intros a Hi Hp Hd n a'.
  - subst a' n. simpl. rewrite Hi, Hp, Hd.
    destruct (AddMore.timeoutSeconds a); simpl; repeat split; try done; lia.
  - subst a'. simpl replicate. rewrite AddMore_run_cons.
    unfold AddMore.act, AddMore.callback. rewrite Hi. simpl.
    destruct (AddMore.expired (AddMore.timeoutSeconds a)) eqn:He.
    + assert (n = 1%nat) as Hn.
      { subst n. unfold AddMore.expired in He.
        destruct (AddMore.timeoutSeconds a) as [z| | |]; simpl in *; try done.
        destruct (Z.eqb_spec z 0), (Z.leb_spec z 0); simpl in *; try done; lia. }
      match goal with |- context [AddMore.run _ _ ?x] =>
        destruct (AddMore_settled_stays AddMore.expired (replicate k AddMore.Tick) x true)
          as (E1 & E2 & E3 & E4)
      end; [simpl; by rewrite Hp | done |].
      simpl in *. rewrite E1, E2, E3, E4, Hn, length_app. simpl.
      rewrite ?decide_True by lia.
      rewrite ?bool_decide_eq_true_2 by lia. rewrite ?bool_decide_eq_false_2 by lia.
      repeat split; try done; lia.
    + destruct (AddMore.timeoutSeconds a) as [z| | |] eqn:Hs; simpl in He; try done.
      unfold AddMore.expired in He. simpl in He.
      destruct (Z.eqb_spec z 0), (Z.leb_spec z 0); simpl in He; try done.
      match goal with |- context [AddMore.run _ _ ?x] =>
        destruct (IH x) as (E1 & E2 & E3 & E4)
      end; [done..|].
      simpl in *. rewrite Hs in *. simpl in *.
      assert (S (Z.to_nat (z - 1)) = Z.to_nat z) as Hz by lia.
      rewrite Hz in *. subst n. simpl.
      rewrite E1, E2, E3, E4, length_app. simpl.
      repeat split.
      * repeat case_decide; try done; lia.
      * apply bool_decide_ext. lia.
      * apply bool_decide_ext. lia.
      * lia.
Qed.

(** Without a button pressed, the add-more alert of the current provider
    resolves to [true] at the tick at which the countdown expires, and not
    before: the first tick for a timeout that is 0, negative, [null] or
    [undefined], and the tick [n + 1] for [n] seconds, since the callback
    first shows the seconds that are left and then tests them.  The alert is
    dismissed and the interval cleared then, and the subtitle is set once at
    every tick up to that one. *)
Theorem showAddMoreDialog_countdown (timeoutSeconds : Seconds) (k : nat) :
  let n := AddMore.ticks_to_expire timeoutSeconds in
  let a := AddMore.run AddMore.expired (replicate k AddMore.Tick)
             (AddMore.present timeoutSeconds) in
  AddMore.promise a = (if decide (n ≤ k)%nat then Some true else None)
  ∧ AddMore.dismissed a = bool_decide (n ≤ k)%nat
  ∧ AddMore.interval a = bool_decide (k < n)%nat
  ∧ length (AddMore.subTitles a) = (k `min` n)%nat.
Proof.
  intros n a.
  destruct (AddMore_ticks k (AddMore.present timeoutSeconds) eq_refl eq_refl eq_refl)
    as (E1 & E2 & E3 & E4).
  repeat split; assumption.
Qed.

(** A button pressed before the countdown expires settles the promise, with
    [true] for 'Continue' and [false] for 'Stop', and clears the interval:
    whatever comes later, ticks or buttons, the promise keeps its value and
    the subtitle is not set again. *)
Theorem showAddMoreDialog_button_settles (timeoutSeconds : Seconds) (k : nat)
    (b : bool) (later : list AddMore.Action) :
  (k < AddMore.ticks_to_expire timeoutSeconds)%nat →
  let press := if b then AddMore.PressContinue else AddMore.PressStop in
  let a := AddMore.run AddMore.expired
             (replicate k AddMore.Tick ++ press :: later) (AddMore.present timeoutSeconds) in
  AddMore.promise a = Some b
  ∧ AddMore.interval a = false
  ∧ length (AddMore.subTitles a) = k.
Proof.
  intros Hk press a. subst a. rewrite AddMore_run_app, AddMore_run_cons.
  destruct (AddMore_ticks k (AddMore.present timeoutSeconds) eq_refl eq_refl eq_refl)
    as (E1 & E2 & E3 & E4). simpl in E1, E2, E3, E4.
  rewrite decide_False in E1 by lia.
  set (a0 := AddMore.run AddMore.expired (replicate k AddMore.Tick)
               (AddMore.present timeoutSeconds)) in *.
  destruct (AddMore_settled_stays AddMore.expired later (AddMore.act AddMore.expired a0 press) b)
    as (F1 & F2 & F3 & _).
  - subst press. destruct b; simpl; by rewrite E1.
  - subst press. by destruct b.
  - simpl in *. rewrite F1, F2, F3. repeat split.
    subst press. destruct b; simpl; rewrite E4; lia.
Qed.

Lemma showAddMoreDialog_button_settles_witness :
  AddMore.promise (AddMore.run AddMore.expired
                     [AddMore.Tick; AddMore.PressStop; AddMore.Tick; AddMore.PressContinue]
                     (AddMore.present (SNum 5))) = Some false.
Proof.
  apply (showAddMoreDialog_button_settles (SNum 5) 1 false
           [AddMore.Tick; AddMore.PressContinue]).
  simpl. lia.
Defined.

Lemma AddMore_draft_ticks (k : nat) : ∀ a,
  AddMore.interval a = true → AddMore.promise a = None →
  AddMore.promise (AddMore.run AddMore.draft_expired (replicate k AddMore.Tick) a) = Some true
  ↔ ∃ n, AddMore.timeoutSeconds a = SNum n ∧ 0 ≤ n ∧ (Z.to_nat n < k)%nat.
Proof.
  induction k as [|k IH]; intros a Hi Hp.
  - simpl. rewrite Hp. split; [done|]. intros (n & _ & _ & Hn). lia.
  - simpl replicate. rewrite AddMore_run_cons.
    unfold AddMore.act, AddMore.callback. rewrite Hi. simpl.
    change (AddMore.draft_expired (AddMore.timeoutSeconds a))
      with (Seconds_eq0 (AddMore.timeoutSeconds a)).
    destruct (AddMore.timeoutSeconds a) as [z| | |] eqn:Hs; simpl.
    + destruct (Z.eqb_spec z 0) as [->|Hz].
      * match goal with |- context [AddMore.run _ _ ?x] =>
          destruct (AddMore_settled_stays AddMore.draft_expired
                      (replicate k AddMore.Tick) x true) as (E1 & _)
        end; [simpl; by rewrite Hp | done |].
        simpl in E1. rewrite E1. split; [|done]. intros _. exists 0. repeat split; [lia..].
      * rewrite IH by done. simpl. rewrite Hs. simpl. split.
        -- intros (n & [= <-] & Hn & Hk). exists z. repeat split; lia.
        -- intros (n & [= <-] & Hn & Hk). exists (z - 1). repeat split; lia.
    + rewrite IH by done. simpl. rewrite Hs. simpl. split.
      * intros (n & [= <-] & Hn & Hk). lia.
      * intros (n & Hn & _). done.
    + rewrite IH by done. simpl. rewrite Hs. simpl. split.
      * intros (n & Hn & _). done.
      * intros (n & Hn & _). done.
    + rewrite IH by done. simpl. rewrite Hs. simpl. split.
      * intros (n & Hn & _). done.
      * intros (n & Hn & _). done.
Qed.

(** The countdown of the draft tests [timeoutSeconds == 0]: without a button
    pressed the promise resolves to [true] exactly when the timeout is a
    number [n] that is not negative, at the tick [n + 1].  For a negative
    timeout, [null] or [undefined] the countdown never expires. *)
Theorem draft_showAddMoreDialog_countdown (timeoutSeconds : Seconds) (k : nat) :
  AddMore.promise (AddMore.run AddMore.draft_expired (replicate k AddMore.Tick)
                     (AddMore.present timeoutSeconds)) = Some true
  ↔ ∃ n, timeoutSeconds = SNum n ∧ 0 ≤ n ∧ (Z.to_nat n < k)%nat.
Proof. by apply (AddMore_draft_ticks k (AddMore.present timeoutSeconds)). Qed.

(** ** Code that names no variable *)

Lemma replace_go_absent pat repl s : occurs pat s = false → replace_go pat repl 0 s = s.
Proof.
  induction s as [|c s IH]; [done|].
  intros Ho. simpl in Ho. apply orb_false_elim in Ho as [Hp Ho].
  change (replace_go pat repl 0 (String c s))
    with (if is_prefix pat (String c s)
          then repl +:+ replace_go pat repl (String.length pat - 1) s
          else String c (replace_go pat repl 0 s)).
  rewrite Hp, IH; done.
Qed.

(** Code in which none of the names of the variables occurs reaches [eval] as
    it is written, in the current provider and in the draft, with the scratch
    object in the global object; the draft returns what [eval] gives for it,
    and the empty string when [eval] throws. *)
Theorem code_without_variable_names_is_not_rewritten (H : Host) (code : string)
    (vars : Variables) (dvars : Draft.Variables) (st : State) :
  (∀ key, key ∈ (entries vars).*1 → occurs key code = false) →
  let w o := <[pretty (hd 0 (randoms (env st))) := o]> (window (env st)) in
  Engine.eval_call code vars st = (w (Engine.scratch vars), code)
  ∧ Draft.eval_call code dvars st = (w (Draft.scratch dvars), code)
  ∧ (Draft.evalCode H (JStr code) dvars st).1
    = match js_eval H (w (Draft.scratch dvars)) code with
      | inl v => inl v
      | inr _ => inl (JStr "")
      end.
Proof.
  intros Hkeys w.
  assert (∀ key repl, key ∈ (entries vars).*1 → replace_all key repl code = code) as Hr.
  { intros key repl Hin. apply replace_go_absent. by apply Hkeys. }
  assert (Draft.eval_call code dvars st = (w (Draft.scratch dvars), code)) as Hd.
  { unfold Draft.eval_call, Draft.rewrite_code. simpl.
    rewrite !Hr by (simpl; set_solver). done. }
  split; [|split; [done|]].
  - unfold Engine.eval_call, Engine.rewrite_code. simpl.
    rewrite !Hr by (simpl; set_solver). done.
  - unfold Draft.evalCode, Draft.eval_scope. rewrite Hd. simpl.
    by destruct (js_eval H _ _).
Qed.

Lemma code_without_variable_names_witness :
  let st := small_state single [] [] ∅ in
  (Draft.evalCode small_host (JStr "true") (Draft.Build_Variables "" [] JNull) st).1
  = inl (JBool true).
Proof.
  intros st.
  destruct (code_without_variable_names_is_not_rewritten small_host "true"
              (variables (pass st)) (Draft.Build_Variables "" [] JNull) st)
    as (_ & _ & He).
  - intros key Hin. simpl in Hin.
    repeat (apply elem_of_cons in Hin as [->|Hin]; [reflexivity|]).
    by apply elem_of_nil in Hin.
  - rewrite He. reflexivity.
Defined.

(** ** What a run leaves as it is *)

Lemma untouched_refl st : untouched st st.
Proof. done. Qed.

Lemma untouched_trans st1 st2 st3 : untouched st1 st2 → untouched st2 st3 → untouched st1 st3.
Proof. unfold untouched. intros (-> & -> & ->) (-> & -> & ->). done. Qed.

Lemma untouched_same st0 st st' :
  setup st' = setup st → pass st' = pass st → heap (env st') = heap (env st) →
  untouched st0 st → untouched st0 st'.
Proof. unfold untouched. intros -> -> ->. done. Qed.

Lemma untouched_resume st0 a rest st : untouched st0 st → untouched st0 (resume a rest st).
Proof.
  apply untouched_same; [|apply resume_pass|apply resume_heap].
  unfold setup, resume, new_scan_call, fire_timers. by repeat case_match.
Qed.

Ltac untouched_step :=
  match goal with
  | |- untouched ?s ?s => apply untouched_refl
  | |- untouched _ (resume _ _ _) => apply untouched_resume
  | |- untouched _ (emit _ ?s) => apply (untouched_same _ s); [reflexivity..|]
  | |- untouched _ (upd_this _ ?s) => apply (untouched_same _ s); [reflexivity..|]
  | |- untouched _ (upd_env _ ?s) => apply (untouched_same _ s); [reflexivity..|]
  | |- untouched _ (Engine.getRandomInt ?s).2 => apply (untouched_same _ s); [reflexivity..|]
  end.

Ltac solve_untouched :=
  unfold await; simpl; repeat case_match; simplify_eq/=; repeat untouched_step.

Lemma getQuantity_untouched label st :
  untouched st (state_of (Engine.getQuantity label st)).
Proof. unfold Engine.getQuantity. solve_untouched. Qed.

Lemma showSelectOption_untouched csv st :
  untouched st (state_of (Engine.showSelectOption csv st)).
Proof. unfold Engine.showSelectOption. solve_untouched. Qed.

Lemma showPreventInfiniteLoopDialog_untouched st :
  untouched st (state_of (Engine.showPreventInfiniteLoopDialog st)).
Proof. unfold Engine.showPreventInfiniteLoopDialog. solve_untouched. Qed.

Lemma showAddMoreDialog_untouched t st :
  untouched st (state_of (Engine.showAddMoreDialog t st)).
Proof. unfold Engine.showAddMoreDialog. solve_untouched. Qed.

Lemma getBarcode_untouched (H : Host) label st :
  untouched st (state_of (Engine.getBarcode H label st)).
Proof. unfold Engine.getBarcode, Engine.settle_barcode. solve_untouched. Qed.

Lemma evalCode_untouched (H : Host) code vars st :
  untouched st (Engine.evalCode H code vars st).2.
Proof.
  destruct (evalCode_store H code vars st) as (Hh & Hp & Ht & Hc & _).
  unfold untouched, setup. by rewrite Hh, Hp, Ht, Hc.
Qed.

Lemma infinite_loop_guard_untouched st :
  untouched st (state_of (Engine.infinite_loop_guard st)).
Proof.
  unfold Engine.infinite_loop_guard, Engine.complete.
  destruct (againCount (closure st) >? 30); [|done].
  pose proof (showPreventInfiniteLoopDialog_untouched st) as Hu.
  destruct (Engine.showPreventInfiniteLoopDialog st) as [[] ?|]; done.
Qed.

Lemma same_run_refl st : same_run st st.
Proof. done. Qed.

Lemma same_run_trans st1 st2 st3 : same_run st1 st2 → same_run st2 st3 → same_run st1 st3.
Proof.
  unfold same_run. intros (E1 & E2 & E3 & E4 & H1) (F1 & F2 & F3 & F4 & H2).
  repeat split; try congruence. auto.
Qed.

Lemma latest_barcode_push barcode vars :
  latest_barcode (push_barcodes barcode (set_barcode barcode vars)).
Proof. unfold latest_barcode. simpl. by rewrite last_snoc. Qed.

Lemma exec_block_same_run (H : Host) i l b st :
  same_run st (state_of (Engine.exec_block H i l b st)).
Proof.
  unfold Engine.exec_block, Engine.if_splice, Engine.complete.
  destruct (type b); simpl; try done.
  - repeat (case_match; simpl; try done).
    all: match goal with
         | E : Engine.getQuantity ?l ?s = _ |- _ =>
             pose proof (getQuantity_untouched l s) as (Hs & Hp & _);
             rewrite E in Hs, Hp; simpl in Hs, Hp
         end; unfold same_run; simpl; rewrite ?Hp; unfold setup in *; simpl in *;
         repeat split; try congruence; done.
  - match goal with
    | |- context [Engine.showSelectOption ?c ?s] =>
        pose proof (showSelectOption_untouched c s) as (Hs & Hp & _);
        destruct (Engine.showSelectOption c s); simpl in *
    end; unfold same_run; simpl; rewrite ?Hp; unfold setup in *; simpl in *;
    repeat split; try congruence; done.
  - match goal with
    | |- context [Engine.evalCode _ ?c ?v ?s] =>
        pose proof (evalCode_untouched H c v s) as (Hs & Hp & _);
        destruct (Engine.evalCode H c v s) as [[?|?] ?]; simpl in *
    end; unfold same_run; simpl; rewrite ?Hp; unfold setup in *; simpl in *;
    repeat split; try congruence; done.
  - match goal with
    | |- context [Engine.getBarcode _ ?l ?s] =>
        pose proof (getBarcode_untouched H l s) as (Hs & Hp & _);
        destruct (Engine.getBarcode H l s) as [[?|?] ?|]; simpl in *
    end; repeat case_match; unfold same_run; simpl; rewrite ?Hp;
    unfold setup in *; simpl in *;
    repeat split; try congruence; try done; intros _; apply latest_barcode_push.
  - match goal with
    | |- context [Engine.evalCode _ ?c ?v ?s] =>
        pose proof (evalCode_untouched H c v s) as (Hs & Hp & _);
        destruct (Engine.evalCode H c v s) as [[?|?] ?]; simpl in *
    end; repeat case_match; unfold same_run; simpl; rewrite ?Hp;
    unfold setup in *; simpl in *;
    repeat split; try congruence; done.
Qed.

Lemma run_blocks_same_run (H : Host) fuel : ∀ i st,
  same_run st (state_of (Engine.run_blocks H fuel i st)).
Proof.
  induction fuel as [|fuel IH]; intros i st; simpl; [done|].
  destruct (read_array _ _) as [ls|]; [|done].
  destruct (ls !! i) as [l|]; [|done].
  destruct (read_block _ l) as [b|]; [|done].
  pose proof (exec_block_same_run H i l b st) as He.
  destruct (Engine.exec_block H i l b st) as [i' st'|o st']; simpl in *; [|done].
  eapply same_run_trans; [exact He|apply IH].
Qed.

(** ** How [again()] is left *)

Lemma getQuantity_only_pending label st : only_pending (Engine.getQuantity label st).
Proof. unfold Engine.getQuantity. by repeat case_match. Qed.

Lemma showSelectOption_only_pending csv st : only_pending (Engine.showSelectOption csv st).
Proof. unfold Engine.showSelectOption. by repeat case_match. Qed.

Lemma showPreventInfiniteLoopDialog_only_pending st :
  only_pending (Engine.showPreventInfiniteLoopDialog st).
Proof. unfold Engine.showPreventInfiniteLoopDialog. by repeat case_match. Qed.

Lemma showAddMoreDialog_only_pending t st : only_pending (Engine.showAddMoreDialog t st).
Proof. unfold Engine.showAddMoreDialog. by repeat case_match. Qed.

Lemma getBarcode_only_pending (H : Host) label st :
  only_pending (Engine.getBarcode H label st).
Proof. unfold Engine.getBarcode, Engine.settle_barcode. by repeat case_match. Qed.

Lemma ends_well_complete st : ends_well Completed (emit EComplete st).
Proof. simpl. apply last_snoc. Qed.

Lemma exec_block_exit_ok (H : Host) i l b st : exit_ok (Engine.exec_block H i l b st).
Proof.
  unfold Engine.exec_block, Engine.if_splice, Engine.complete.
  destruct (type b); simpl; try done.
  - repeat (case_match; simpl; try done; try apply last_snoc).
    all: match goal with
         | E : Engine.getQuantity ?l ?s = _ |- _ =>
             pose proof (getQuantity_only_pending l s) as Hg;
             rewrite E in Hg; simpl in Hg; by subst
         end.
  - match goal with
    | |- context [Engine.showSelectOption ?c ?s] =>
        pose proof (showSelectOption_only_pending c s) as Hg;
        destruct (Engine.showSelectOption c s); simpl in *; [done|by subst]
    end.
  - by repeat case_match.
  - match goal with
    | |- context [Engine.getBarcode _ ?l ?s] =>
        pose proof (getBarcode_only_pending H l s) as Hg;
        destruct (Engine.getBarcode H l s) as [[?|?] ?|]; simpl in *;
        repeat case_match; simpl; try done; try apply last_snoc; by subst
    end.
  - repeat case_match; simpl; try done; apply last_snoc.
Qed.

Lemma run_blocks_exit_ok (H : Host) fuel : ∀ i st, exit_ok (Engine.run_blocks H fuel i st).
Proof.
  induction fuel as [|fuel IH]; intros i st; simpl; [done|].
  destruct (read_array _ _) as [ls|]; [|done].
  destruct (ls !! i) as [l|]; [|done].
  destruct (read_block _ l) as [b|]; [|done].
  pose proof (exec_block_exit_ok H i l b st) as He.
  destruct (Engine.exec_block H i l b st) as [i' st'|o st']; [apply IH|done].
Qed.

Lemma infinite_loop_guard_exit_ok st : exit_ok (Engine.infinite_loop_guard st).
Proof.
  unfold Engine.infinite_loop_guard, Engine.complete.
  destruct (againCount (closure st) >? 30); [|done].
  pose proof (showPreventInfiniteLoopDialog_only_pending st) as Hg.
  destruct (Engine.showPreventInfiniteLoopDialog st) as [[] ?|]; simpl in *;
    [done | apply last_snoc | by subst].
Qed.

Lemma one_pass_exit_ok (H : Host) steps st : exit_ok (one_pass H steps st).
Proof.
  unfold one_pass.
  pose proof (infinite_loop_guard_exit_ok st) as Hg.
  destruct (Engine.infinite_loop_guard st) as [[] st1|]; [|done].
  destruct (Engine.start_pass st1) as [[] st2|o st2] eqn:Hs.
  - pose proof (run_blocks_exit_ok H steps 0 st2) as Hr.
    destruct (Engine.run_blocks H steps 0 st2) as [[] st3|]; [|done].
    unfold Engine.finish_pass. by repeat case_match.
  - unfold Engine.start_pass in Hs. by repeat case_match; simplify_eq.
Qed.

(** [again()] as one run of the profile followed by the decision to repeat. *)
Lemma again_S (H : Host) passes steps st :
  Engine.again H (S passes) steps st
  = if decide (_scanCallId (closure st) = this_scanCallId (this st)) then
      match one_pass H steps st with
      | Exit o st' => (o, st')
      | Ret _ st4 =>
          match acqusitionMode (this st4) with
          | continue | manual => Engine.again H passes steps st4
          | mixed_continue =>
              match Engine.showAddMoreDialog (continueModeTimeout (closure st4)) st4 with
              | Ret addMore st5 =>
                  if addMore then Engine.again H passes steps st5
                  else (Completed, emit EComplete st5)
              | Exit o st5 => (o, st5)
              end
          | single => (Completed, emit EComplete st4)
          end
      end
    else (Completed, emit EComplete st).
Proof.
  cbn [Engine.again]. unfold one_pass.
  destruct (decide _); [|done].
  destruct (Engine.infinite_loop_guard st) as [[] st1|]; [|done].
  destruct (Engine.start_pass st1) as [[] st2|]; [|done].
  destruct (Engine.run_blocks H steps 0 st2) as [[] st3|]; [|done].
  destruct (Engine.finish_pass H st3) as [scan st4|]; [|done].
  by destruct (acqusitionMode (this st4)).
Qed.

Lemma again_ends_well (H : Host) steps passes : ∀ st,
  ends_well (Engine.again H passes steps st).1 (Engine.again H passes steps st).2.
Proof.
  induction passes as [|passes IH]; intros st; [done|].
  rewrite again_S.
  destruct (decide _); [|apply ends_well_complete].
  pose proof (one_pass_exit_ok H steps st) as Hp.
  destruct (one_pass H steps st) as [scan st4|o st4]; [|done].
  destruct (acqusitionMode (this st4)); try apply IH; [apply ends_well_complete|].
  pose proof (showAddMoreDialog_only_pending (continueModeTimeout (closure st4)) st4) as Ha.
  destruct (Engine.showAddMoreDialog _ st4) as [[] st5|o st5]; simpl in *;
    [apply IH | apply last_snoc | by subst].
Qed.

(** Whatever the profile, the answers and the number of runs, a call of
    [again()] is never left with the observer open: the function returns
    only after [observer.complete()], which is the last thing the call does.
    Otherwise the call is suspended on a promise that is never settled, or an
    exception leaves it. *)
Theorem again_completes_the_observer (H : Host) (passes steps : nat) (st : State) :
  let r := Engine.again H passes steps st in
  r.1 ≠ Returned
  ∧ (r.1 = Completed → last (events (env r.2)) = Some EComplete)
  ∧ (r.1 = Completed ∨ r.1 = Pending ∨ (∃ error, r.1 = Threw error) ∨ r.1 = OutOfFuel).
Proof.
  intros r. subst r. pose proof (again_ends_well H steps passes st) as He.
  destruct (Engine.again H passes steps st).1 eqn:Ho; simpl in *;
    repeat split; try done; eauto.
Qed.

(** ** One run of the profile *)

Lemma start_pass_setup st : setup (state_of (Engine.start_pass st)) = setup st.
Proof. unfold Engine.start_pass. by repeat case_match. Qed.

Lemma finish_pass_untouched (H : Host) st :
  untouched st (state_of (Engine.finish_pass H st)).
Proof. unfold Engine.finish_pass. repeat case_match; simpl; try done. Qed.

Lemma one_pass_setup (H : Host) steps st : setup (state_of (one_pass H steps st)) = setup st.
Proof.
  unfold one_pass.
  pose proof (infinite_loop_guard_untouched st) as (Hg & _).
  destruct (Engine.infinite_loop_guard st) as [[] st1|]; simpl in *; [|done].
  pose proof (start_pass_setup st1) as Hs.
  destruct (Engine.start_pass st1) as [[] st2|]; simpl in *; [|congruence].
  pose proof (run_blocks_same_run H steps 0 st2) as (Hr & _).
  destruct (Engine.run_blocks H steps 0 st2) as [[] st3|]; simpl in *; [|congruence].
  pose proof (finish_pass_untouched H st3) as (Hf & _). congruence.
Qed.

Lemma finish_pass_hands_over (H : Host) st0 st :
  quiet st0 st → hands_over st0 (Engine.finish_pass H st).
Proof.
  intros (evs & He & Hq). unfold Engine.finish_pass.
  destruct (read_blocks _ _) as [blocks|]; simpl; [|by exists evs].
  exists evs. split; [|done].
  match goal with |- context [if ?c then _ else _] => destruct c end; simpl;
    by rewrite He, app_assoc.
Qed.

Lemma one_pass_hands_over (H : Host) steps st : hands_over st (one_pass H steps st).
Proof.
  unfold one_pass.
  pose proof (infinite_loop_guard_quiet st st (quiet_refl st)) as Q1.
  destruct (Engine.infinite_loop_guard st) as [[] st1|]; simpl in *; [|done].
  pose proof (start_pass_quiet st st1 Q1) as Q2.
  destruct (Engine.start_pass st1) as [[] st2|]; simpl in *; [|done].
  pose proof (run_blocks_quiet H steps 0 st st2 Q2) as Q3.
  destruct (Engine.run_blocks H steps 0 st2) as [[] st3|]; simpl in *; [|done].
  by apply finish_pass_hands_over.
Qed.

Lemma one_pass_prefix (H : Host) steps st :
  heap (env st) `prefix_of` heap (env (state_of (one_pass H steps st))).
Proof.
  unfold one_pass.
  pose proof (infinite_loop_guard_heap st) as Hg.
  destruct (Engine.infinite_loop_guard st) as [[] st1|o st1]; simpl in *;
    [|by rewrite Hg].
  pose proof (start_pass_owned st1) as Hs.
  destruct (Engine.start_pass st1) as [[] st2|o st2]; simpl in *; [|by rewrite Hs, Hg].
  pose proof (run_blocks_owned H (heap (env st1)) steps (global_eval_writes_no_object H)
                0 st2 Hs) as Hr.
  rewrite Hg in Hr.
  destruct (Engine.run_blocks H steps 0 st2) as [[] st3|o st3]; simpl in *;
    [|by destruct Hr].
  destruct Hr as [Hp3 _].
  pose proof (finish_pass_heap H st3) as Hf.
  destruct (Engine.finish_pass H st3) as [scan st4|o st4]; simpl in *; by rewrite Hf.
Qed.

Lemma events_emit e st : events (env (emit e st)) = events (env st) ++ [e].
Proof. done. Qed.

(** What holds of every scan that a call of [again()] hands to the observer,
    from what holds of the scan of one run. *)
Lemma again_emitted (H : Host) steps (I : State → Prop) (P : ScanModel.t → Prop) :
  (∀ st scan st4, I st → one_pass H steps st = Ret scan st4 → P scan ∧ I st4) →
  (∀ st t, I st → I (state_of (Engine.showAddMoreDialog t st))) →
  ∀ passes st, I st →
    ∃ evs, events (env (Engine.again H passes steps st).2) = events (env st) ++ evs
           ∧ Forall P (emitted evs).
Proof.
  intros Hpass Hadd.
  induction passes as [|passes IH]; intros st HI.
  - exists []. by rewrite app_nil_r.
  - rewrite again_S.
    destruct (decide _); [|by exists [EComplete]].
    pose proof (one_pass_hands_over H steps st) as Hh.
    destruct (one_pass H steps st) as [scan st4|o st4] eqn:Hp; simpl in *.
    + destruct (Hpass st scan st4 HI Hp) as [HP HI4].
      destruct Hh as (evs & He & Hq).
      assert (∀ st5 tail, events (env st5) = events (env st4) ++ tail →
                emitted tail = [] →
                ∃ evs', events (env (emit EComplete st5)) = events (env st) ++ evs'
                        ∧ Forall P (emitted evs')) as Hstop.
      { intros st5 tail E5 Ht. exists (evs ++ [ENext scan] ++ tail ++ [EComplete]).
        rewrite events_emit, E5, He, <- !app_assoc. split; [done|].
        rewrite !emitted_app, (emitted_quiet_events evs Hq), Ht. simpl. by repeat constructor. }
      assert (∀ st5 tail, events (env st5) = events (env st4) ++ tail →
                emitted tail = [] → I st5 →
                ∃ evs', events (env (Engine.again H passes steps st5).2)
                        = events (env st) ++ evs'
                        ∧ Forall P (emitted evs')) as Hloop.
      { intros st5 tail E5 Ht HI5. destruct (IH st5 HI5) as (evs5 & E & F).
        exists (evs ++ [ENext scan] ++ tail ++ evs5).
        rewrite E, E5, He, <- !app_assoc. split; [done|].
        rewrite !emitted_app, (emitted_quiet_events evs Hq), Ht. simpl. by constructor. }
      destruct (acqusitionMode (this st4)).
      * apply (Hloop st4 []); [by rewrite app_nil_r | done | done].
      * simpl. apply (Hstop st4 []); [by rewrite app_nil_r | done].
      * pose proof (showAddMoreDialog_quiet (continueModeTimeout (closure st4)) st4 st4
                      (quiet_refl st4)) as Hq5.
        specialize (Hadd st4 (continueModeTimeout (closure st4)) HI4).
        destruct (Engine.showAddMoreDialog _ st4) as [[] st5|o st5]; simpl in *;
          destruct Hq5 as (tail & E5 & Hq5).
        -- apply (Hloop st5 tail); [done | by apply emitted_quiet_events | done].
        -- simpl. apply (Hstop st5 tail); [done | by apply emitted_quiet_events].
        -- exists (evs ++ [ENext scan] ++ tail). rewrite E5, He, <- !app_assoc.
           split; [done|].
           rewrite !emitted_app, (emitted_quiet_events evs Hq),
             (emitted_quiet_events tail Hq5). simpl. by repeat constructor.
      * apply (Hloop st4 []); [by rewrite app_nil_r | done | done].
    + destruct Hh as (evs & He & Hq). exists evs. split; [done|].
      by rewrite (emitted_quiet_events evs Hq).
Qed.

(** ** The 'single' mode *)

(** In the 'single' mode a call of [again()] that is not superseded runs the
    profile once, whatever the number of runs it is allowed: it hands at most
    one scan to the observer, and when it has handed one it completes the
    observer. *)
Theorem again_single_runs_once (H : Host) (passes steps : nat) (st : State) :
  acqusitionMode (this st) = single →
  not_superseded st →
  let r := Engine.again H (S passes) steps st in
  r = Engine.again H 1 steps st
  ∧ (length (emitted (events_since st r.2)) ≤ 1)%nat
  ∧ (emitted (events_since st r.2) ≠ [] → r.1 = Completed).
Proof.
  intros Hm _ r. subst r. rewrite !again_S. unfold events_since.
  destruct (decide _).
  - pose proof (one_pass_setup H steps st) as Hs.
    pose proof (one_pass_hands_over H steps st) as Hh.
    destruct (one_pass H steps st) as [scan st4|o st4]; simpl in *.
    + assert (acqusitionMode (this st4) = single) as ->.
      { unfold setup in Hs. congruence. }
      destruct Hh as (evs & He & Hq). simpl.
      rewrite He, <- !app_assoc, drop_app_length, !emitted_app,
        (emitted_quiet_events evs Hq). simpl. split; [done|]. split; [simpl; lia|done].
    + destruct Hh as (evs & He & Hq).
      rewrite He, drop_app_length, (emitted_quiet_events evs Hq). simpl.
      split; [done|]. split; [simpl; lia|done].
  - simpl. rewrite drop_app_length. simpl. split; [done|]. split; [simpl; lia|done].
Qed.

Lemma again_single_runs_once_witness :
  let st := small_state single [mk_block Ttext "a"] [] ∅ in
  Engine.again small_host 5 20 st = Engine.again small_host 1 20 st.
Proof.
  intros st.
  by destruct (again_single_runs_once small_host 4 20 st eq_refl (Forall_nil_2 _)) as [E _].
Defined.

(** ** The variables of a run *)

(** Throughout a run of the profile (after any number of iterations of the
    loop) the variable [barcode] holds the last element of [barcodes], the
    barcode that was acquired last, and the empty string as long as
    [barcodes] is empty; the id and the date of the scan and its array of
    blocks are those that [again()] has set before the loop. *)
Theorem barcode_variable_is_the_latest_barcode (H : Host) (fuel : nat)
    (st st0 : State) :
  Engine.start_pass st = Ret () st0 →
  let st' := state_of (Engine.run_blocks H fuel 0 st0) in
  latest_barcode (variables (pass st'))
  ∧ scan_id (pass st') = clock (env st)
  ∧ scan_date (pass st') = clock (env st)
  ∧ scan_outputBlocks (pass st') = scan_outputBlocks (pass st0).
Proof.
  intros Hs st'. subst st'.
  destruct (run_blocks_same_run H fuel 0 st0) as (_ & Hid & Hdate & Ha & Hv).
  unfold Engine.start_pass in Hs.
  destruct (outputProfile (this st)); [|done].
  destruct (JSON_clone _ _) as [[h a]|]; [|done].
  injection Hs as <-. simpl in *.
  repeat split; try done. by apply Hv.
Qed.

Lemma barcode_variable_witness :
  let st := small_state manual repeat_profile [answer (RSubmit "a")] ∅ in
  barcodes (variables (pass (state_of (Engine.run_blocks small_host 5 0
                                          (state_of (Engine.start_pass st)))))) = ["a"]
  ∧ latest_barcode (variables (pass (state_of (Engine.run_blocks small_host 5 0
                                                  (state_of (Engine.start_pass st)))))).
Proof.
  intros st. split; [vm_compute; reflexivity|].
  by destruct (barcode_variable_is_the_latest_barcode small_host 5 st
                 (state_of (Engine.start_pass st)) eq_refl) as [Hv _].
Defined.

(** ** No marker reaches the observer *)





(** ** An 'if' without its 'endif' *)

Lemma splice_nothing {A} (start count : Z) (l : list A) :
  0 ≤ start → count ≤ 0 → splice start count l = l.
Proof.
  intros Hs Hc. unfold splice.
  destruct (Z.ltb_spec start 0) as [?|_]; [lia|].
  rewrite (Z.max_r count 0) by lia.
  rewrite (Z.min_l 0) by lia. rewrite Z.add_0_r. apply take_drop.
Qed.

Lemma splice_before_last {A} (l : list A) :
  splice (-2) 1 l = delete (length l - 2)%nat l.
Proof.
  unfold splice. rewrite delete_take_drop.
  destruct (Z.ltb_spec (-2) 0) as [_|?]; [|lia].
  destruct l as [|x l]; [done|].
  rewrite (Z.max_l 1 0) by lia.
  rewrite (Z.min_l 1) by (simpl length; lia).
  f_equal; f_equal; simpl length; lia.
Qed.

Lemma splice_array_nothing h a start count :
  0 ≤ start → count ≤ 0 → splice_array a start count h = h.
Proof.
  intros Hs Hc. unfold splice_array.
  destruct (h !! a) as [[b|ls]|] eqn:Ha; try done.
  rewrite splice_nothing by done. by apply list_insert_id.
Qed.

(** Case 'if' of the current provider once the condition is there, when
    [FindEndIfIndex] answers -1, as for an 'if' that has no 'endif' after
    it.  For a value that is loosely equal to [true] the 'if' is removed, and
    with it the block that is then the last but one of the array, whatever it
    is: [splice(-2, 1)] counts from the end.  For another value nothing is
    removed, the 'if' included.  In both cases the index stays that of the
    'if'. *)
Theorem if_splice_without_endif (H : Host) (st : State) (pre rest : list OutputBlockModel)
    (b : OutputBlockModel) (condition : JsVal) :
  read_blocks (heap (env st)) (scan_outputBlocks (pass st)) = Some (pre ++ b :: rest) →
  FindEndIfIndex H (pre ++ b :: rest) (Z.of_nat (length pre) + 1) = -1 →
  ∃ st',
    Engine.if_splice H (length pre) condition st = Ret (length pre) st'
    ∧ read_blocks (heap (env st')) (scan_outputBlocks (pass st'))
      = Some (if js_loose_eq H condition (JBool true)
              then delete (length (pre ++ rest) - 2)%nat (pre ++ rest)
              else pre ++ b :: rest).
Proof.
  intros Hrb Hfind.
  unfold Engine.if_splice. cbn [library global_eval].
  rewrite Hrb, Hfind.
  destruct (js_loose_eq H condition (JBool true)).
  - eexists. split; [reflexivity|].
    cbn [env heap pass write_heap upd_env set_heap].
    erewrite read_blocks_splice; [|by apply read_blocks_splice].
    f_equal.
    assert (splice (Z.of_nat (length pre)) 1 (pre ++ b :: rest) = pre ++ rest) as ->
      by exact (splice_middle pre [b] rest).
    apply splice_before_last.
  - eexists. split; [reflexivity|].
    cbn [env heap pass write_heap upd_env set_heap].
    by rewrite splice_array_nothing by lia.
Qed.

Lemma if_splice_without_endif_witness :
  let blocks := [mk_block Ttext "a"; mk_block Tif "true"; mk_block Ttext "x";
                 mk_block Ttext "y"] in
  let st := state_of (Engine.start_pass (small_state single blocks [] ∅)) in
  ∃ st',
    Engine.if_splice small_host 1 (JBool true) st = Ret 1%nat st'
    ∧ read_blocks (heap (env st')) (scan_outputBlocks (pass st'))
      = Some [mk_block Ttext "a"; mk_block Ttext "y"].
Proof.
  intros blocks st.
  apply (if_splice_without_endif small_host st [mk_block Ttext "a"]
           [mk_block Ttext "x"; mk_block Ttext "y"] (mk_block Tif "true") (JBool true)).
  - vm_compute. reflexivity.
  - vm_compute. reflexivity.
Defined.

(** ** The draft leaves the observer open *)

Lemma draft_showQuantityDialog_quiet st0 st :
  quiet st0 st → after (quiet st0) (Draft.showQuantityDialog st).
Proof.
  intros Hq. unfold Draft.showQuantityDialog, await. simpl.
  repeat case_match; simplify_eq/=; solve_quiet.
Qed.

Lemma draft_evalCode_quiet (H : Host) code vars st0 st :
  quiet st0 st → quiet st0 (Draft.evalCode H code vars st).2.
Proof.
  intros Hq. unfold Draft.evalCode.
  repeat case_match; simplify_eq/=; solve_quiet.
Qed.

Lemma draft_exec_block_quiet (H : Host) i l b vars st0 st :
  quiet st0 st → after (quiet st0) (Draft.exec_block H i l b vars st).
Proof.
  intros Hq. unfold Draft.exec_block.
  destruct (type b); simpl; try solve [solve_quiet].
  - repeat (case_match; simpl; try solve [solve_quiet]).
    all: match goal with
         | E : Draft.showQuantityDialog ?s = _ |- _ =>
             pose proof (draft_showQuantityDialog_quiet st0 s ltac:(solve_quiet)) as Hg;
             rewrite E in Hg; simpl in Hg
         end; solve_quiet.
  - match goal with
    | |- context [Draft.evalCode _ ?c ?v ?s] =>
        pose proof (draft_evalCode_quiet H c v st0 s ltac:(solve_quiet)) as Hg;
        destruct (Draft.evalCode H c v s) as [[?|?] ?]; simpl in *; solve_quiet
    end.
  - match goal with
    | |- context [Draft.evalCode _ ?c ?v ?s] =>
        pose proof (draft_evalCode_quiet H c v st0 s ltac:(solve_quiet)) as Hg;
        destruct (Draft.evalCode H c v s) as [[?|?] ?]; simpl in *;
        repeat case_match; simpl; solve_quiet
    end.
Qed.

Lemma draft_run_blocks_quiet (H : Host) fuel : ∀ i vars st0 st,
  quiet st0 st → after (quiet st0) (Draft.run_blocks H fuel i vars st).
Proof.
  induction fuel as [|fuel IH]; intros i vars st0 st Hq; simpl; [done|].
  destruct (read_array _ _) as [ls|]; [|done].
  destruct (ls !! i) as [l|]; [|done].
  destruct (read_block _ l) as [b|]; [|done].
  pose proof (draft_exec_block_quiet H i l b vars st0 st Hq) as Hg.
  destruct (Draft.exec_block H i l b vars st) as [vars' st'|o st']; simpl in Hg; [|done].
  by apply IH.
Qed.

Lemma draft_exec_block_exit (H : Host) i l b vars st :
  draft_exit (Draft.exec_block H i l b vars st).
Proof.
  unfold Draft.exec_block, Draft.showQuantityDialog.
  destruct (type b); simpl; try done; try (split; discriminate);
    repeat (case_match; simpl; try done; try (split; discriminate));
    simplify_eq; split; discriminate.
Qed.

Lemma draft_run_blocks_exit (H : Host) fuel : ∀ i vars st,
  draft_exit (Draft.run_blocks H fuel i vars st).
Proof.
  induction fuel as [|fuel IH]; intros i vars st; simpl; [done|].
  destruct (read_array _ _) as [ls|]; [|done].
  destruct (ls !! i) as [l|]; [|done].
  destruct (read_block _ l) as [b|]; [|done].
  pose proof (draft_exec_block_exit H i l b vars st) as Hg.
  destruct (Draft.exec_block H i l b vars st) as [vars' st'|o st']; [apply IH|done].
Qed.

(** [acquireScan] of the draft never completes the observer, although its
    documentation says that it does whenever the scan process ends.  When its
    callback returns it has handed exactly one scan to the observer, as its
    last action; in every other case (an exception, a promise that is never
    settled) it has handed none. *)
Theorem acquireScan_leaves_the_observer_open (H : Host) (steps : nat) (st : State) :
  let r := Draft.acquireScan H steps st in
  r.1 ≠ Completed
  ∧ (r.1 = Returned →
       ∃ scan, emitted (events_since st r.2) = [scan]
               ∧ last (events (env r.2)) = Some (ENext scan))
  ∧ (r.1 ≠ Returned → emitted (events_since st r.2) = []).
Proof.
  intros r. subst r. unfold Draft.acquireScan, events_since.
  destruct (outputProfile (this st)) as [master|];
    [|simpl; rewrite drop_all; by repeat split].
  destruct (JSON_clone _ master) as [[h a]|];
    [|simpl; rewrite drop_all; by repeat split].
  match goal with
  | |- context [Draft.run_blocks _ steps 0 ?v ?s] =>
      pose proof (draft_run_blocks_quiet H steps 0 v st s (quiet_refl st)) as Hq;
      pose proof (draft_run_blocks_exit H steps 0 v s) as Hx;
      destruct (Draft.run_blocks H steps 0 v s) as [[] st2|o st2]
  end; simpl in Hq, Hx; destruct Hq as (evs & He & Hq).
  - destruct (read_blocks _ a) as [blocks|]; simpl.
    + rewrite He, <- app_assoc, drop_app_length, emitted_app,
        (emitted_quiet_events evs Hq). simpl.
      split; [done|]. split; [|done]. intros _. eexists. split; [reflexivity|].
      by rewrite app_assoc, last_snoc.
    + rewrite He, drop_app_length, (emitted_quiet_events evs Hq). by repeat split.
  - simpl. rewrite He, drop_app_length, (emitted_quiet_events evs Hq).
    destruct Hx as [Hc Hr]. by repeat split.
Qed.

(** An 'if' of the draft whose condition cannot be evaluated: [evalCode]
    gives the empty string, which is not [false], so the 'if', its body and
    its 'endif' are kept and the run goes on with the next block; no error is
    shown. *)
Theorem draft_if_with_failing_condition (H : Host) (i : nat) (l : loc)
    (b : OutputBlockModel) (code error : string) (vars : Draft.Variables) (st : State) :
  type b = Tif → value b = JStr code →
  js_eval H (Draft.eval_call code vars st).1 (Draft.eval_call code vars st).2 = inr error →
  ∃ st', Draft.exec_block H i l b vars st = Ret vars st'
         ∧ heap (env st') = heap (env st)
         ∧ events (env st') = events (env st).
Proof.
  intros Ht Hv He. unfold Draft.exec_block, Draft.evalCode, Draft.eval_scope.
  rewrite Ht, Hv. cbn [direct_eval global_eval scope_window].
  rewrite He. cbv beta iota zeta.
  rewrite decide_False by done. by eexists.
Qed.

Lemma draft_if_with_failing_condition_witness :
  let st := small_state single [] [] ∅ in
  ∃ st', Draft.exec_block small_host 0 0 (mk_block Tif ")") (Draft.Build_Variables "" [] JNull) st
         = Ret (Draft.Build_Variables "" [] JNull) st'
         ∧ heap (env st') = heap (env st)
         ∧ events (env st') = events (env st).
Proof.
  intros st.
  apply (draft_if_with_failing_condition small_host 0 0%nat (mk_block Tif ")") ")"
           "SyntaxError"); reflexivity.
Defined.

(** ** The text of a scan *)

(** [scan.text] of the current provider is made of the values of the
    'barcode' blocks alone, those that are loosely equal to the empty string
    left out: the other blocks give an empty string, which the filter
    removes, so that they leave no separator behind. *)
Theorem scan_text_of_barcode_blocks (H : Host) (blocks : list OutputBlockModel) :
  js_loose_eq H (JStr "") (JStr "") = true →
  Engine.scan_text H blocks
  = join " " (js_to_string H
                <$> List.filter (λ v, negb (js_loose_eq H v (JStr "")))
                      (value <$> List.filter (λ b, bool_decide (type b = Tbarcode)) blocks)).
Proof.
  intros Hempty. unfold Engine.scan_text. cbn [library global_eval]. f_equal. f_equal.
  induction blocks as [|b blocks IH]; [done|].
  simpl. destruct (decide (type b = Tbarcode)) as [Hb|Hb].
  - rewrite bool_decide_eq_true_2 by done. simpl.
    destruct (js_loose_eq H (value b) (JStr "")); simpl; by rewrite IH.
  - rewrite bool_decide_eq_false_2 by done. by rewrite Hempty.
Qed.

Lemma scan_text_of_barcode_blocks_witness :
  Engine.scan_text small_host
    [mk_block Ttext "a"; mk_block Tbarcode "123"; mk_block Tbarcode ""; mk_block Tbarcode "45"]
  = "123 45".
Proof.
  rewrite (scan_text_of_barcode_blocks small_host) by reflexivity. reflexivity.
Defined.

(** ** The collaborators that a mode reaches *)

Lemma within_refl st : within st st.
Proof. split; [done|]. exists []. by rewrite app_nil_r. Qed.

Lemma within_same st0 st st' :
  setup st' = setup st → events (env st') = events (env st) →
  within st0 st → within st0 st'.
Proof. unfold within, trace. by intros -> ->. Qed.

Lemma within_emit st0 e st : reaches st0 e → within st0 st → within st0 (emit e st).
Proof.
  intros He [Hs (evs & E & F)]. split; [done|].
  exists (evs ++ [e]). split.
  - simpl. by rewrite E, app_assoc.
  - apply Forall_app. split; [done|]. by constructor.
Qed.

Lemma within_resume st0 a rest st : within st0 st → within st0 (resume a rest st).
Proof.
  intros Hw. unfold resume, new_scan_call.
  assert (within st0 (fire_timers
            (upd_env (λ en, set_inputs rest (set_clock (clock en + 0 `max` elapsed a) en)) st)))
    as Hf.
  { eapply within_same; [| |exact Hw].
    - unfold setup, fire_timers. by repeat case_match.
    - by rewrite fire_timers_env. }
  destruct (rescan a); [|done].
  eapply within_same; [| |apply (within_emit st0 EComplete _ I Hf)]; done.
Qed.

Ltac within_step :=
  match goal with
  | H : within ?s0 ?s |- within ?s0 ?s => exact H
  | |- within _ (resume _ _ _) => apply within_resume
  | |- within _ (emit _ _) => apply within_emit; [simpl; try done; try congruence|]
  | |- within _ (upd_this _ ?s) => apply (within_same _ s); [reflexivity..|]
  | |- within _ (upd_env _ ?s) => apply (within_same _ s); [reflexivity..|]
  | |- within _ (upd_pass _ ?s) => apply (within_same _ s); [reflexivity..|]
  | |- within _ (upd_closure _ ?s) => apply (within_same _ s); [reflexivity..|]
  | |- within _ (write_heap _ ?s) => apply (within_same _ s); [reflexivity..|]
  | |- within _ (Engine.set_block_value _ _ ?s) => apply (within_same _ s); [reflexivity..|]
  | |- within _ (Engine.getRandomInt ?s).2 => apply (within_same _ s); [reflexivity..|]
  end.

Ltac solve_within := repeat within_step.

Lemma within_fields st0 st :
  within st0 st →
  acqusitionMode (this st) = acqusitionMode (this st0)
  ∧ quantityType (this st) = quantityType (this st0)
  ∧ continueModeTimeout (closure st) = continueModeTimeout (closure st0).
Proof. intros [Hs _]. unfold setup in Hs. repeat split; congruence. Qed.

Lemma getQuantity_within st0 label st :
  within st0 st → after (within st0) (Engine.getQuantity label st).
Proof.
  intros Hw. destruct (within_fields _ _ Hw) as (Hm & Hq & Ht).
  unfold Engine.getQuantity, await. simpl.
  repeat case_match; simplify_eq/=; solve_within.
Qed.

Lemma showSelectOption_within st0 csv st :
  within st0 st → after (within st0) (Engine.showSelectOption csv st).
Proof.
  intros Hw. unfold Engine.showSelectOption, await. simpl.
  repeat case_match; simplify_eq/=; solve_within.
Qed.

Lemma showPreventInfiniteLoopDialog_within st0 st :
  within st0 st → after (within st0) (Engine.showPreventInfiniteLoopDialog st).
Proof.
  intros Hw. unfold Engine.showPreventInfiniteLoopDialog, await. simpl.
  repeat case_match; simplify_eq/=; solve_within.
Qed.

Lemma showAddMoreDialog_within st0 st :
  acqusitionMode (this st) = mixed_continue →
  within st0 st →
  after (within st0) (Engine.showAddMoreDialog (continueModeTimeout (closure st)) st).
Proof.
  intros Hmixed Hw. destruct (within_fields _ _ Hw) as (Hm & Hq & Ht).
  unfold Engine.showAddMoreDialog, await. simpl.
  repeat case_match; simplify_eq/=; solve_within; split; congruence.
Qed.

Lemma getBarcode_within (H : Host) st0 label st :
  within st0 st → after (within st0) (Engine.getBarcode H label st).
Proof.
  intros Hw. destruct (within_fields _ _ Hw) as (Hm & Hq & Ht).
  unfold Engine.getBarcode, Engine.settle_barcode, await. simpl.
  repeat case_match; simplify_eq/=; solve_within.
Qed.

Lemma evalCode_within (H : Host) st0 code vars st :
  within st0 st → within st0 (Engine.evalCode H code vars st).2.
Proof.
  intros [Hs (evs & He & Hall)].
  destruct (evalCode_store H code vars st) as (_ & _ & Ht & Hc & _ & _ & Hev).
  split.
  - unfold setup in *. by rewrite Ht, Hc.
  - exists (evs ++ eval_alerts H code vars st). split.
    + by rewrite Hev, He, app_assoc.
    + apply Forall_app. split; [done|].
      unfold eval_alerts. repeat case_match; by repeat constructor.
Qed.

Lemma exec_block_within (H : Host) st0 i l b st :
  within st0 st → after (within st0) (Engine.exec_block H i l b st).
Proof.
  intros Hw. unfold Engine.exec_block, Engine.if_splice, Engine.complete.
  destruct (type b); simpl; try solve [solve_within].
  - repeat (case_match; simpl; try solve [solve_within]).
    all: match goal with
         | E : Engine.getQuantity ?l ?s = _ |- _ =>
             pose proof (getQuantity_within st0 l s ltac:(solve_within)) as Hg;
             rewrite E in Hg; simpl in Hg
         end; solve_within.
  - match goal with
    | |- context [Engine.showSelectOption ?c ?s] =>
        pose proof (showSelectOption_within st0 c s ltac:(solve_within)) as Hg;
        destruct (Engine.showSelectOption c s); simpl in *; solve_within
    end.
  - match goal with
    | |- context [Engine.evalCode _ ?c ?v ?s] =>
        pose proof (evalCode_within H st0 c v s ltac:(solve_within)) as Hg;
        destruct (Engine.evalCode H c v s) as [[?|?] ?]; simpl in *; solve_within
    end.
  - match goal with
    | |- context [Engine.getBarcode _ ?l ?s] =>
        pose proof (getBarcode_within H st0 l s ltac:(solve_within)) as Hg;
        destruct (Engine.getBarcode H l s) as [[?|?] ?|]; simpl in *;
        repeat case_match; simpl; solve_within
    end.
  - match goal with
    | |- context [Engine.evalCode _ ?c ?v ?s] =>
        pose proof (evalCode_within H st0 c v s ltac:(solve_within)) as Hg;
        destruct (Engine.evalCode H c v s) as [[?|?] ?]; simpl in *;
        repeat case_match; simpl; solve_within
    end.
Qed.

Lemma run_blocks_within (H : Host) st0 fuel : ∀ i st,
  within st0 st → after (within st0) (Engine.run_blocks H fuel i st).
Proof.
  induction fuel as [|fuel IH]; intros i st Hw; simpl; [done|].
  destruct (read_array _ _) as [ls|]; [|done].
  destruct (ls !! i) as [l|]; [|done].
  destruct (read_block _ l) as [b|]; [|done].
  pose proof (exec_block_within H st0 i l b st Hw) as Hg.
  destruct (Engine.exec_block H i l b st) as [i' st'|o st']; simpl in Hg; [|done].
  by apply IH.
Qed.

Lemma one_pass_within (H : Host) st0 steps st :
  within st0 st → after (within st0) (one_pass H steps st).
Proof.
  intros Hw. unfold one_pass.
  assert (after (within st0) (Engine.infinite_loop_guard st)) as Hg.
  { unfold Engine.infinite_loop_guard, Engine.complete.
    destruct (againCount (closure st) >? 30); [|done].
    pose proof (showPreventInfiniteLoopDialog_within st0 st Hw) as Hd.
    destruct (Engine.showPreventInfiniteLoopDialog st) as [[] ?|]; simpl in *; solve_within. }
  destruct (Engine.infinite_loop_guard st) as [[] st1|]; simpl in *; [|done].
  assert (after (within st0) (Engine.start_pass st1)) as Hs.
  { unfold Engine.start_pass. repeat case_match; simpl; solve_within. }
  destruct (Engine.start_pass st1) as [[] st2|]; simpl in *; [|done].
  pose proof (run_blocks_within H st0 steps 0 st2 Hs) as Hr.
  destruct (Engine.run_blocks H steps 0 st2) as [[] st3|]; simpl in *; [|done].
  unfold Engine.finish_pass. repeat case_match; simpl; solve_within.
Qed.

Lemma again_within (H : Host) st0 steps passes : ∀ st,
  within st0 st → within st0 (Engine.again H passes steps st).2.
Proof.
  induction passes as [|passes IH]; intros st Hw; [done|].
  rewrite again_S.
  destruct (decide _); [|simpl; solve_within].
  pose proof (one_pass_within H st0 steps st Hw) as Hp.
  destruct (one_pass H steps st) as [scan st4|o st4]; simpl in *; [|done].
  destruct (acqusitionMode (this st4)) eqn:Hm4; try (by apply IH); [simpl; solve_within|].
  pose proof (showAddMoreDialog_within st0 st4 Hm4 Hp) as Ha.
  destruct (Engine.showAddMoreDialog _ st4) as [[] st5|o st5]; simpl in *;
    [by apply IH | solve_within | done].
Qed.

(** The collaborators that a call of [again()] that is not superseded asks
    are those of its mode, whatever the profile, the answers and the number
    of runs: the keyboard
    input is asked in the 'manual' mode only and the plugin in the other
    modes only; the subscription is ended in the 'continue' mode only; the
    add-more alert is shown in the 'mixed_continue' mode only, with the
    timeout of the settings; every quantity alert has the input type of the
    settings. *)
Theorem again_asks_the_collaborators_of_its_mode (H : Host) (passes steps : nat)
    (st : State) :
  not_superseded st →
  Forall (reaches st) (events_since st (Engine.again H passes steps st).2).
Proof.
  intros _.
  destruct (again_within H st steps passes st (within_refl st)) as [_ (evs & E & F)].
  unfold events_since. by rewrite E, drop_app_length.
Qed.

Lemma again_asks_the_collaborators_witness :
  let st := small_state manual repeat_profile [answer (RSubmit "a")] ∅ in
  Forall (reaches st) (events_since st (Engine.again small_host 3 5 st).2)
  ∧ scanner_calls (events_since st (Engine.again small_host 3 5 st).2) = [].
Proof.
  intros st. split; [|vm_compute; reflexivity].
  apply (again_asks_the_collaborators_of_its_mode small_host 3 5 st).
  repeat constructor.
Defined.

(** ** The prompt of the scanner *)

Lemma scanner_calls_nil evs :
  Forall (λ e, match e with EScannerScan _ => False | _ => True end) evs →
  scanner_calls evs = [].
Proof.
  induction 1 as [|e evs He _ IH]; [done|].
  destruct e; try done; exact IH.
Qed.

(** When the loop reaches a 'barcode' block in a mode that uses the camera,
    the plugin is called with the options of the provider and, as prompt, the
    label of the block, or the default prompt when the block has no label or
    an empty one.  In the 'continue' mode this happens for the first barcode
    only: while the provider holds the subscription the plugin is not called
    again, so that the label of a later block is not shown. *)
Theorem barcode_block_prompt (H : Host) (i : nat) (l : loc) (b : OutputBlockModel)
    (st : State) :
  type b = Tbarcode →
  acqusitionMode (this st) ≠ manual →
  scanner_calls (events_since st (state_of (Engine.exec_block H i l b st)))
  = if bool_decide (acqusitionMode (this st) = continue)
       && continuosScanSubscription (this st)
    then []
    else [BarcodeScannerOptions.set_prompt
            (label_or (label b) DEFAULT_ACQUISITION_LABEL) (pluginOptions (this st))].
Proof.
  intros Ht Hm. unfold Engine.exec_block, Engine.getBarcode, Engine.settle_barcode,
    Engine.complete, await, resume, new_scan_call, events_since.
  rewrite Ht. simpl.
  destruct (acqusitionMode (this st)) eqn:Hmode; try done; simpl;
    destruct (continuosScanSubscription (this st)) eqn:Hsub; simpl;
    repeat (case_match; simplify_eq/=);
    rewrite ?fire_timers_env; simpl;
    rewrite <- ?app_assoc, ?drop_app_length, ?drop_all; done.
Qed.

Lemma barcode_block_prompt_witness :
  let b := {| type := Tbarcode; label := Some "Item"; value := JStr "BARCODE" |} in
  let st := small_state single [b] [answer (RScan (Some (code39 "123")))] ∅ in
  BarcodeScannerOptions.prompt
  <$> scanner_calls (events_since st (state_of (Engine.exec_block small_host 0 0 b st)))
  = ["Item"].
Proof.
  intros b st.
  rewrite (barcode_block_prompt small_host 0 0%nat b st eq_refl) by discriminate.
  reflexivity.
Defined.

(** ** The profile is updated between two runs *)

Section update.
Context (o : option loc).
Let u : State → State := upd_this (set_outputProfile o).

Lemma resume_update a rest st : resume a rest (u st) = u (resume a rest st).
Proof.
  unfold resume, new_scan_call, fire_timers, u. simpl. by repeat case_match.
Qed.

Lemma await_update st :
  await (u st) = (λ '(r, st'), (r, u st')) <$> await st.
Proof.
  unfold await. simpl. destruct (inputs (env st)) as [|a rest]; [done|].
  simpl. f_equal. f_equal. apply resume_update.
Qed.

Lemma getQuantity_update label st :
  Engine.getQuantity label (u st) = on_state u (Engine.getQuantity label st).
Proof.
  unfold Engine.getQuantity.
  change (emit ?e (u st)) with (u (emit e st)). rewrite await_update.
  destruct (await _) as [[[] st2]|]; simpl; try done.
  by destruct (getQuantity_handlers _ _).
Qed.

Lemma showSelectOption_update csv st :
  Engine.showSelectOption csv (u st) = on_state u (Engine.showSelectOption csv st).
Proof.
  unfold Engine.showSelectOption.
  change (emit ?e (u st)) with (u (emit e st)). rewrite await_update.
  by destruct (await _) as [[[] st2]|].
Qed.

Lemma getBarcode_update (H : Host) label st :
  Engine.getBarcode H label (u st) = on_state u (Engine.getBarcode H label st).
Proof.
  unfold Engine.getBarcode, Engine.settle_barcode. simpl.
  destruct (acqusitionMode (this st)); simpl.
  - change (emit ?e (upd_this ?f (u st))) with (u (emit e (upd_this f st))).
    rewrite await_update. by destruct (await _) as [[[] st2]|].
  - change (emit ?e (upd_this ?f (u st))) with (u (emit e (upd_this f st))).
    rewrite await_update. destruct (await _) as [[[] st2]|]; simpl; try done.
    destruct r as [r|]; [|done]. by destruct (BarcodeScanResult.cancelled r).
  - change (emit ?e (upd_this ?f (u st))) with (u (emit e (upd_this f st))).
    rewrite await_update. destruct (await _) as [[[] st2]|]; simpl; try done.
    destruct r as [r|]; [|done]. by destruct (BarcodeScanResult.cancelled r).
  - destruct (continuosScanSubscription (this st)).
    + change (upd_this ?f (u st)) with (u (upd_this f st)).
      rewrite await_update. destruct (await _) as [[[] st2]|]; simpl; try done.
      destruct r as [r|]; [|done]. by destruct (BarcodeScanResult.cancelled r).
    + change (emit ?e (upd_this ?f (upd_this ?g (u st))))
        with (u (emit e (upd_this f (upd_this g st)))).
      rewrite await_update. destruct (await _) as [[[] st2]|]; simpl; try done.
      destruct r as [r|]; [|done]. by destruct (BarcodeScanResult.cancelled r).
Qed.

Lemma evalCode_update (H : Host) code vars st :
  Engine.evalCode H code vars (u st)
  = ((Engine.evalCode H code vars st).1, u (Engine.evalCode H code vars st).2).
Proof.
  unfold Engine.evalCode, Engine.eval_call. simpl.
  destruct code; try done. by destruct (js_eval H _ _).
Qed.

Lemma exec_block_update (H : Host) i l b st :
  Engine.exec_block H i l b (u st) = on_state u (Engine.exec_block H i l b st).
Proof.
  unfold Engine.exec_block, Engine.if_splice, Engine.complete.
  change (upd_this ?f (u st)) with (u (upd_this f st)).
  set (st0 := upd_this _ st).
  change (this (u st0)) with (set_outputProfile o (this st0)).
  change (pass (u st0)) with (pass st0).
  change (closure (u st0)) with (closure st0).
  change (deviceName (set_outputProfile o (this st0))) with (deviceName (this st0)).
  destruct (type b); try done.
  - repeat (case_match; try done).
    all: match goal with
         | E : Engine.getQuantity ?l (u ?s) = _,
           E' : Engine.getQuantity ?l ?s = _ |- _ =>
             rewrite getQuantity_update, E' in E; simpl in E; by simplify_eq
         end.
  - change (Engine.set_block_value ?l ?v (u st0))
      with (u (Engine.set_block_value l v st0)).
    rewrite showSelectOption_update.
    by destruct (Engine.showSelectOption _ _).
  - rewrite evalCode_update.
    by destruct (Engine.evalCode H _ _ _) as [[?|?] ?].
  - rewrite getBarcode_update.
    destruct (Engine.getBarcode H _ _) as [[?|?] ?|]; simpl; try done.
    by repeat case_match.
  - rewrite evalCode_update.
    destruct (Engine.evalCode H _ _ _) as [[?|?] ?]; simpl; try done.
    by repeat case_match.
Qed.

Lemma run_blocks_update (H : Host) fuel : ∀ i st,
  Engine.run_blocks H fuel i (u st) = on_state u (Engine.run_blocks H fuel i st).
Proof.
  induction fuel as [|fuel IH]; intros i st; simpl; [done|].
  destruct (read_array _ _) as [ls|]; [|done].
  destruct (ls !! i) as [l|]; [|done].
  destruct (read_block _ l) as [b|]; [|done].
  rewrite exec_block_update.
  destruct (Engine.exec_block H i l b st) as [i' st'|]; simpl; [apply IH|done].
Qed.

End update.

(** [updateCurrentOutputProfile()] takes effect between two runs.  A run of
    the profile that is in progress is not disturbed: the loop does the same
    from the updated state as it does from the state before the update, on
    the same working copy.  The next run clones the profile that the settings
    hold at the index. *)
Theorem updateCurrentOutputProfile_shows_at_the_next_run (H : Host) (settings : Settings.t)
    (index : Z) (st : State) (profile : loc) (blocks : list OutputBlockModel) :
  Engine.getOutputProfile (Settings.getOutputProfiles settings) index = Some profile →
  read_blocks (heap (env st)) profile = Some blocks →
  let update := updateCurrentOutputProfile settings index in
  (∀ fuel i, Engine.run_blocks H fuel i (update st)
             = on_state update (Engine.run_blocks H fuel i st))
  ∧ ∃ st', Engine.start_pass (update st) = Ret () st'
           ∧ read_blocks (heap (env st')) (scan_outputBlocks (pass st')) = Some blocks.
Proof.
  intros Hp Hb update. split.
  - intros fuel i. apply run_blocks_update.
  - destruct (start_pass_clones (update st) profile blocks) as (st' & Hs & Hr & _).
    + subst update. unfold updateCurrentOutputProfile. by rewrite Hp.
    + done.
    + by exists st'.
Qed.

Lemma updateCurrentOutputProfile_witness :
  let blocks := [mk_block Ttext "a"] in
  let st := small_state single blocks [] ∅ in
  let settings :=
    {| Settings.getPreferFrontCamera := false; Settings.getEnableLimitBarcodeFormats := false;
       Settings.getBarcodeFormats := []; Settings.getQuantityType := None;
       Settings.getContinueModeTimeout := JNull; Settings.getDeviceName := "phone";
       Settings.getOutputProfiles := [1%nat]; Settings.getTorchOn := false |} in
  ∃ st', Engine.start_pass (updateCurrentOutputProfile settings 3 st) = Ret () st'
         ∧ read_blocks (heap (env st')) (scan_outputBlocks (pass st')) = Some blocks.
Proof.
  intros blocks st settings.
  by destruct (updateCurrentOutputProfile_shows_at_the_next_run small_host settings 3 st
                 1%nat blocks eq_refl eq_refl) as [_ Hnext].
Defined.

(** ** Manual entry, one barcode after the other *)

Lemma read_array_write_value h l v a : read_array (write_value l v h) a = read_array h a.
Proof.
  unfold read_array, write_value.
  destruct (h !! l) as [[b|ls]|] eqn:E; try done.
  destruct (decide (l = a)) as [->|Hne].
  - rewrite E. rewrite list_lookup_insert_eq; [done|]. by eapply lookup_lt_Some.
  - by rewrite list_lookup_insert_ne.
Qed.

Lemma read_blocks_singleton h a b :
  read_blocks h a = Some [b] →
  ∃ l, read_array h a = Some [l] ∧ read_block h l = Some b.
Proof.
  unfold read_blocks. destruct (read_array h a) as [ls|]; simpl; [|done].
  rewrite mapM_Some. intros Hall.
  destruct ls as [|l [|l' ls]]; inversion Hall as [|? ? ? ? Hb Hrest]; subst.
  - by exists l.
  - inversion Hrest.
Qed.

Lemma resume_unhurried a rest st :
  rescan a = None → 500 ≤ elapsed a → calm st →
  let st' := resume a rest st in
  againCount (closure st') = 0
  ∧ resetAgainCountTimer (closure st') = None
  ∧ prevScanDisplayValue (closure st') = prevScanDisplayValue (closure st)
  ∧ this st' = this st
  ∧ events (env st') = events (env st)
  ∧ clock (env st') = clock (env st) + elapsed a.
Proof.
  intros Hr He [Hc Ht]. unfold resume, fire_timers. rewrite Hr. simpl.
  rewrite Z.max_r by lia.
  destruct (resetAgainCountTimer (closure st)) as [due|] eqn:Hd; simpl.
  - destruct (Z.leb_spec due (clock (env st) + elapsed a)); [done|lia].
  - by rewrite Hd.
Qed.

(** The 'barcode' block in the 'manual' mode, on an unhurried entry. *)
Lemma exec_block_manual_entry (H : Host) i l b st a rest s :
  type b = Tbarcode →
  acqusitionMode (this st) = manual →
  _scanCallId (closure st) = this_scanCallId (this st) →
  calm st →
  inputs (env st) = a :: rest →
  reply a = RSubmit s → rescan a = None → 500 ≤ elapsed a →
  ∃ st3,
    Engine.exec_block H i l b st = Ret (S i) st3
    ∧ heap (env st3) = write_value l (JStr s) (heap (env st))
    ∧ scan_outputBlocks (pass st3) = scan_outputBlocks (pass st)
    ∧ againCount (closure st3) = 0
    ∧ _scanCallId (closure st3) = this_scanCallId (this st3)
    ∧ inputs (env st3) = rest.
Proof.
  intros Ht Hm Hid Hcalm Hin Hrep Hr He.
  unfold Engine.exec_block. rewrite Ht. cbv beta iota zeta.
  unfold Engine.getBarcode. simpl. rewrite Hm.
  erewrite await_cons by (simpl; exact Hin).
  rewrite Hrep. unfold Engine.settle_barcode.
  match goal with |- context [resume a rest ?s1] => set (st1 := s1) end.
  assert (calm st1) as Hcalm1 by done.
  destruct (resume_unhurried a rest st1 Hr He Hcalm1)
    as (Hcount & Htimer' & Hprev & Hthis1 & Hev1 & Hclk1).
  set (st2 := resume a rest st1) in *.
  assert (_scanCallId (closure st2) = this_scanCallId (this st2)) as Hid2.
  { subst st2. rewrite resume_scanCallId, Hthis1. by subst st1. }
  simpl. rewrite decide_True by exact Hid2.
  eexists. split; [reflexivity|]. simpl. subst st2.
  rewrite resume_heap, resume_pass, resume_inputs. repeat split; done.
Qed.

(** One run of a profile that is one 'barcode' block, in the 'manual' mode,
    on an unhurried entry. *)
Lemma manual_one_pass (H : Host) (n : nat) (st : State) (master : loc)
    (b : OutputBlockModel) (a : Answer) (rest : list Answer) (s : string) :
  acqusitionMode (this st) = manual →
  outputProfile (this st) = Some master →
  read_blocks (heap (env st)) master = Some [b] →
  type b = Tbarcode →
  _scanCallId (closure st) = this_scanCallId (this st) →
  calm st →
  inputs (env st) = a :: rest →
  submitted a = Some s → rescan a = None → 500 ≤ elapsed a →
  ∃ scan st4,
    one_pass H (S (S n)) st = Ret scan st4
    ∧ value <$> ScanModel.outputBlocks scan = [JStr s]
    ∧ inputs (env st4) = rest
    ∧ _scanCallId (closure st4) = this_scanCallId (this st4)
    ∧ calm st4.
Proof.
  intros Hm Hp Hb Ht Hid Hcalm Hin Hs Hr He.
  unfold submitted in Hs. destruct (reply a) as [| | | |s'] eqn:Hrep; try done.
  injection Hs as ->.
  unfold one_pass, Engine.infinite_loop_guard.
  rewrite Z.gtb_ltb.
  destruct (Z.ltb_spec 30 (againCount (closure st))) as [?|_]; [destruct Hcalm; lia|].
  destruct (start_pass_clones st master [b] Hp Hb) as (st0 & Hs0 & Hrb0 & _).
  rewrite Hs0.
  assert (this st0 = this st ∧ closure st0 = closure st
          ∧ inputs (env st0) = inputs (env st) ∧ clock (env st0) = clock (env st))
    as (Hthis0 & Hclo0 & Hin0 & Hclk0).
  { unfold Engine.start_pass in Hs0. rewrite Hp in Hs0.
    destruct (JSON_clone _ _) as [[h a0]|]; [|done]. by injection Hs0 as <-. }
  destruct (read_blocks_singleton _ _ _ Hrb0) as (l & Hls & Hlb).
  assert (Engine.block_at st0 0 = Some (l, b)) as Hat.
  { unfold Engine.block_at. rewrite Hls. simpl. by rewrite Hlb. }
  rewrite (run_blocks_step H _ _ _ _ _ Hat).
  destruct (exec_block_manual_entry H 0%nat l b st0 a rest s Ht) as
    (st3 & -> & Hh3 & Ha3 & Hcount3 & Hid3 & Hin3); try done.
  { by rewrite Hthis0. }
  { by rewrite Hclo0, Hthis0. }
  { unfold calm. by rewrite Hclo0, Hclk0. }
  { by rewrite Hin0. }
  rewrite (run_blocks_end H n 1 st3 [l])
    by (rewrite ?Hh3, ?Ha3, ?read_array_write_value; done).
  unfold Engine.finish_pass.
  assert (read_blocks (heap (env st3)) (scan_outputBlocks (pass st3))
          = Some [set_value (JStr s) b]) as ->.
  { unfold read_blocks. rewrite Hh3, Ha3, read_array_write_value, Hls. simpl.
    by rewrite (read_block_write_value _ _ _ _ Hlb). }
  cbv beta iota zeta. eexists _, _. split; [reflexivity|].
  split; [done|].
  split; [by destruct (String.eqb _ _)|].
  split; [by destruct (String.eqb _ _)|].
  unfold calm.
  destruct (String.eqb _ _); simpl; rewrite ?Hcount3; split; lia.
Qed.

(** The run when no entry is left: the keyboard input is asked and the call
    stays suspended on it. *)
Lemma manual_one_pass_pending (H : Host) (n : nat) (st : State) (master : loc)
    (b : OutputBlockModel) :
  acqusitionMode (this st) = manual →
  outputProfile (this st) = Some master →
  read_blocks (heap (env st)) master = Some [b] →
  type b = Tbarcode →
  calm st →
  inputs (env st) = [] →
  ∃ st', one_pass H (S n) st = Exit Pending st'.
Proof.
  intros Hm Hp Hb Ht [Hc Htimer] Hin.
  unfold one_pass, Engine.infinite_loop_guard.
  rewrite Z.gtb_ltb. destruct (Z.ltb_spec 30 (againCount (closure st))) as [?|_]; [lia|].
  destruct (start_pass_clones st master [b] Hp Hb) as (st0 & Hs0 & Hrb0 & _).
  rewrite Hs0.
  assert (this st0 = this st ∧ inputs (env st0) = inputs (env st)) as (Hthis0 & Hin0).
  { unfold Engine.start_pass in Hs0. rewrite Hp in Hs0.
    destruct (JSON_clone _ _) as [[h a0]|]; [|done]. by injection Hs0 as <-. }
  destruct (read_blocks_singleton _ _ _ Hrb0) as (l & Hls & Hlb).
  assert (Engine.block_at st0 0 = Some (l, b)) as Hat.
  { unfold Engine.block_at. rewrite Hls. simpl. by rewrite Hlb. }
  rewrite (run_blocks_step H _ _ _ _ _ Hat).
  unfold Engine.exec_block. rewrite Ht. cbv beta iota zeta.
  unfold Engine.getBarcode. simpl. rewrite Hthis0, Hm.
  rewrite await_nil by (simpl; by rewrite Hin0). by eexists.
Qed.

Lemma manual_entries (H : Host) (n : nat) (master : loc) (b : OutputBlockModel)
    (answers : list Answer) : ∀ st,
  acqusitionMode (this st) = manual →
  outputProfile (this st) = Some master →
  read_blocks (heap (env st)) master = Some [b] →
  type b = Tbarcode →
  _scanCallId (closure st) = this_scanCallId (this st) →
  calm st →
  inputs (env st) = answers →
  Forall unhurried_entry answers →
  let r := Engine.again H (S (length answers)) (S (S n)) st in
  r.1 = Pending
  ∧ ∃ evs, events (env r.2) = events (env st) ++ evs
           ∧ values_of (emitted evs) = (λ s, [JStr s]) <$> omap submitted answers.
Proof.
  induction answers as [|a rest IH]; intros st Hm Hp Hb Ht Hid Hcalm Hin Hall r; subst r.
  - rewrite again_S, decide_True by done.
    destruct (manual_one_pass_pending H (S n) st master b Hm Hp Hb Ht Hcalm Hin)
      as (st' & Hpass).
    pose proof (one_pass_hands_over H (S (S n)) st) as Hh.
    rewrite Hpass in *. simpl in *. split; [done|].
    destruct Hh as (evs & He & Hq). exists evs. split; [done|].
    by rewrite (emitted_quiet_events evs Hq).
  - inversion Hall as [|? ? ([s Hs] & Hr & He) Hrest]; subst.
    simpl length. rewrite again_S, decide_True by done.
    destruct (manual_one_pass H n st master b a rest s Hm Hp Hb Ht Hid Hcalm Hin Hs Hr He)
      as (scan & st4 & Hpass & Hvalue & Hin4 & Hid4 & Hcalm4).
    pose proof (one_pass_hands_over H (S (S n)) st) as Hh.
    pose proof (one_pass_setup H (S (S n)) st) as Hsetup.
    pose proof (one_pass_prefix H (S (S n)) st) as Hprefix.
    rewrite Hpass in *. simpl in Hh, Hsetup, Hprefix.
    assert (acqusitionMode (this st4) = manual) as Hm4
      by (unfold setup in Hsetup; congruence).
    assert (outputProfile (this st4) = Some master) as Hp4
      by (unfold setup in Hsetup; congruence).
    rewrite Hm4.
    destruct (IH st4 Hm4 Hp4 (read_blocks_prefix _ _ _ _ Hprefix Hb) Ht Hid4 Hcalm4 Hin4 Hrest)
      as (Hout & evs' & He' & Hv').
    split; [done|].
    destruct Hh as (evs & Hev & Hq).
    exists (evs ++ [ENext scan] ++ evs'). split.
    + by rewrite He', Hev, <- !app_assoc.
    + rewrite !emitted_app, (emitted_quiet_events evs Hq). simpl.
      rewrite Hs. simpl. unfold values_of in *. simpl. by rewrite Hvalue, Hv'.
Qed.

(** Manual entry on a profile that is one 'barcode' block: every text that
    is submitted through the keyboard input gives one scan, whose block holds
    the text as it was typed, in the order of the entries; once the entries
    are used up the call is suspended on the keyboard input.  The entries
    come at least 500 ms after the input is asked, so that the timer of the
    repeat counter has fired, and no new [scan()] is started. *)
Theorem manual_entries_give_their_scans (H : Host) (n : nat) (st : State) (master : loc)
    (b : OutputBlockModel) :
  acqusitionMode (this st) = manual →
  outputProfile (this st) = Some master →
  read_blocks (heap (env st)) master = Some [b] →
  type b = Tbarcode →
  _scanCallId (closure st) = this_scanCallId (this st) →
  calm st →
  Forall unhurried_entry (inputs (env st)) →
  let r := Engine.again H (S (length (inputs (env st)))) (S (S n)) st in
  r.1 = Pending
  ∧ values_of (emitted (events_since st r.2))
    = (λ s, [JStr s]) <$> omap submitted (inputs (env st)).
Proof.
  intros Hm Hp Hb Ht Hid Hcalm Hall r. subst r.
  destruct (manual_entries H n master b (inputs (env st)) st Hm Hp Hb Ht Hid Hcalm eq_refl Hall)
    as (Hout & evs & He & Hv).
  split; [done|]. unfold events_since. by rewrite He, drop_app_length.
Qed.

Lemma manual_entries_witness :
  let entry s := {| elapsed := 700; rescan := None; reply := RSubmit s |} in
  let st := small_state manual repeat_profile [entry "a"; entry "a"; entry "b"] ∅ in
  (Engine.again small_host 4 2 st).1 = Pending
  ∧ values_of (emitted (events_since st (Engine.again small_host 4 2 st).2))
    = [[JStr "a"]; [JStr "a"]; [JStr "b"]].
Proof.
  intros entry st.
  apply (manual_entries_give_their_scans small_host 0 st 1%nat (mk_block Tbarcode "BARCODE")).
  - reflexivity.
  - reflexivity.
  - vm_compute. reflexivity.
  - reflexivity.
  - reflexivity.
  - split; [simpl; lia | reflexivity].
  - repeat constructor; simpl; try lia; by eexists.
Defined.

(** ** The page of the archived scan sessions *)

Lemma ArchivedPage_stored_app cs c :
  ArchivedPage.stored (cs ++ [c])
  = match c with
    | ArchivedPage.setArchivedScanSessions l => Some l
    | _ => ArchivedPage.stored cs
    end.
Proof.
  unfold ArchivedPage.stored. rewrite omap_app.
  destruct c; simpl; rewrite ?app_nil_r; try done. apply last_snoc.
Qed.

Lemma ArchivedPage_act_in_step p a :
  let p' := ArchivedPage.act p a in
  (ArchivedPage.archivedScanSessions p' `sublist_of` ArchivedPage.archivedScanSessions p)
  ∧ (ArchivedPage.stored (ArchivedPage.calls p') = Some (ArchivedPage.archivedScanSessions p')
     ∨ (ArchivedPage.stored (ArchivedPage.calls p') = ArchivedPage.stored (ArchivedPage.calls p)
        ∧ ArchivedPage.archivedScanSessions p' = ArchivedPage.archivedScanSessions p)).
Proof.
  destruct a as [s|c uuid s| |]; simpl.
  - split; [apply sublist_filter|]. left.
    unfold ArchivedPage.Delete_permanently. simpl. by rewrite ArchivedPage_stored_app.
  - unfold ArchivedPage.Restore. destruct c; simpl.
    + split; [apply sublist_filter|]. left. by rewrite ArchivedPage_stored_app.
    + split; [done|]. right. by rewrite ArchivedPage_stored_app.
  - split; [apply sublist_nil_l|]. left.
    unfold ArchivedPage.Delete. simpl. by rewrite ArchivedPage_stored_app.
  - split; [done|]. by right.
Qed.

(** Whatever the user does on the page of the archived sessions, the list of
    the page and the list of the storage do not part: if the list that the
    page showed at first is the one that the storage held, then after any
    sequence of 'Delete permanently', 'Restore', 'Delete' and 'Cancel' the
    list of the page is the list that the storage was given last (or the
    first one, when it was given none).  Sessions are only removed: the list
    of the page is a sublist of the one before. *)
Theorem ArchivedPage_list_is_the_stored_list (actions : list ArchivedPage.Action)
    (p : ArchivedPage.t) :
  let p' := ArchivedPage.run actions p in
  default (ArchivedPage.archivedScanSessions p) (ArchivedPage.stored (ArchivedPage.calls p))
  = ArchivedPage.archivedScanSessions p →
  default (ArchivedPage.archivedScanSessions p) (ArchivedPage.stored (ArchivedPage.calls p'))
  = ArchivedPage.archivedScanSessions p'
  ∧ ArchivedPage.archivedScanSessions p' `sublist_of` ArchivedPage.archivedScanSessions p.
Proof.
  revert p. induction actions as [|a actions IH] using rev_ind; intros p p' Hp.
  - done.
  - subst p'. unfold ArchivedPage.run in *. rewrite foldl_app. simpl.
    destruct (IH p Hp) as [Hs Hsub].
    destruct (ArchivedPage_act_in_step (foldl ArchivedPage.act p actions) a)
      as [Hsub' [Hst | [Hst Heq]]]; simpl in *.
    + split; [by rewrite Hst | by etrans].
    + split; [by rewrite Hst, Heq | by etrans].
Qed.

Lemma ArchivedPage_list_is_the_stored_list_witness :
  let p := ArchivedPage.ionViewDidEnter [1; 2; 3]%nat
             {| ArchivedPage.archivedScanSessions := [];
                ArchivedPage.selectedScanSessions := []; ArchivedPage.calls := [] |} in
  let p' := ArchivedPage.run [ArchivedPage.PressRestore false "id" 1%nat;
                              ArchivedPage.PressDeletePermanently 2%nat] p in
  default [1; 2; 3]%nat (ArchivedPage.stored (ArchivedPage.calls p'))
  = ArchivedPage.archivedScanSessions p'
  ∧ ArchivedPage.archivedScanSessions p' `sublist_of` [1; 2; 3]%nat.
Proof.
  intros p p'.
  apply (ArchivedPage_list_is_the_stored_list
           [ArchivedPage.PressRestore false "id" 1%nat; ArchivedPage.PressDeletePermanently 2%nat]
           p).
  reflexivity.
Defined.

(** 'Restore' on the page of the archived sessions.  Offline, the page shows
    that the action cannot be performed and does nothing else: nothing is
    sent, and the session stays in the list of the page and in the storage.
    Online, the session is sent to the server once, alone and without
    keystrokes, with the id of the device; it goes back among the scan
    sessions of the storage and leaves the archive: it is no more in the list
    of the page, whose other sessions stay in their order. *)
Theorem ArchivedPage_restore (isConnected : bool) (uuid : string)
    (scanSession : ArchivedPage.ScanSessionModel) (p : ArchivedPage.t) :
  let p' := ArchivedPage.Restore isConnected uuid scanSession p in
  if isConnected then
    ArchivedPage.sent (ArchivedPage.calls p')
    = ArchivedPage.sent (ArchivedPage.calls p)
      ++ [ {| ArchivedPage.scanSessions := [scanSession];
              ArchivedPage.sendKeystrokes := false;
              ArchivedPage.deviceId := uuid |} ]
    ∧ (ArchivedPage.updateScanSession scanSession ∈ ArchivedPage.calls p')
    ∧ (scanSession ∉ ArchivedPage.archivedScanSessions p')
    ∧ (∀ x, x ≠ scanSession →
            (x ∈ ArchivedPage.archivedScanSessions p'
             ↔ x ∈ ArchivedPage.archivedScanSessions p))
    ∧ ArchivedPage.archivedScanSessions p' `sublist_of` ArchivedPage.archivedScanSessions p
    ∧ ArchivedPage.stored (ArchivedPage.calls p') = Some (ArchivedPage.archivedScanSessions p')
  else
    ArchivedPage.calls p' = ArchivedPage.calls p ++ [ArchivedPage.showCannotPerformActionOffline]
    ∧ ArchivedPage.archivedScanSessions p' = ArchivedPage.archivedScanSessions p.
Proof.
  intros p'. subst p'. unfold ArchivedPage.Restore. destruct isConnected; simpl; [|done].
  split; [|split; [|split; [|split; [|split]]]].
  - unfold ArchivedPage.sent. rewrite !omap_app. simpl. by rewrite !app_nil_r.
  - set_solver.
  - unfold ArchivedPage.without. rewrite list_elem_of_filter. by intros [Hne _].
  - intros x Hx. unfold ArchivedPage.without. rewrite list_elem_of_filter. tauto.
  - apply sublist_filter.
  - by rewrite ArchivedPage_stored_app.
Qed.

(** ** A profile without a blocking component *)

Lemma exec_block_inert (H : Host) i l b st :
  inert (type b) = true →
  ∃ st', Engine.exec_block H i l b st = Ret (S i) st'
         ∧ env st' = env st ∧ closure st' = closure st ∧ pass st' = pass st
         ∧ this_scanCallId (this st') = this_scanCallId (this st).
Proof.
  intros Hi. unfold Engine.exec_block.
  destruct (type b); try done; by eexists.
Qed.

Lemma run_blocks_inert (H : Host) fuel : ∀ i st bs,
  read_blocks (heap (env st)) (scan_outputBlocks (pass st)) = Some bs →
  Forall (λ b, inert (type b) = true) bs →
  (length bs - i < fuel)%nat →
  ∃ st', Engine.run_blocks H fuel i st = Ret () st'
         ∧ env st' = env st ∧ closure st' = closure st ∧ pass st' = pass st
         ∧ this_scanCallId (this st') = this_scanCallId (this st).
Proof.
  induction fuel as [|fuel IH]; intros i st bs Hrb Hall Hlt; [lia|].
  simpl. pose proof Hrb as Hrb'. unfold read_blocks in Hrb'.
  destruct (read_array _ _) as [ls|]; simpl in Hrb'; [|done].
  apply mapM_Some in Hrb'.
  destruct (ls !! i) as [l|] eqn:Hl; [|by exists st].
  destruct (Forall2_lookup_l _ _ _ _ _ Hrb' Hl) as (b & Hb & Hlb).
  rewrite Hlb.
  pose proof (lookup_lt_Some _ _ _ Hb) as Hi.
  destruct (exec_block_inert H i l b st (Forall_lookup_1 _ _ _ _ Hall Hb))
    as (st1 & -> & He & Hc & Hp & Hid).
  destruct (IH (S i) st1 bs) as (st' & Hr & He' & Hc' & Hp' & Hid').
  - by rewrite He, Hp.
  - done.
  - lia.
  - exists st'. repeat split; congruence.
Qed.

(** One run of a profile of inert blocks: nothing is awaited, the scan is
    handed over at once and the display value is that of the blocks. *)
Lemma inert_pass (H : Host) (steps : nat) (st : State) (master : loc)
    (blocks : list OutputBlockModel) :
  outputProfile (this st) = Some master →
  read_blocks (heap (env st)) master = Some blocks →
  Forall (λ b, inert (type b) = true) blocks →
  (length blocks < steps)%nat →
  againCount (closure st) ≤ 30 →
  let d := display_of H (clock (env st)) blocks in
  ∃ scan st4,
    one_pass H steps st = Ret scan st4
    ∧ events (env st4) = events (env st) ++ [ENext scan]
    ∧ inputs (env st4) = inputs (env st)
    ∧ clock (env st4) = clock (env st)
    ∧ this_scanCallId (this st4) = this_scanCallId (this st)
    ∧ prevScanDisplayValue (closure st4) = d
    ∧ againCount (closure st4)
      = againCount (closure st)
        + (if String.eqb d (prevScanDisplayValue (closure st)) then 1 else 0).
Proof.
  intros Hp Hb Hall Hsteps Hc d.
  unfold one_pass, Engine.infinite_loop_guard.
  rewrite Z.gtb_ltb. destruct (Z.ltb_spec 30 (againCount (closure st))) as [?|_]; [lia|].
  destruct (start_pass_clones st master blocks Hp Hb) as (st0 & Hs0 & Hrb0 & _).
  rewrite Hs0.
  assert (this st0 = this st ∧ closure st0 = closure st
          ∧ inputs (env st0) = inputs (env st) ∧ clock (env st0) = clock (env st)
          ∧ events (env st0) = events (env st)
          ∧ scan_id (pass st0) = clock (env st) ∧ scan_date (pass st0) = clock (env st)
          ∧ scan_quantity (pass st0) = JUndefined)
    as (Hthis0 & Hclo0 & Hin0 & Hclk0 & Hev0 & Hid0 & Hdate0 & Hq0).
  { unfold Engine.start_pass in Hs0. rewrite Hp in Hs0.
    destruct (JSON_clone _ _) as [[h a0]|]; [|done]. by injection Hs0 as <-. }
  destruct (run_blocks_inert H steps 0 st0 blocks Hrb0 Hall ltac:(lia))
    as (st3 & -> & He3 & Hc3 & Hp3 & Hid3).
  unfold Engine.finish_pass. rewrite He3, Hp3, Hrb0, Hc3, Hclo0, Hid0, Hdate0, Hq0.
  cbv beta iota zeta. cbn [library global_eval].
  fold (display_of H (clock (env st)) blocks). fold d.
  eexists _, _. split; [reflexivity|].
  destruct (String.eqb d (prevScanDisplayValue (closure st))); simpl;
    rewrite ?He3, ?Hev0, ?Hin0, ?Hclk0, ?Hid3, ?Hthis0, ?Hc3, ?Hclo0; repeat split; lia.
Qed.

Lemma inert_loop (H : Host) (steps : nat) (master : loc) (blocks : list OutputBlockModel)
    (now : Z) (k : nat) : ∀ passes st,
  acqusitionMode (this st) = continue ∨ acqusitionMode (this st) = manual →
  outputProfile (this st) = Some master →
  read_blocks (heap (env st)) master = Some blocks →
  Forall (λ b, inert (type b) = true) blocks →
  (length blocks < steps)%nat →
  _scanCallId (closure st) = this_scanCallId (this st) →
  inputs (env st) = [] →
  clock (env st) = now →
  prevScanDisplayValue (closure st) = display_of H now blocks →
  againCount (closure st) = 31 - Z.of_nat k →
  (k < passes)%nat →
  let r := Engine.again H passes steps st in
  r.1 = Pending
  ∧ ∃ evs, events (env r.2) = events (env st) ++ evs ++ [EInfiniteLoopDialog]
           ∧ length (emitted evs) = k.
Proof.
  induction k as [|k IH]; intros passes st Hm Hp Hb Hall Hsteps Hid Hin Hclk Hprev Hcount Hk r;
    subst r; destruct passes as [|passes]; try lia.
  - rewrite again_S, decide_True by done.
    unfold one_pass, Engine.infinite_loop_guard.
    rewrite Z.gtb_ltb. destruct (Z.ltb_spec 30 (againCount (closure st))) as [_|?]; [|lia].
    unfold Engine.showPreventInfiniteLoopDialog.
    rewrite await_nil by done. simpl. split; [done|]. by exists [].
  - rewrite again_S, decide_True by done.
    destruct (inert_pass H steps st master blocks Hp Hb Hall Hsteps ltac:(lia))
      as (scan & st4 & Hpass & Hev & Hin4 & Hclk4 & Hid4 & Hprev4 & Hcount4).
    pose proof (one_pass_setup H steps st) as Hsetup.
    pose proof (one_pass_prefix H steps st) as Hprefix.
    rewrite Hpass in *. simpl in Hsetup, Hprefix.
    assert (acqusitionMode (this st4) = acqusitionMode (this st)) as Hm4
      by (unfold setup in Hsetup; congruence).
    assert (outputProfile (this st4) = Some master) as Hp4
      by (unfold setup in Hsetup; congruence).
    assert (_scanCallId (closure st4) = this_scanCallId (this st4)) as Hid4'
      by (unfold setup in Hsetup; congruence).
    cbv zeta in Hprev4, Hcount4. rewrite Hclk in Hprev4. rewrite Hclk, Hprev, String.eqb_refl in Hcount4.
    destruct (IH passes st4) as (Hout & evs & He & Hlen); try done.
    { by rewrite Hm4. }
    { by apply (read_blocks_prefix _ _ _ _ Hprefix). }
    { congruence. }
    { congruence. }
    { lia. }
    { lia. }
    assert (Engine.again H passes steps st4
            = match acqusitionMode (this st4) with
              | continue | manual => Engine.again H passes steps st4
              | mixed_continue =>
                  match Engine.showAddMoreDialog (continueModeTimeout (closure st4)) st4 with
                  | Ret addMore st5 =>
                      if addMore then Engine.again H passes steps st5
                      else (Completed, emit EComplete st5)
                  | Exit o st5 => (o, st5)
                  end
              | single => (Completed, emit EComplete st4)
              end) as <-.
    { rewrite Hm4. by destruct Hm as [-> | ->]. }
    split; [done|]. exists (ENext scan :: evs). split.
    + by rewrite He, Hev, <- app_assoc.
    + simpl. by rewrite Hlen.
Qed.

(** The reason of the detection of infinite loops.  A profile that only has
    blocks that need no processing ('key', 'text', 'delay', or a lone
    'endif') gives again() nothing to wait for in the 'continue' and
    'manual' modes: started by
    [scan()] with no profile run yet, the call hands the same scan to the
    observer 31 or 32 times at once (31 when the display value of the scan is
    empty), then shows the 'Infinite loop detected' alert and waits for the
    answer.  Nothing is awaited between these runs, so that no timer fires
    and the clock of the model stands still: the scans have the same id, date
    and display value. *)
Theorem inert_profile_is_stopped_by_the_detection (H : Host) (passes steps : nat)
    (st : State) (master : loc) (blocks : list OutputBlockModel) :
  acqusitionMode (this st) = continue ∨ acqusitionMode (this st) = manual →
  outputProfile (this st) = Some master →
  read_blocks (heap (env st)) master = Some blocks →
  Forall (λ b, inert (type b) = true) blocks →
  (length blocks < steps)%nat →
  _scanCallId (closure st) = this_scanCallId (this st) →
  inputs (env st) = [] →
  againCount (closure st) = 0 →
  prevScanDisplayValue (closure st) = "" →
  (32 < passes)%nat →
  let r := Engine.again H passes steps st in
  r.1 = Pending
  ∧ last (events (env r.2)) = Some EInfiniteLoopDialog
  ∧ length (emitted (events_since st r.2))
    = (if String.eqb (display_of H (clock (env st)) blocks) "" then 31 else 32)%nat.
Proof.
  intros Hm Hp Hb Hall Hsteps Hid Hin Hcount Hprev Hpasses r. subst r.
  destruct passes as [|passes]; [lia|].
  rewrite again_S, decide_True by done.
  destruct (inert_pass H steps st master blocks Hp Hb Hall Hsteps ltac:(lia))
    as (scan & st4 & Hpass & Hev & Hin4 & Hclk4 & Hid4 & Hprev4 & Hcount4).
  pose proof (one_pass_setup H steps st) as Hsetup.
  pose proof (one_pass_prefix H steps st) as Hprefix.
  rewrite Hpass in *. simpl in Hsetup, Hprefix.
  assert (acqusitionMode (this st4) = acqusitionMode (this st)) as Hm4
    by (unfold setup in Hsetup; congruence).
  assert (outputProfile (this st4) = Some master) as Hp4
    by (unfold setup in Hsetup; congruence).
  assert (_scanCallId (closure st4) = this_scanCallId (this st4)) as Hid4'
    by (unfold setup in Hsetup; congruence).
  cbv zeta in Hprev4, Hcount4. rewrite Hprev, Hcount in Hcount4.
  set (d := display_of H (clock (env st)) blocks) in *.
  set (k := if String.eqb d "" then 30%nat else 31%nat).
  destruct (inert_loop H steps master blocks (clock (env st)) k passes st4)
    as (Hout & evs & He & Hlen); try done.
  { by rewrite Hm4. }
  { by apply (read_blocks_prefix _ _ _ _ Hprefix). }
  { congruence. }
  { rewrite Hcount4. subst k. destruct (String.eqb d ""); lia. }
  { subst k. destruct (String.eqb d ""); lia. }
  assert (Engine.again H passes steps st4
          = match acqusitionMode (this st4) with
            | continue | manual => Engine.again H passes steps st4
            | mixed_continue =>
                match Engine.showAddMoreDialog (continueModeTimeout (closure st4)) st4 with
                | Ret addMore st5 =>
                    if addMore then Engine.again H passes steps st5
                    else (Completed, emit EComplete st5)
                | Exit o st5 => (o, st5)
                end
            | single => (Completed, emit EComplete st4)
            end) as <-.
  { rewrite Hm4. by destruct Hm as [-> | ->]. }
  split; [done|]. split.
  - by rewrite He, !app_assoc, last_snoc.
  - unfold events_since. rewrite He, Hev, <- !app_assoc, drop_app_length.
    simpl. rewrite emitted_app. simpl. rewrite app_nil_r, Hlen.
    subst k. by destruct (String.eqb d "").
Qed.

Lemma inert_profile_witness :
  let st := small_state manual [mk_block Ttext "x"] [] ∅ in
  (Engine.again small_host 40 5 st).1 = Pending
  ∧ last (events (env (Engine.again small_host 40 5 st).2)) = Some EInfiniteLoopDialog
  ∧ length (emitted (events_since st (Engine.again small_host 40 5 st).2)) = 32%nat.
Proof.
  intros st.
  apply (inert_profile_is_stopped_by_the_detection small_host 40 5 st 1%nat
           [mk_block Ttext "x"]).
  - by right.
  - reflexivity.
  - vm_compute. reflexivity.
  - by repeat constructor.
  - simpl. lia.
  - reflexivity.
  - reflexivity.
  - reflexivity.
  - reflexivity.
  - lia.
Defined.

(** ** The scans of the current provider *)

Lemma only_writes_refl l st : only_writes l st st.
Proof. done. Qed.

Lemma only_writes_same l st0 st st' :
  heap (env st') = heap (env st) → only_writes l st0 st → only_writes l st0 st'.
Proof. unfold only_writes. by intros ->. Qed.

Lemma only_writes_emit l st0 e st : only_writes l st0 st → only_writes l st0 (emit e st).
Proof. by apply only_writes_same. Qed.

Lemma only_writes_upd_this l st0 f st :
  only_writes l st0 st → only_writes l st0 (upd_this f st).
Proof. by apply only_writes_same. Qed.

Lemma only_writes_upd_closure l st0 f st :
  only_writes l st0 st → only_writes l st0 (upd_closure f st).
Proof. by apply only_writes_same. Qed.

Lemma only_writes_upd_pass l st0 f st :
  only_writes l st0 st → only_writes l st0 (upd_pass f st).
Proof. by apply only_writes_same. Qed.

Lemma only_writes_resume l st0 a rest st :
  only_writes l st0 st → only_writes l st0 (resume a rest st).
Proof. apply only_writes_same. apply resume_heap. Qed.

Lemma only_writes_set_block_value l v st0 st :
  only_writes l st0 st → only_writes l st0 (Engine.set_block_value l v st).
Proof.
  intros Hw l' Hne. rewrite <- (Hw l' Hne).
  unfold Engine.set_block_value, write_heap, write_value. simpl.
  destruct (heap (env st) !! l) as [[?|?]|]; try done.
  by rewrite list_lookup_insert_ne.
Qed.

Lemma only_writes_evalCode (H : Host) l st0 code vars st :
  only_writes l st0 st → only_writes l st0 (Engine.evalCode H code vars st).2.
Proof. apply only_writes_same. apply evalCode_store. Qed.

Ltac only_writes_step :=
  first
    [ assumption
    | apply only_writes_refl
    | apply only_writes_emit
    | apply only_writes_upd_this
    | apply only_writes_upd_closure
    | apply only_writes_upd_pass
    | apply only_writes_set_block_value
    | apply only_writes_resume
    | apply only_writes_evalCode ].

Ltac solve_only_writes := repeat only_writes_step.

Lemma getQuantity_only_writes l st0 label st :
  only_writes l st0 st → after (only_writes l st0) (Engine.getQuantity label st).
Proof.
  intros Hs. unfold Engine.getQuantity, await. simpl.
  repeat case_match; simplify_eq/=; solve_only_writes.
Qed.

Lemma showSelectOption_only_writes l st0 csv st :
  only_writes l st0 st → after (only_writes l st0) (Engine.showSelectOption csv st).
Proof.
  intros Hs. unfold Engine.showSelectOption, await. simpl.
  repeat case_match; simplify_eq/=; solve_only_writes.
Qed.

Lemma getBarcode_only_writes (H : Host) l st0 label st :
  only_writes l st0 st → after (only_writes l st0) (Engine.getBarcode H label st).
Proof.
  intros Hs. unfold Engine.getBarcode, Engine.settle_barcode, await. simpl.
  repeat case_match; simplify_eq/=; solve_only_writes.
Qed.

(** A block that is no 'if' writes to its own object only. *)
Lemma exec_block_only_writes (H : Host) i l b st :
  type b ≠ Tif → after (only_writes l st) (Engine.exec_block H i l b st).
Proof.
  intros Hif. unfold Engine.exec_block, Engine.complete.
  destruct (type b); simpl; try done; try solve [solve_only_writes].
  - repeat (case_match; simpl; try done; try solve [solve_only_writes]).
    all: match goal with
         | E : Engine.getQuantity ?l' ?s = _ |- _ =>
             pose proof (getQuantity_only_writes l st l' s ltac:(solve_only_writes)) as Hg;
             rewrite E in Hg; simpl in Hg
         end; solve_only_writes.
  - match goal with
    | |- context [Engine.showSelectOption ?c ?s] =>
        pose proof (showSelectOption_only_writes l st c s ltac:(solve_only_writes)) as Hg;
        destruct (Engine.showSelectOption c s); simpl in *; solve_only_writes
    end.
  - match goal with
    | |- context [Engine.evalCode _ ?c ?v ?s] =>
        pose proof (only_writes_evalCode H l st c v s ltac:(solve_only_writes)) as Hg;
        destruct (Engine.evalCode H c v s) as [[?|?] ?]; simpl in *; solve_only_writes
    end.
  - match goal with
    | |- context [Engine.getBarcode _ ?l' ?s] =>
        pose proof (getBarcode_only_writes H l st l' s ltac:(solve_only_writes)) as Hg;
        destruct (Engine.getBarcode H l' s) as [[?|?] ?|]; simpl in *;
        repeat case_match; simpl; solve_only_writes
    end.
Qed.

(** Case 'function': the block gets the empty string. *)
Lemma exec_block_function (H : Host) i l b st :
  read_block (heap (env st)) l = Some b →
  type b = Tfunction →
  ∃ st',
    Engine.exec_block H i l b st = Ret (S i) st'
    ∧ read_block (heap (env st')) l = Some (set_value (JStr "") b)
    ∧ events (env st')
      = events (env st) ++ eval_alerts H (value b) (variables (pass st)) st.
Proof.
  intros Hl Ht.
  unfold Engine.exec_block. rewrite Ht. cbv beta iota zeta.
  match goal with
  | |- context [Engine.evalCode _ ?c ?v ?s] =>
      destruct (evalCode_throws H c v s) as [error He];
      destruct (evalCode_store H c v s) as (Hh & _ & _ & _ & _ & _ & Hev);
      destruct (Engine.evalCode H c v s) as [r st1]
  end.
  simpl in He, Hh, Hev. subst r.
  eexists. split; [reflexivity|]. split.
  - simpl. rewrite Hh. by apply read_block_write_value.
  - simpl. by rewrite Hev.
Qed.

(** Case 'if': the function is left. *)
Lemma exec_block_if_exits (H : Host) i l b st :
  type b = Tif → ∃ st', Engine.exec_block H i l b st = Exit Completed st'.
Proof.
  intros Ht. unfold Engine.exec_block. rewrite Ht. cbv beta iota zeta.
  match goal with
  | |- context [Engine.evalCode _ ?c ?v ?s] =>
      destruct (evalCode_throws H c v s) as [error He];
      destruct (Engine.evalCode H c v s) as [r st1]
  end.
  simpl in He. subst r. by eexists.
Qed.

(** One iteration of the loop on the array [ls] of the blocks [bs]: when the
    loop goes on, the block was no 'if', the array is the same, and the
    blocks are the same but the one at the index, which keeps its type and
    holds the empty string when it is a 'function' block. *)
Lemma exec_block_passes (H : Host) i l b st ls bs :
  read_array (heap (env st)) (scan_outputBlocks (pass st)) = Some ls →
  NoDup ls →
  Forall2 (λ l b, read_block (heap (env st)) l = Some b) ls bs →
  ls !! i = Some l → bs !! i = Some b →
  match Engine.exec_block H i l b st with
  | Ret i' st' =>
      i' = S i
      ∧ scan_outputBlocks (pass st') = scan_outputBlocks (pass st)
      ∧ read_array (heap (env st')) (scan_outputBlocks (pass st)) = Some ls
      ∧ ∃ bs', Forall2 (λ l b, read_block (heap (env st')) l = Some b) ls bs'
               ∧ type <$> bs' = type <$> bs
               ∧ (∀ j, j ≠ i → bs' !! j = bs !! j)
               ∧ (∀ b', bs' !! i = Some b' → passed b')
  | Exit _ _ => True
  end.
Proof.
  intros Hls Hnd Hall Hl Hb.
  assert (read_block (heap (env st)) l = Some b) as Hlb
    by exact (Forall2_lookup_lr _ _ _ _ _ _ Hall Hl Hb).
  destruct (decide (type b = Tif)) as [Hif|Hif].
  { by destruct (exec_block_if_exits H i l b st Hif) as [st' ->]. }
  pose proof (exec_block_plain H i l b st Hif) as Hplain.
  pose proof (exec_block_only_writes H i l b st Hif) as Hw.
  pose proof (exec_block_same_run H i l b st) as (_ & _ & _ & Ha & _).
  destruct (Engine.exec_block H i l b st) as [i' st'|o st'] eqn:Hexec; [|done].
  simpl in Hw, Ha. destruct Hplain as [-> Hty].
  assert (scan_outputBlocks (pass st) ≠ l) as Hal.
  { intros <-. unfold read_array, read_block in *.
    by destruct (heap (env st) !! scan_outputBlocks (pass st)) as [[?|?]|]. }
  assert (read_array (heap (env st')) (scan_outputBlocks (pass st)) = Some ls) as Hls'.
  { unfold read_array in *. by rewrite (Hw _ Hal). }
  split; [done|]. split; [done|]. split; [done|].
  unfold same_types, types_of in Hty. rewrite Ha in Hty. unfold read_blocks in Hty.
  rewrite Hls, Hls' in Hty. simpl in Hty.
  assert (mapM (read_block (heap (env st))) ls = Some bs) as Hm by by apply mapM_Some.
  rewrite Hm in Hty. simpl in Hty.
  destruct (mapM (read_block (heap (env st'))) ls) as [bs'|] eqn:Hm'; [|done].
  simpl in Hty. injection Hty as Hty. apply mapM_Some in Hm'.
  exists bs'. split; [done|]. split; [done|]. split.
  - intros j Hj.
    destruct (ls !! j) as [lj|] eqn:Hlj.
    + destruct (Forall2_lookup_l _ _ _ _ _ Hall Hlj) as (bj & Hbj & Hrj).
      destruct (Forall2_lookup_l _ _ _ _ _ Hm' Hlj) as (bj' & Hbj' & Hrj').
      assert (lj ≠ l) as Hne.
      { intros ->. apply Hj. by eapply NoDup_lookup. }
      unfold read_block in Hrj, Hrj'. rewrite (Hw _ Hne) in Hrj'.
      rewrite Hbj, Hbj'. congruence.
    + apply lookup_ge_None in Hlj.
      rewrite (proj2 (lookup_ge_None bs' j)), (proj2 (lookup_ge_None bs j)); [done|..].
      * by rewrite <- (Forall2_length _ _ _ Hall).
      * by rewrite <- (Forall2_length _ _ _ Hm').
  - intros b' Hb'.
    assert (type b' = type b) as Htb.
    { assert ((type <$> bs') !! i = (type <$> bs) !! i) as E by by rewrite Hty.
      rewrite !list_lookup_fmap, Hb', Hb in E. by injection E. }
    split; [congruence|]. intros Hf. rewrite Htb in Hf.
    destruct (exec_block_function H i l b st Hlb Hf) as (st'' & Hrun & Hv & _).
    rewrite Hexec in Hrun. injection Hrun as <-.
    pose proof (Forall2_lookup_lr _ _ _ _ _ _ Hm' Hl Hb') as Hr. simpl in Hr.
    rewrite Hv in Hr. by injection Hr as <-.
Qed.

Lemma run_blocks_passes (H : Host) fuel : ∀ i st ls bs,
  read_array (heap (env st)) (scan_outputBlocks (pass st)) = Some ls →
  NoDup ls →
  Forall2 (λ l b, read_block (heap (env st)) l = Some b) ls bs →
  Forall passed (take i bs) →
  match Engine.run_blocks H fuel i st with
  | Ret _ st' =>
      ∃ bs', read_blocks (heap (env st')) (scan_outputBlocks (pass st')) = Some bs'
             ∧ type <$> bs' = type <$> bs
             ∧ Forall passed bs'
  | Exit _ _ => True
  end.
Proof.
  induction fuel as [|fuel IH]; intros i st ls bs Hls Hnd Hall Hdone; simpl; [done|].
  rewrite Hls.
  destruct (ls !! i) as [l|] eqn:Hl.
  - destruct (Forall2_lookup_l _ _ _ _ _ Hall Hl) as (b & Hb & Hlb). rewrite Hlb.
    pose proof (exec_block_passes H i l b st ls bs Hls Hnd Hall Hl Hb) as Hstep.
    destruct (Engine.exec_block H i l b st) as [i' st'|o st']; [|done].
    destruct Hstep as (-> & Ha & Hls' & bs' & Hall' & Hty & Hsame & Hi).
    rewrite <- Ha in Hls'.
    assert (Forall passed (take (S i) bs')) as Hdone'.
    { assert (is_Some (bs' !! i)) as [b' Hb'].
      { apply lookup_lt_is_Some. rewrite <- (Forall2_length _ _ _ Hall').
        by eapply lookup_lt_Some. }
      rewrite (take_S_r _ _ _ Hb'). apply Forall_app. split.
      - replace (take i bs') with (take i bs); [done|].
        apply list_eq. intros j. destruct (decide (j < i)%nat) as [Hj|Hj].
        + rewrite !lookup_take_lt by done. symmetry. apply Hsame. lia.
        + by rewrite !lookup_take_ge by lia.
      - constructor; [by apply Hi | constructor]. }
    specialize (IH (S i) st' ls bs' Hls' Hnd Hall' Hdone').
    destruct (Engine.run_blocks H fuel (S i) st') as [[] st''|]; [|done].
    destruct IH as (bs'' & Hrb & Hty' & Hp).
    exists bs''. split; [done|]. split; [congruence|done].
  - exists bs. split; [|split; [done|]].
    + unfold read_blocks. rewrite Hls. simpl. by apply mapM_Some.
    + rewrite take_ge in Hdone; [done|].
      rewrite <- (Forall2_length _ _ _ Hall). by apply lookup_ge_None.
Qed.

(** The clone at the start of a run: the working array refers to fresh
    objects, one for each block. *)
Lemma start_pass_array st master blocks :
  outputProfile (this st) = Some master →
  read_blocks (heap (env st)) master = Some blocks →
  ∃ st' ls, Engine.start_pass st = Ret () st'
            ∧ read_array (heap (env st')) (scan_outputBlocks (pass st')) = Some ls
            ∧ NoDup ls
            ∧ Forall2 (λ l b, read_block (heap (env st')) l = Some b) ls blocks.
Proof.
  intros Hm Hb.
  unfold Engine.start_pass. rewrite Hm.
  unfold JSON_clone. rewrite Hb. simpl.
  rewrite clone_blocks_spec. simpl.
  eexists _, (seq (length (heap (env st))) (length blocks)).
  split; [reflexivity|]. simpl. split; [|split].
  - unfold read_array.
    rewrite lookup_app_r by (rewrite length_app, length_fmap; lia).
    by rewrite length_app, length_fmap, Nat.sub_diag.
  - apply NoDup_seq.
  - rewrite <- app_assoc. apply read_cloned_blocks.
Qed.

(** The scans that the current provider hands to the observer.  Every scan
    comes from a run that went through the whole profile without meeting an
    'if' (an 'if' ends the call): it has the blocks of the profile, none
    removed, and its 'function' blocks hold the empty string, whatever their
    code gives.  A profile with an 'if' gives no scan at all. *)
Theorem scans_have_empty_functions_and_no_if (H : Host) (passes steps : nat)
    (st : State) (master : loc) (blocks : list OutputBlockModel) :
  outputProfile (this st) = Some master →
  read_blocks (heap (env st)) master = Some blocks →
  let scans := emitted (events_since st (Engine.again H passes steps st).2) in
  Forall (passed_scan blocks) scans
  ∧ (Exists (λ b, type b = Tif) blocks → scans = []).
Proof.
  intros Hm Hb scans.
  assert (Forall (passed_scan blocks) scans) as Hall.
  { subst scans.
    destruct (again_emitted H steps
                (λ st', outputProfile (this st') = Some master
                        ∧ read_blocks (heap (env st')) master = Some blocks)
                (passed_scan blocks)) with (passes := passes) (st := st)
      as (evs & He & HP).
    - intros st1 scan st4 [Hm1 Hb1] Hp. split.
      + unfold one_pass in Hp.
        pose proof (infinite_loop_guard_untouched st1) as (Hsg & _ & Hhg).
        destruct (Engine.infinite_loop_guard st1) as [[] stg|]; simpl in *; [|done].
        assert (outputProfile (this stg) = Some master) as Hmg
          by (unfold setup in Hsg; congruence).
        rewrite <- Hhg in Hb1.
        destruct (start_pass_array stg master blocks Hmg Hb1)
          as (st0 & ls & Hs & Hls & Hnd & Hf2).
        rewrite Hs in Hp.
        pose proof (run_blocks_passes H steps 0 st0 ls blocks Hls Hnd Hf2
                      ltac:(by rewrite take_0)) as Hr.
        destruct (Engine.run_blocks H steps 0 st0) as [[] st3|]; simpl in *; [|done].
        destruct Hr as (bs' & Hrb & Hty & Hpassed).
        unfold Engine.finish_pass in Hp. rewrite Hrb in Hp.
        cbv zeta in Hp. injection Hp as <- _. by split.
      + pose proof (one_pass_setup H steps st1) as Hs.
        pose proof (one_pass_prefix H steps st1) as Hpre.
        rewrite Hp in Hs, Hpre. simpl in *. split.
        * unfold setup in Hs. congruence.
        * by apply (read_blocks_prefix _ _ _ _ Hpre).
    - intros st1 t [Hm1 Hb1].
      destruct (showAddMoreDialog_untouched t st1) as (Hs & _ & Hh). split.
      + unfold setup in Hs. congruence.
      + by rewrite Hh.
    - done.
    - unfold events_since. by rewrite He, drop_app_length. }
  split; [done|].
  intros Hex. destruct scans as [|scan scans']; [done|].
  apply Forall_cons in Hall as [[Hty Hp] _].
  apply Exists_exists in Hex as (b & Hin & Hb').
  apply list_elem_of_lookup in Hin as [j Hj].
  assert ((type <$> ScanModel.outputBlocks scan) !! j = Some Tif) as E
    by by rewrite Hty, list_lookup_fmap, Hj, <- Hb'.
  rewrite list_lookup_fmap in E.
  destruct (ScanModel.outputBlocks scan !! j) as [b0|] eqn:E0; [|done].
  injection E as E.
  destruct (proj1 (Forall_lookup _ _) Hp j b0 E0) as [Hnot _]. done.
Qed.

Lemma scans_have_empty_functions_witness :
  let blocks := [mk_block Ttext "a"; mk_block Tfunction "true"] in
  let st := small_state manual blocks [] ∅ in
  let scans := emitted (events_since st (Engine.again small_host 2 5 st).2) in
  Forall (passed_scan blocks) scans
  ∧ values_of scans = [[JStr "a"; JStr ""]; [JStr "a"; JStr ""]].
Proof.
  intros blocks st scans. split; [|vm_compute; reflexivity].
  by destruct (scans_have_empty_functions_and_no_if small_host 2 5 st 2%nat blocks
                 eq_refl eq_refl) as [Hall _].
Defined.
